(** * Form-agent chat client: protocol layer

    A shallow embedding of the conversation-orchestration and model-output
    protocol code of the chat client:

    - [safeParseJSON]            (services/gemini.ts, lines 34-100)
    - [generateChatResponse]     (services/gemini.ts, lines 169-436)
    - the form-payload effect    (components/FormAgentCard, the [useEffect]
                                  on [message])
    - [handleSendMessageInternal], [handleFormSubmit] and the todo handlers
      (App.tsx)

    JavaScript strings are lists of code units (restricted to the Latin-1
    range, i.e. [ascii]); JavaScript values are the inductive [value],
    with the integers for numbers; objects are association lists in
    property order.  The clock, the random source, the two upstream
    APIs, the file upload, geolocation and the task store ([services/db])
    are oracles of a [Host]; handlers are computations in a state and
    exception monad over the [World] they read and write. *)

From Stdlib Require Import List Bool Arith ZArith Lia Ascii String.
From Stdlib Require Import DecimalString DecimalPos.
Import ListNotations.

Set Implicit Arguments.
Set Warnings "-register-all".
Local Open Scope list_scope.

(* ===================================================================== *)
(** ** JavaScript strings *)
(* ===================================================================== *)

Module JsString.

(** A string is its sequence of code units. *)
Definition t := list ascii.

(** Literals are written [str "..."]. *)
Definition str (s : string) : t := list_ascii_of_string s.

Definition dquote : ascii := ascii_of_nat 34.
Definition backslash : ascii := ascii_of_nat 92.
Definition lbrace : ascii := ascii_of_nat 123.
Definition rbrace : ascii := ascii_of_nat 125.
Definition backtick : ascii := ascii_of_nat 96.
Definition newline : ascii := ascii_of_nat 10.

(** Literals that contain double quotes are written with single quotes
    and converted: [js "{'a':1}"]. *)
Definition js (s : string) : t :=
  map (fun c => if Ascii.eqb c "'"%char then dquote else c) (str s).

Fixpoint eqb (a b : t) : bool :=
  match a, b with
  | [], [] => true
  | x :: a', y :: b' => Ascii.eqb x y && eqb a' b'
  | _, _ => false
  end.

(** [String.prototype.startsWith]. *)
Fixpoint startsWith (lit s : t) : bool :=
  match lit, s with
  | [], _ => true
  | x :: lit', y :: s' => Ascii.eqb x y && startsWith lit' s'
  | _ :: _, [] => false
  end.

(** [String.prototype.endsWith]. *)
Definition endsWith (lit s : t) : bool := startsWith (rev lit) (rev s).

(** [String.prototype.includes]. *)
Fixpoint includes (needle s : t) : bool :=
  startsWith needle s ||
  match s with
  | [] => false
  | _ :: s' => includes needle s'
  end.

(** The white space and line terminators that [trim] removes
    (those below U+0100). *)
Definition is_space (c : ascii) : bool :=
  let n := nat_of_ascii c in
  (9 <=? n) && (n <=? 13) || (n =? 32) || (n =? 160).

Fixpoint trimStart (s : t) : t :=
  match s with
  | c :: s' => if is_space c then trimStart s' else s
  | [] => []
  end.

Definition trimEnd (s : t) : t := rev (trimStart (rev s)).

(** [String.prototype.trim]. *)
Definition trim (s : t) : t := trimEnd (trimStart s).

(** [s.indexOf(c)] for a one-character pattern; [None] is -1. *)
Fixpoint indexOf (c : ascii) (s : t) : option nat :=
  match s with
  | [] => None
  | x :: s' => if Ascii.eqb x c then Some 0 else option_map S (indexOf c s')
  end.

(** [s.lastIndexOf(c)]. *)
Fixpoint lastIndexOf (c : ascii) (s : t) : option nat :=
  match s with
  | [] => None
  | x :: s' =>
      match lastIndexOf c s' with
      | Some i => Some (S i)
      | None => if Ascii.eqb x c then Some 0 else None
      end
  end.

(** [s.substring(a, b)] for [a <= b]. *)
Definition substring (a b : nat) (s : t) : t := firstn (b - a) (skipn a s).

(** [s.replace(/^lit/, '')]: drop a literal prefix when it is there. *)
Definition dropPrefix (lit s : t) : t :=
  if startsWith lit s then skipn (List.length lit) s else s.

(** [s.replace(/lit$/, '')]: drop a literal suffix when it is there. *)
Definition dropSuffix (lit s : t) : t := rev (dropPrefix (rev lit) (rev s)).

(** [Array.prototype.join] on strings. *)
Fixpoint join (sep : t) (l : list t) : t :=
  match l with
  | [] => []
  | [x] => x
  | x :: l' => x ++ sep ++ join sep l'
  end.

End JsString.

Import JsString.
Definition jstring : Type := JsString.t.

(* ===================================================================== *)
(** ** JavaScript values and JSON text *)
(* ===================================================================== *)

(** The values that flow through the protocol layer.  Numbers are the
    integers, meant for those that a JavaScript number holds exactly
    and prints with all their digits (magnitude below 10^21; fractions
    are outside the model).  [VObj] lists the own properties in
    property order, which is the order of insertion as long as no key
    is an array index. *)
Inductive value : Type :=
| VUndefined
| VNull
| VBool (b : bool)
| VNum (n : Z)
| VStr (s : jstring)
| VArr (items : list value)
| VObj (props : list (jstring * value)).

Module Value.

(** ToBoolean. *)
Definition truthy (v : value) : bool :=
  match v with
  | VUndefined | VNull => false
  | VBool b => b
  | VNum n => negb (n =? 0)%Z
  | VStr s => match s with [] => false | _ => true end
  | VArr _ | VObj _ => true
  end.

(** [a || b]. *)
Definition or_else (a b : value) : value := if truthy a then a else b.

Fixpoint lookup (k : jstring) (props : list (jstring * value)) : option value :=
  match props with
  | [] => None
  | (k', v) :: rest => if JsString.eqb k' k then Some v else lookup k rest
  end.

(** [o[k] = v] on own properties: overwrite in place or append. *)
Fixpoint set (k : jstring) (v : value) (props : list (jstring * value))
  : list (jstring * value) :=
  match props with
  | [] => [(k, v)]
  | (k', v') :: rest =>
      if JsString.eqb k' k then (k', v) :: rest else (k', v') :: set k v rest
  end.

(** [o[k]] for [o] that is neither [null] nor [undefined]; the keys
    read by this code are never built-in properties of primitives or
    arrays, so everything but an object answers [undefined]. *)
Definition prop (k : jstring) (o : value) : value :=
  match o with
  | VObj props => match lookup k props with Some v => v | None => VUndefined end
  | _ => VUndefined
  end.

(** [Array.isArray]. *)
Definition isArray (v : value) : bool :=
  match v with VArr _ => true | _ => false end.

(** Strict equality [===] of a value with a string. *)
Definition is_string (s : jstring) (v : value) : bool :=
  match v with VStr s' => JsString.eqb s' s | _ => false end.

End Value.

Module JSON.

Definition hex_digit (n : nat) : ascii :=
  if n <? 10 then ascii_of_nat (48 + n) else ascii_of_nat (87 + n).

(** One code unit inside a JSON string literal (QuoteJSONString). *)
Definition quote_char (c : ascii) : jstring :=
  let n := nat_of_ascii c in
  if n =? 8 then str "\b"
  else if n =? 9 then str "\t"
  else if n =? 10 then str "\n"
  else if n =? 12 then str "\f"
  else if n =? 13 then str "\r"
  else if n =? 34 then [backslash; dquote]
  else if n =? 92 then [backslash; backslash]
  else if n <? 32 then
    str "\u00" ++ [hex_digit (n / 16); hex_digit (n mod 16)]
  else [c].

Definition quote (s : jstring) : jstring :=
  dquote :: flat_map quote_char s ++ [dquote].

(** Number::toString on an integer of magnitude below 10^21.  From
    there on the platform prints an exponent; such numbers are outside
    the model, and so are the texts that [serialize] writes for them. *)
Definition number_to_string (n : Z) : jstring :=
  str (NilZero.string_of_int (Z.to_int n)).

(** SerializeJSONProperty with the running indentation [indent] and the
    unit of indentation [gap] ([gap] is empty for [JSON.stringify(v)]).
    [None] is [undefined]: the property is left out of an object and
    printed as [null] in an array. *)
Fixpoint serialize (gap indent : jstring) (v : value) : option jstring :=
  let inner := indent ++ gap in
  let wrap (opening closing : jstring) (partial : list jstring) : jstring :=
    match partial with
    | [] => opening ++ closing
    | _ =>
        match gap with
        | [] => opening ++ join (str ",") partial ++ closing
        | _ =>
            opening ++ [newline] ++ inner
              ++ join (str "," ++ [newline] ++ inner) partial
              ++ [newline] ++ indent ++ closing
        end
    end in
  match v with
  | VUndefined => None
  | VNull => Some (str "null")
  | VBool true => Some (str "true")
  | VBool false => Some (str "false")
  | VNum n => Some (number_to_string n)
  | VStr s => Some (quote s)
  | VArr items =>
      Some (wrap (str "[") (str "]")
              (map (fun x => match serialize gap inner x with
                             | Some s => s
                             | None => str "null"
                             end) items))
  | VObj props =>
      Some (wrap (str "{") (str "}")
              (flat_map (fun kv =>
                           match serialize gap inner (snd kv) with
                           | Some s =>
                               [quote (fst kv) ++ str ":"
                                  ++ match gap with [] => [] | _ => str " " end
                                  ++ s]
                           | None => []
                           end) props))
  end.

(** [JSON.stringify(o)] for an object [o]. *)
Definition stringify (props : list (jstring * value)) : jstring :=
  match serialize [] [] (VObj props) with Some s => s | None => [] end.

(** [JSON.stringify(o, null, 2)] for an object [o]. *)
Definition stringify_pretty (props : list (jstring * value)) : jstring :=
  match serialize (str "  ") [] (VObj props) with Some s => s | None => [] end.

(** *** A reference [JSON.parse]

    The extractor only needs to know whether [JSON.parse] accepts a text
    and what it returns, so it takes the parser as a parameter.  This
    recursive-descent parser of the JSON grammar (integer numerals only)
    is the instance on which concrete inputs are evaluated; it reads
    back whatever [serialize] writes ([Roundtrip.parse_serialize]).

    It stands for the platform's parser on the texts of the model only:
    it refuses a numeral with a fraction or an exponent, keeps every
    digit of an integer where the platform rounds beyond 2^53, and
    keeps the keys of an object in the order of the text where the
    platform lists array indices first. *)

Definition is_ws (c : ascii) : bool :=
  let n := nat_of_ascii c in
  (n =? 9) || (n =? 10) || (n =? 13) || (n =? 32).

Fixpoint skip_ws (s : jstring) : jstring :=
  match s with
  | c :: s' => if is_ws c then skip_ws s' else s
  | [] => []
  end.

Definition is_digit (c : ascii) : bool :=
  let n := nat_of_ascii c in (48 <=? n) && (n <=? 57).

Definition hex_val (c : ascii) : option nat :=
  let n := nat_of_ascii c in
  if (48 <=? n) && (n <=? 57) then Some (n - 48)
  else if (97 <=? n) && (n <=? 102) then Some (n - 87)
  else if (65 <=? n) && (n <=? 70) then Some (n - 55)
  else None.

(** The code unit written [\uXXXX], when it is below U+0100. *)
Definition unicode_escape (a b c d : ascii) : option ascii :=
  match hex_val a, hex_val b, hex_val c, hex_val d with
  | Some 0, Some 0, Some x, Some y => Some (ascii_of_nat (16 * x + y))
  | _, _, _, _ => None
  end.

Definition simple_escape (e : ascii) : option ascii :=
  let n := nat_of_ascii e in
  if n =? 34 then Some dquote
  else if n =? 92 then Some backslash
  else if n =? 47 then Some "/"%char
  else if n =? 98 then Some (ascii_of_nat 8)
  else if n =? 102 then Some (ascii_of_nat 12)
  else if n =? 110 then Some (ascii_of_nat 10)
  else if n =? 114 then Some (ascii_of_nat 13)
  else if n =? 116 then Some (ascii_of_nat 9)
  else None.

(** The characters of a string literal after its opening quote, and the
    text after its closing quote. *)
Fixpoint parse_string_body (s : jstring) : option (jstring * jstring) :=
  match s with
  | [] => None
  | c :: r =>
      if Ascii.eqb c dquote then Some ([], r)
      else if Ascii.eqb c backslash then
        match r with
        | e :: r1 =>
            if Ascii.eqb e "u"%char then
              match r1 with
              | h1 :: h2 :: h3 :: h4 :: r2 =>
                  match unicode_escape h1 h2 h3 h4, parse_string_body r2 with
                  | Some u, Some (body, rest) => Some (u :: body, rest)
                  | _, _ => None
                  end
              | _ => None
              end
            else
              match simple_escape e, parse_string_body r1 with
              | Some u, Some (body, rest) => Some (u :: body, rest)
              | _, _ => None
              end
        | [] => None
        end
      else if nat_of_ascii c <? 32 then None
      else
        match parse_string_body r with
        | Some (body, rest) => Some (c :: body, rest)
        | None => None
        end
  end.

Fixpoint take_digits (s : jstring) : jstring * jstring :=
  match s with
  | c :: r =>
      if is_digit c then let (ds, rest) := take_digits r in (c :: ds, rest)
      else ([], s)
  | [] => ([], [])
  end.

Definition digits_value (ds : jstring) : Z :=
  fold_left (fun acc c => (10 * acc + Z.of_nat (nat_of_ascii c - 48))%Z) ds 0%Z.

(** An integer numeral; a fraction or an exponent is outside the number
    type of [value] and is refused. *)
Definition parse_number (s : jstring) : option (value * jstring) :=
  let (neg, body) :=
    match s with
    | c :: r => if Ascii.eqb c "-"%char then (true, r) else (false, s)
    | [] => (false, s)
    end in
  let (ds, rest) := take_digits body in
  let leading_zero :=
    match ds with
    | c :: _ :: _ => Ascii.eqb c "0"%char
    | _ => false
    end in
  let continues :=
    match rest with
    | c :: _ =>
        Ascii.eqb c "."%char || Ascii.eqb c "e"%char || Ascii.eqb c "E"%char
    | [] => false
    end in
  match ds with
  | [] => None
  | _ =>
      if leading_zero || continues then None
      else Some (VNum (if neg then - digits_value ds else digits_value ds)%Z, rest)
  end.

Definition expect (lit : jstring) (v : value) (s : jstring)
  : option (value * jstring) :=
  if startsWith lit s then Some (v, skipn (List.length lit) s) else None.

Fixpoint parse_value (fuel : nat) (s : jstring) {struct fuel}
  : option (value * jstring) :=
  match fuel with
  | 0 => None
  | S f =>
      match skip_ws s with
      | [] => None
      | c :: r =>
          if Ascii.eqb c lbrace then
            match skip_ws r with
            | c' :: r' =>
                if Ascii.eqb c' rbrace then Some (VObj [], r')
                else parse_members f r []
            | [] => None
            end
          else if Ascii.eqb c "["%char then
            match skip_ws r with
            | c' :: r' =>
                if Ascii.eqb c' "]"%char then Some (VArr [], r')
                else parse_elements f r []
            | [] => None
            end
          else if Ascii.eqb c dquote then
            match parse_string_body r with
            | Some (body, rest) => Some (VStr body, rest)
            | None => None
            end
          else if Ascii.eqb c "n"%char then expect (str "null") VNull (c :: r)
          else if Ascii.eqb c "t"%char then expect (str "true") (VBool true) (c :: r)
          else if Ascii.eqb c "f"%char then expect (str "false") (VBool false) (c :: r)
          else parse_number (c :: r)
      end
  end

with parse_elements (fuel : nat) (s : jstring) (acc : list value) {struct fuel}
  : option (value * jstring) :=
  match fuel with
  | 0 => None
  | S f =>
      match parse_value f s with
      | Some (v, r) =>
          match skip_ws r with
          | c :: r' =>
              if Ascii.eqb c ","%char then parse_elements f r' (acc ++ [v])
              else if Ascii.eqb c "]"%char then Some (VArr (acc ++ [v]), r')
              else None
          | [] => None
          end
      | None => None
      end
  end

with parse_members (fuel : nat) (s : jstring) (acc : list (jstring * value))
       {struct fuel} : option (value * jstring) :=
  match fuel with
  | 0 => None
  | S f =>
      match skip_ws s with
      | q :: r =>
          if Ascii.eqb q dquote then
            match parse_string_body r with
            | Some (k, r1) =>
                match skip_ws r1 with
                | colon :: r2 =>
                    if Ascii.eqb colon ":"%char then
                      match parse_value f r2 with
                      | Some (v, r3) =>
                          match skip_ws r3 with
                          | c :: r4 =>
                              if Ascii.eqb c ","%char
                              then parse_members f r4 (Value.set k v acc)
                              else if Ascii.eqb c rbrace
                              then Some (VObj (Value.set k v acc), r4)
                              else None
                          | [] => None
                          end
                      | None => None
                      end
                    else None
                | [] => None
                end
            | None => None
            end
          else None
      | [] => None
      end
  end.

(** [JSON.parse(s)]; [None] is a thrown [SyntaxError]. *)
Definition parse (s : jstring) : option value :=
  match parse_value (2 + List.length s) s with
  | Some (v, rest) =>
      match skip_ws rest with
      | [] => Some v
      | _ => None
      end
  | None => None
  end.

End JSON.

(* ===================================================================== *)
(** ** The resilient JSON extractor (services/gemini.ts) *)
(* ===================================================================== *)

Section SafeParse.

(** The platform's [JSON.parse]; [None] is a thrown exception. *)
Variable JSON_parse : jstring -> option value.

Definition fence : jstring := [backtick; backtick; backtick].

(** Step 2: [str.trim()], and when that starts with a fence,
    [.replace(/^```(?:json)?/, '').replace(/```$/, '').trim()]. *)
Definition cleanup (s : jstring) : jstring :=
  let cleaned := trim s in
  if startsWith fence cleaned
  then trim (dropSuffix fence (dropPrefix (str "json") (dropPrefix fence cleaned)))
  else cleaned.

(** The [for] loop of step 3 over the characters from index [i] on.
    It answers the index of the closing brace at which [balance] came
    back to zero, where the loop is left in either case; [None] when
    the loop runs to the end of the text. *)
Fixpoint balance_walk (chars : jstring) (i : nat) (balance : Z)
         (inString escaped : bool) : option nat :=
  match chars with
  | [] => None
  | char :: rest =>
      if escaped then balance_walk rest (S i) balance inString false
      else if Ascii.eqb char backslash
      then balance_walk rest (S i) balance inString true
      else if Ascii.eqb char dquote
      then balance_walk rest (S i) balance (negb inString) false
      else if negb inString then
        if Ascii.eqb char lbrace
        then balance_walk rest (S i) (balance + 1) inString false
        else if Ascii.eqb char rbrace then
          if (balance - 1 =? 0)%Z then Some i
          else balance_walk rest (S i) (balance - 1) inString false
        else balance_walk rest (S i) balance inString false
      else balance_walk rest (S i) balance inString false
  end.

(** The candidate of step 3, when the walk finds one. *)
Definition balanced_candidate (cleaned : jstring) : option jstring :=
  match indexOf lbrace cleaned with
  | Some firstBrace =>
      match balance_walk (skipn firstBrace cleaned) firstBrace 0 false false with
      | Some i => Some (substring firstBrace (i + 1) cleaned)
      | None => None
      end
  | None => None
  end.

(** The candidate of step 4: first [{] to last [}]. *)
Definition fallback_candidate (cleaned : jstring) : option jstring :=
  match indexOf lbrace cleaned, lastIndexOf rbrace cleaned with
  | Some firstBrace, Some lastBrace =>
      if firstBrace <? lastBrace
      then Some (substring firstBrace (lastBrace + 1) cleaned)
      else None
  | _, _ => None
  end.

Definition try_parse (candidate : option jstring) : option value :=
  match candidate with
  | Some c => JSON_parse c
  | None => None
  end.

(** What is returned when every strategy has failed. *)
Definition parse_error (raw : jstring) : value :=
  VObj [(str "error", VStr (str "JSON Parse Error")); (str "raw", VStr raw)].

Definition safeParseJSON (raw : jstring) : value :=
  match JSON_parse raw with
  | Some v => v
  | None =>
      let cleaned := cleanup raw in
      match JSON_parse cleaned with
      | Some v => v
      | None =>
          match try_parse (balanced_candidate cleaned) with
          | Some v => v
          | None =>
              match try_parse (fallback_candidate cleaned) with
              | Some v => v
              | None => parse_error raw
              end
          end
      end
  end.

(** The texts handed to [JSON.parse], in the order tried. *)
Definition attempts (raw : jstring) : list jstring :=
  let cleaned := cleanup raw in
  raw :: cleaned ::
    match balanced_candidate cleaned with Some c => [c] | None => [] end
    ++ match fallback_candidate cleaned with Some c => [c] | None => [] end.

End SafeParse.


(* ===================================================================== *)
(** ** Conversation data (types.ts) *)
(* ===================================================================== *)

Inductive Role : Type := user | model.

Record FunctionCall : Type := mkFunctionCall {
  fc_name : jstring;
  fc_args : value;
  fc_id : option jstring
}.

Record FunctionResponse : Type := mkFunctionResponse {
  fr_name : jstring;
  fr_response : value;
  fr_id : option jstring
}.

(** One part of a message; the code only ever builds parts with a single
    field set. *)
Inductive MessagePart : Type :=
| PText (text : jstring)
| PInlineData (mimeType data : jstring)
| PFileData (fileUri mimeType : jstring)
| PFunctionCall (functionCall : FunctionCall)
| PFunctionResponse (functionResponse : FunctionResponse).

Record FormSubmission : Type := mkFormSubmission {
  submittedAt : Z;
  values : list (jstring * value)
}.

(** [thinkingDuration] is kept in milliseconds; the source divides the
    difference of two clock readings by 1000. *)
Record Message : Type := mkMessage {
  msg_id : jstring;
  role : Role;
  parts : list MessagePart;
  timestamp : Z;
  msg_model : option jstring;
  groundingUrls : option (list value);
  thinkingDuration : option Z;
  formSubmission : option FormSubmission
}.

Record Chat : Type := mkChat {
  chat_id : jstring;
  title : jstring;
  messages : list Message;
  updatedAt : Z;
  gemId : option jstring
}.

Record Todo : Type := mkTodo {
  todo_id : jstring;
  todo_text : value;
  completed : bool;
  createdAt : Z;
  parentId : value;
  timeSpent : option Z
}.

(** [p.text] of a part, [undefined] included. *)
Definition part_text (p : MessagePart) : option jstring :=
  match p with
  | PText t => Some t
  | _ => None
  end.

(* ===================================================================== *)
(** ** The form-payload effect (components/FormAgentCard) *)
(* ===================================================================== *)

Module FormAgentCard.

(** ToString, as a template literal and a property key apply it. *)
Fixpoint to_string (v : value) : jstring :=
  match v with
  | VUndefined => str "undefined"
  | VNull => str "null"
  | VBool true => str "true"
  | VBool false => str "false"
  | VNum n => JSON.number_to_string n
  | VStr s => s
  | VArr items =>
      join (str ",")
        (map (fun x => match x with
                       | VUndefined | VNull => []
                       | _ => to_string x
                       end) items)
  | VObj _ => str "[object Object]"
  end.

(** SameValueZero, the equality of [Set.prototype.has]: primitives by
    value, and the arrays and objects that [JSON.parse] builds are each
    their own identity. *)
Definition same_value_zero (a b : value) : bool :=
  match a, b with
  | VUndefined, VUndefined => true
  | VNull, VNull => true
  | VBool x, VBool y => Bool.eqb x y
  | VNum x, VNum y => (x =? y)%Z
  | VStr x, VStr y => JsString.eqb x y
  | _, _ => false
  end.

Definition set_has (seen : list value) (v : value) : bool :=
  existsb (same_value_zero v) seen.

(** First occurrence of [needle]: the text before it and the text after. *)
Fixpoint split_on (needle s : jstring) : option (jstring * jstring) :=
  if startsWith needle s then Some ([], skipn (List.length needle) s)
  else
    match s with
    | [] => None
    | c :: s' =>
        match split_on needle s' with
        | Some (before, after) => Some (c :: before, after)
        | None => None
        end
    end.

(** Group 1 of [text.match(/<form_payload>([\s\S]*?)<\/form_payload>/)]. *)
Definition payloadMatch (text : jstring) : option jstring :=
  match split_on (str "<form_payload>") text with
  | Some (_, after) =>
      match split_on (str "</form_payload>") after with
      | Some (inner, _) => Some inner
      | None => None
      end
  | None => None
  end.

Definition fence : jstring := [backtick; backtick; backtick].

(** The two fence-stripping lines. *)
Definition strip_fences (captured : jstring) : jstring :=
  let jsonStr := trim captured in
  let jsonStr :=
    if startsWith (fence ++ str "json") jsonStr
    then dropSuffix fence (dropPrefix (fence ++ str "json") jsonStr)
    else jsonStr in
  if startsWith fence jsonStr
  then dropSuffix fence (dropPrefix fence jsonStr)
  else jsonStr.

(** The own enumerable properties that [{...f}] copies. *)
Definition indexed (items : list value) : list (jstring * value) :=
  map (fun iv => (JSON.number_to_string (Z.of_nat (fst iv)), snd iv))
    (combine (seq 0 (List.length items)) items).

Definition spread (f : value) : list (jstring * value) :=
  match f with
  | VObj props => props
  | VArr items => indexed items
  | VStr s => indexed (map (fun c => VStr [c]) s)
  | _ => []
  end.

(** The callback of [.map((f, index) => ...)], with the set of seen keys
    threaded through: the new field and the set after [seenKeys.add].
    [None] is the [TypeError] of reading [f.key] off [null]. *)
Definition unique_field (seenKeys : list value) (f : value) (index : nat)
  : option (value * list value) :=
  match f with
  | VNull | VUndefined => None
  | _ =>
      let uniqueKey := Value.prop (str "key") f in
      let uniqueKey :=
        if negb (Value.truthy uniqueKey) || set_has seenKeys uniqueKey
        then VStr (to_string (Value.or_else uniqueKey (VStr (str "field")))
                     ++ str "_" ++ JSON.number_to_string (Z.of_nat index))
        else uniqueKey in
      Some (VObj (Value.set (str "key") uniqueKey (spread f)),
            seenKeys ++ [uniqueKey])
  end.

Fixpoint unique_fields (seenKeys : list value) (index : nat)
         (fields : list value) : option (list value) :=
  match fields with
  | [] => Some []
  | f :: rest =>
      match unique_field seenKeys f index with
      | Some (f', seenKeys') =>
          match unique_fields seenKeys' (S index) rest with
          | Some rest' => Some (f' :: rest')
          | None => None
          end
      | None => None
      end
  end.

(** [(parsed.fields || [])]; [None] when what follows throws: [parsed]
    is [null] or a primitive (no property can be read off it or stored
    on it), or [fields] is truthy and has no [map]. *)
Definition fields_of (parsed : value) : option (list value) :=
  match parsed with
  | VObj _ | VArr _ =>
      let fields := Value.prop (str "fields") parsed in
      if Value.truthy fields then
        match fields with
        | VArr items => Some items
        | _ => None
        end
      else Some []
  | _ => None
  end.

(** The value handed to [setPayload], with the list now stored under
    its [fields]. *)
Record Payload : Type := mkPayload {
  parsed : value;
  fields : list value
}.

Definition store_fields (parsed : value) (fields : list value) : value :=
  match parsed with
  | VObj props => VObj (Value.set (str "fields") (VArr fields) props)
  | other => other
  end.

(** The names every object inherits from [Object.prototype].  Read off
    an object that has no own property of that name they give a function
    (the prototype itself for [__proto__]), never [undefined]. *)
Definition inherited_keys : list jstring :=
  map str
    ["constructor"; "hasOwnProperty"; "isPrototypeOf"; "propertyIsEnumerable";
     "toLocaleString"; "toString"; "valueOf"; "__proto__";
     "__defineGetter__"; "__defineSetter__"; "__lookupGetter__";
     "__lookupSetter__"]%string.

(** [next[f.key] === undefined], for [next] a copy of the form state: an
    own property decides, and without one the inherited names are
    defined. *)
Definition is_undefined (k : jstring) (next : list (jstring * value)) : bool :=
  match Value.lookup k next with
  | Some VUndefined => true
  | Some _ => false
  | None => negb (existsb (JsString.eqb k) inherited_keys)
  end.

(** The value the seeding stores for a field. *)
Definition default_for (f : value) : value :=
  let defaultValue := Value.prop (str "defaultValue") f in
  if Value.is_string (str "checkboxes") (Value.prop (str "type") f)
  then Value.or_else defaultValue (VArr [])
  else if Value.is_string (str "range_slider") (Value.prop (str "type") f)
  then Value.or_else (Value.or_else defaultValue (Value.prop (str "min") f))
         (VNum 0)
  else Value.or_else defaultValue (VStr []).

(** The body of [parsed.fields.forEach], on [next] and [updated]. *)
Definition seed_field (acc : list (jstring * value) * bool) (f : value)
  : list (jstring * value) * bool :=
  let (next, updated) := acc in
  let k := to_string (Value.prop (str "key") f) in
  if is_undefined k next
  then (Value.set k (default_for f) next, true)
  else (next, updated).

(** The updater handed to [setFormData]. *)
Definition seed (fields : list value) (prev : list (jstring * value))
  : list (jstring * value) :=
  let (next, updated) := fold_left seed_field fields (prev, false) in
  if updated then next else prev.

(** The component state the effect writes. *)
Record CardState : Type := mkCardState {
  payload : option Payload;
  formData : list (jstring * value)
}.

Section Effect.

Variable JSON_parse : jstring -> option value.

(** What the [try] block computes from the message text; [None] when
    it throws. *)
Definition parse_payload (captured : jstring) : option Payload :=
  match JSON_parse (strip_fences captured) with
  | Some parsed =>
      match fields_of parsed with
      | Some fields =>
          match unique_fields [] 0 fields with
          | Some fields' => Some (mkPayload (store_fields parsed fields') fields')
          | None => None
          end
      | None => None
      end
  | None => None
  end.

(** The [useEffect] on [message]. *)
Definition on_message (message : Message) (st : CardState) : CardState :=
  let text :=
    List.concat (map (fun p => match part_text p with
                               | Some t => t
                               | None => []
                               end) (parts message)) in
  match payloadMatch text with
  | Some captured =>
      match parse_payload captured with
      | Some p => mkCardState (Some p) (seed (fields p) (formData st))
      | None => st
      end
  | None => st
  end.

End Effect.

(** The keys of the fields of a payload, as [f.key] reads them. *)
Definition field_keys (fields : list value) : list value :=
  map (Value.prop (str "key")) fields.

End FormAgentCard.

(* ===================================================================== *)
(** ** Tool declarations (tools.ts) *)
(* ===================================================================== *)

Record FunctionDeclaration : Type := mkFunctionDeclaration {
  fd_name : jstring;
  fd_description : jstring;
  fd_parameters : value
}.

Definition schema_object (properties : list (jstring * value))
           (required : list jstring) : value :=
  VObj ([(str "type", VStr (str "OBJECT"));
         (str "properties", VObj properties)]
        ++ match required with
           | [] => []
           | _ => [(str "required", VArr (map VStr required))]
           end).

Definition schema_field (type description : string) : value :=
  VObj [(str "type", VStr (str type)); (str "description", VStr (str description))].

Definition TODO_TOOLS : list FunctionDeclaration :=
  [ mkFunctionDeclaration (str "create_todo")
      (str "Create a new task or subtask. STRICTLY ONLY use this function when the user EXPLICITLY asks to 'add', 'create', or 'remind' them of a specific task. DO NOT create tasks based on inference, context from previous conversations, or assumptions. If the user asks to 'query', 'check', or 'list' tasks, use get_todos instead.")
      (schema_object
         [(str "text", schema_field "STRING" "The content/title of the task.");
          (str "parent_id",
            schema_field "STRING"
              "Optional. The ID of the parent task if this is a subtask.")]
         [str "text"]);
    mkFunctionDeclaration (str "update_todo")
      (str "Update an existing task's status or text.")
      (schema_object
         [(str "id", schema_field "STRING" "The ID of the task to update.");
          (str "completed",
            schema_field "BOOLEAN"
              "Set to true to mark as done, false for active.");
          (str "text", schema_field "STRING" "New text content for the task.")]
         [str "id"]);
    mkFunctionDeclaration (str "delete_todo")
      (str "Permanently remove a task.")
      (schema_object
         [(str "id", schema_field "STRING" "The ID of the task to delete.")]
         [str "id"]);
    mkFunctionDeclaration (str "get_todos")
      (str "Retrieve the current list of tasks to check their status or IDs.")
      (schema_object
         [(str "filter",
            VObj [(str "type", VStr (str "STRING"));
                  (str "enum", VArr [VStr (str "all"); VStr (str "active");
                                     VStr (str "completed")]);
                  (str "description",
                    VStr (str "Filter which tasks to retrieve."))])]
         []) ].

(* ===================================================================== *)
(** ** Requests, responses and the host environment *)
(* ===================================================================== *)

Inductive Location : Type := mkLocation (latitude longitude : value).

Record ChatConfig : Type := mkChatConfig {
  useSearch : bool;
  useMaps : bool;
  location : option Location;
  useThinking : bool;
  isTTS : bool;
  tools : option (list FunctionDeclaration)
}.

Record AttachmentData : Type := mkAttachmentData {
  att_mimeType : jstring;
  att_data : option jstring;
  att_fileUri : option jstring
}.

Inductive Provider : Type := gemini | openai.

Record OpenAISettings : Type := mkOpenAISettings {
  baseUrl : jstring;
  apiKey : jstring;
  openai_model : jstring
}.

Record ApiSettings : Type := mkApiSettings {
  provider : Provider;
  openai_settings : OpenAISettings
}.

(** One call of the upstream API: the arguments from which the request
    is encoded.  The encoding itself (the [contents] and [config] of the
    Gemini request, the [messages] and [tools] of the OpenAI body) is a
    pure function of these and is not spelled out. *)
Record Request : Type := mkRequest {
  req_provider : Provider;
  req_model : jstring;
  req_history : list Message;
  req_userInput : jstring;
  req_systemInstruction : option jstring;
  req_config : ChatConfig;
  req_attachments : list AttachmentData;
  req_settings : option ApiSettings
}.

(** What [ai.models.generateContent] resolves to:
    [candidates?.[0]?.content?.parts], the [text] getter and
    [candidates?.[0]?.groundingMetadata?.groundingChunks]. *)
Record GeminiResponse : Type := mkGeminiResponse {
  candidate_parts : option (list MessagePart);
  response_text : option jstring;
  grounding_chunks : option (list value)
}.

Record ToolCall : Type := mkToolCall {
  tc_id : option jstring;
  tc_function_name : jstring;
  tc_function_arguments : jstring
}.

Record CompletionMessage : Type := mkCompletionMessage {
  content : option jstring;
  tool_calls : option (list ToolCall)
}.

(** What the [fetch] of a chat completion comes to: the promise rejects,
    the status is not ok, the body is not JSON, or the body is JSON with
    [choices?.[0]?.message] as given. *)
Inductive Completion : Type :=
| FetchRejected (message : jstring)
| StatusNotOk (status : Z) (body : jstring)
| BodyNotJson (message : jstring)
| Body (message : option CompletionMessage).

(** The decoded response of [generateChatResponse]. *)
Record ChatResponse : Type := mkChatResponse {
  text : jstring;
  groundingChunks : list value;
  audioData : option jstring;
  functionCalls : option (list FunctionCall)
}.

(** A result or a thrown [Error] with its [message]. *)
Inductive Result (A : Type) : Type :=
| Ok (a : A)
| Throw (message : jstring).

Arguments Ok {A} a.
Arguments Throw {A} message.

(** The host: the platform's [JSON.parse], the clock, the random source,
    the two upstream APIs, the file upload, geolocation and the task
    store ([services/db]).  Every interaction is numbered, so an oracle
    may answer differently each time. *)
Record Host : Type := mkHost {
  DB : Type;
  JSON_parse : jstring -> option value;
  Date_now : nat -> Z;
  random_suffix : nat -> jstring;
  generateContent : nat -> Request -> Result GeminiResponse;
  fetchCompletion : nat -> Request -> Completion;
  uploadFile : nat -> jstring -> jstring -> Result (jstring * jstring);
  getCurrentPosition : nat -> option Location;
  db_addTodo : Todo -> DB -> Result DB;
  db_updateTodo : Todo -> DB -> Result DB;
  db_deleteTodo : value -> DB -> Result DB;
  db_getAllTodos : DB -> Result (list Todo)
}.

Record PendingAttachment : Type := mkPendingAttachment {
  file_name : jstring;
  base64 : jstring;
  pa_mimeType : jstring
}.

Record Gem : Type := mkGem {
  gem_id : jstring;
  instructions : jstring
}.

Record ActiveFeature : Type := mkActiveFeature {
  feature_id : jstring;
  feature_config : option ChatConfig
}.

(** A title generation that was started and not awaited. *)
Record TitleJob : Type := mkTitleJob {
  job_chat : jstring;
  job_model : jstring;
  job_user : jstring;
  job_reply : jstring
}.

Section Client.

Variable host : Host.

(** The state that outlives a handler: React state (the open-menu flags
    are left out), the task store, and what an observer of the run sees:
    the count of host interactions, the upstream requests issued, the
    title generations started, the audio played and the replies the tool
    loop received. *)
Record World : Type := mkWorld {
  chats : list Chat;
  todos : list Todo;
  currentChatId : option jstring;
  inputValue : jstring;
  attachments : list PendingAttachment;
  isTyping : bool;
  db : DB host;
  ticks : nat;
  requests : list Request;
  titleJobs : list TitleJob;
  audioPlayed : list jstring;
  replies : list ChatResponse
}.

(** A computation: it may change the world, and returns or throws. *)
Definition M (A : Type) : Type := World -> Result A * World.

Definition ret {A} (a : A) : M A := fun w => (Ok a, w).

Definition throw {A} (message : jstring) : M A := fun w => (Throw message, w).

Definition bind {A B} (m : M A) (k : A -> M B) : M B :=
  fun w =>
    match m w with
    | (Ok a, w') => k a w'
    | (Throw e, w') => (Throw e, w')
    end.

(** [try { m } catch (e) { handler(e.message) }]. *)
Definition try_catch {A} (m : M A) (handler : jstring -> M A) : M A :=
  fun w =>
    match m w with
    | (Ok a, w') => (Ok a, w')
    | (Throw e, w') => handler e w'
    end.

Definition modify (f : World -> World) : M unit := fun w => (Ok tt, f w).

Definition gets {A} (f : World -> A) : M A := fun w => (Ok (f w), w).

Definition tick (w : World) : World :=
  mkWorld (chats w) (todos w) (currentChatId w) (inputValue w)
    (attachments w) (isTyping w) (db w) (S (ticks w)) (requests w)
    (titleJobs w) (audioPlayed w) (replies w).

Definition setChats (f : list Chat -> list Chat) : M unit :=
  modify (fun w =>
    mkWorld (f (chats w)) (todos w) (currentChatId w) (inputValue w)
      (attachments w) (isTyping w) (db w) (ticks w) (requests w)
      (titleJobs w) (audioPlayed w) (replies w)).

Definition setTodos (f : list Todo -> list Todo) : M unit :=
  modify (fun w =>
    mkWorld (chats w) (f (todos w)) (currentChatId w) (inputValue w)
      (attachments w) (isTyping w) (db w) (ticks w) (requests w)
      (titleJobs w) (audioPlayed w) (replies w)).

Definition setCurrentChatId (id : option jstring) : M unit :=
  modify (fun w =>
    mkWorld (chats w) (todos w) id (inputValue w)
      (attachments w) (isTyping w) (db w) (ticks w) (requests w)
      (titleJobs w) (audioPlayed w) (replies w)).

Definition setInputValue (s : jstring) : M unit :=
  modify (fun w =>
    mkWorld (chats w) (todos w) (currentChatId w) s
      (attachments w) (isTyping w) (db w) (ticks w) (requests w)
      (titleJobs w) (audioPlayed w) (replies w)).

Definition setAttachments (l : list PendingAttachment) : M unit :=
  modify (fun w =>
    mkWorld (chats w) (todos w) (currentChatId w) (inputValue w)
      l (isTyping w) (db w) (ticks w) (requests w)
      (titleJobs w) (audioPlayed w) (replies w)).

Definition setIsTyping (b : bool) : M unit :=
  modify (fun w =>
    mkWorld (chats w) (todos w) (currentChatId w) (inputValue w)
      (attachments w) b (db w) (ticks w) (requests w)
      (titleJobs w) (audioPlayed w) (replies w)).

Definition set_db (d : DB host) (w : World) : World :=
  mkWorld (chats w) (todos w) (currentChatId w) (inputValue w)
    (attachments w) (isTyping w) d (ticks w) (requests w)
    (titleJobs w) (audioPlayed w) (replies w).

Definition log_request (r : Request) : M unit :=
  modify (fun w =>
    mkWorld (chats w) (todos w) (currentChatId w) (inputValue w)
      (attachments w) (isTyping w) (db w) (ticks w) (requests w ++ [r])
      (titleJobs w) (audioPlayed w) (replies w)).

Definition startTitleJob (j : TitleJob) : M unit :=
  modify (fun w =>
    mkWorld (chats w) (todos w) (currentChatId w) (inputValue w)
      (attachments w) (isTyping w) (db w) (ticks w) (requests w)
      (titleJobs w ++ [j]) (audioPlayed w) (replies w)).

Definition playAudio (data : jstring) : M unit :=
  modify (fun w =>
    mkWorld (chats w) (todos w) (currentChatId w) (inputValue w)
      (attachments w) (isTyping w) (db w) (ticks w) (requests w)
      (titleJobs w) (audioPlayed w ++ [data]) (replies w)).

Definition log_reply (r : ChatResponse) : M unit :=
  modify (fun w =>
    mkWorld (chats w) (todos w) (currentChatId w) (inputValue w)
      (attachments w) (isTyping w) (db w) (ticks w) (requests w)
      (titleJobs w) (audioPlayed w) (replies w ++ [r])).

(** One numbered interaction with the host. *)
Definition ask {A} (oracle : nat -> A) : M A :=
  fun w => (Ok (oracle (ticks w)), tick w).

Definition lift {A} (r : Result A) : M A := fun w => (r, w).

(** [Date.now()]. *)
Definition DateNow : M Z := ask (Date_now host).

(** A task-store operation: it settles with a new store or rejects. *)
Definition on_db (op : DB host -> Result (DB host)) : M unit :=
  fun w =>
    match op (db w) with
    | Ok d => (Ok tt, set_db d w)
    | Throw e => (Throw e, w)
    end.

End Client.

Arguments ret {host A} a.
Arguments throw {host A} message.
Arguments bind {host A B} m k.
Arguments try_catch {host A} m handler.
Arguments gets {host A} f.
Arguments ask {host A} oracle.
Arguments lift {host A} r.
Arguments modify {host} f.
Arguments setChats {host} f.
Arguments setTodos {host} f.
Arguments setCurrentChatId {host} id.
Arguments setInputValue {host} s.
Arguments setAttachments {host} l.
Arguments setIsTyping {host} b.
Arguments log_request {host} r.
Arguments log_reply {host} r.
Arguments startTitleJob {host} j.
Arguments playAudio {host} data.
Arguments DateNow {host}.
Arguments on_db {host} op.
Arguments tick {host} w.
Arguments set_db {host} d w.

Declare Scope client_scope.
Notation "x <- m ;; k" := (bind m (fun x => k))
  (at level 61, m at next level, right associativity) : client_scope.
Notation "m ;;; k" := (bind m (fun _ => k))
  (at level 61, right associativity) : client_scope.

(* ===================================================================== *)
(** ** The chat request (services/gemini.ts, [generateChatResponse]) *)
(* ===================================================================== *)

Section Service.

Variable host : Host.

Local Open Scope client_scope.

Definition fallback_model : jstring := str "gemini-2.5-flash-preview-09-2025".

Definition thought_signature_defect : jstring :=
  str "Function call is missing a thought signature".

Definition dependency_defect : jstring := str "beyond::dependency::3".

(** Lines 389-404: the decoded Gemini response. *)
Definition decode_gemini (response : GeminiResponse) : ChatResponse :=
  let audioData :=
    match candidate_parts response with
    | Some (PInlineData mimeType data :: _) =>
        if startsWith (str "audio") mimeType then Some data else None
    | _ => None
    end in
  let functionCalls :=
    option_map
      (flat_map (fun p => match p with PFunctionCall fc => [fc] | _ => [] end))
      (candidate_parts response) in
  mkChatResponse
    (match response_text response with
     | Some (c :: t) => c :: t
     | _ =>
         match audioData with
         | Some (_ :: _) => str "(Audio Response Generated)"
         | _ => []
         end
     end)
    (match grounding_chunks response with Some l => l | None => [] end)
    audioData
    (match functionCalls with
     | Some (fc :: fcs) => Some (fc :: fcs)
     | _ => None
     end).

(** Lines 406-412: [parsedMessage], which is the error's message unless
    that message is JSON with a truthy [error.message]. *)
Definition parsedMessage (message : jstring) : value :=
  if startsWith (str "{") message then
    match JSON_parse host message with
    | Some VNull | Some VUndefined | None => VStr message
    | Some jsonError =>
        if Value.truthy (Value.prop (str "error") jsonError)
        then Value.or_else
               (Value.prop (str "message") (Value.prop (str "error") jsonError))
               (VStr message)
        else VStr message
    end
  else VStr message.

(** [parsedMessage.includes(needle)]: a substring test on a string, a
    membership test on an array, a [TypeError] on anything else. *)
Definition message_includes (needle : jstring) (pm : value) : Result bool :=
  match pm with
  | VStr s => Ok (includes needle s)
  | VArr items => Ok (existsb (Value.is_string needle) items)
  | _ => Throw (str "parsedMessage.includes is not a function")
  end.

(** The condition of the fallback, lines 417-420, in evaluation order. *)
Definition is_known_defect (pm : value) (modelName : jstring) : Result bool :=
  match message_includes thought_signature_defect pm with
  | Throw e => Throw e
  | Ok true => Ok (negb (JsString.eqb modelName fallback_model))
  | Ok false =>
      match message_includes dependency_defect pm with
      | Throw e => Throw e
      | Ok found => Ok (found && negb (JsString.eqb modelName fallback_model))
      end
  end.

(** Lines 433-434. *)
Definition rethrow_normalized (pm : value) : M host ChatResponse :=
  match message_includes (str "Region not supported") pm with
  | Throw e => throw e
  | Ok true => throw (str "Region not supported. Try VPN.")
  | Ok false => throw (FormAgentCard.to_string pm)
  end.

Definition completion_call (tc : ToolCall) : FunctionCall :=
  mkFunctionCall (tc_function_name tc)
    (safeParseJSON (JSON_parse host) (tc_function_arguments tc))
    (tc_id tc).

Definition or_empty (s : option jstring) : jstring :=
  match s with Some t => t | None => [] end.

(** Lines 292-321: what is made of the outcome of the [fetch]. *)
Definition decode_completion (c : Completion) : Result ChatResponse :=
  match c with
  | FetchRejected message => Throw message
  | StatusNotOk status body =>
      Throw (str "OpenAI API Error (" ++ JSON.number_to_string status
               ++ str "): " ++ body)
  | BodyNotJson message => Throw message
  | Body None =>
      Throw (str "Cannot read properties of undefined (reading 'tool_calls')")
  | Body (Some message) =>
      match tool_calls message with
      | Some (tc :: tcs) =>
          Ok (mkChatResponse (or_empty (content message)) [] None
                (Some (map completion_call (tc :: tcs))))
      | _ => Ok (mkChatResponse (or_empty (content message)) [] None None)
      end
  end.

(** Lines 179-326: the OpenAI-compatible provider. *)
Definition openai_request (settings : ApiSettings) (modelName : jstring)
           (history : list Message) (userInput : jstring)
           (systemInstruction : option jstring) (configOptions : ChatConfig)
           (attachments : list AttachmentData) : M host ChatResponse :=
  let config := openai_settings settings in
  match baseUrl config, apiKey config, openai_model config with
  | _ :: _, _ :: _, _ :: _ =>
      let request :=
        mkRequest openai
          (match modelName with [] => openai_model config | _ => modelName end)
          history userInput systemInstruction configOptions attachments
          (Some settings) in
      try_catch
        (log_request request ;;;
         c <- ask (fun n => fetchCompletion host n request) ;;
         lift (decode_completion c))
        (fun message =>
           throw (match message with
                  | [] => str "Failed to fetch from OpenAI compatible API"
                  | _ => message
                  end))
  | _, _, _ => throw (str "Missing OpenAI Configuration. Please check settings.")
  end.

(** Lines 328-436: the Gemini provider.  Building the client and
    encoding [contents] and [config] are taken to succeed; what can fail
    is the request.  [retries] bounds the recursion of the fallback; the
    recursive call names the fallback model, which the guard excludes
    from a further fallback. *)
Fixpoint gemini_request (retries : nat) (modelName : jstring)
         (history : list Message) (userInput : jstring)
         (systemInstruction : option jstring) (configOptions : ChatConfig)
         (attachments : list AttachmentData) (apiSettings : option ApiSettings)
  : M host ChatResponse :=
  let request :=
    mkRequest gemini modelName history userInput systemInstruction
      configOptions attachments apiSettings in
  try_catch
    (log_request request ;;;
     r <- ask (fun n => generateContent host n request) ;;
     response <- lift r ;;
     ret (decode_gemini response))
    (fun message =>
       let pm := parsedMessage message in
       match is_known_defect pm modelName with
       | Throw e => throw e
       | Ok true =>
           match retries with
           | S retries' =>
               gemini_request retries' fallback_model history userInput
                 systemInstruction configOptions attachments apiSettings
           | 0 => rethrow_normalized pm
           end
       | Ok false => rethrow_normalized pm
       end).

Definition generateChatResponse (modelName : jstring)
           (history : list Message) (userInput : jstring)
           (systemInstruction : option jstring) (configOptions : ChatConfig)
           (attachments : list AttachmentData) (apiSettings : option ApiSettings)
  : M host ChatResponse :=
  match apiSettings with
  | Some (mkApiSettings openai _ as settings) =>
      openai_request settings modelName history userInput systemInstruction
        configOptions attachments
  | _ =>
      gemini_request 1 modelName history userInput systemInstruction
        configOptions attachments apiSettings
  end.

End Service.

(* ===================================================================== *)
(** ** The application handlers (App.tsx) *)
(* ===================================================================== *)

(** What a handler closes over: the values of the render in which it was
    created.  [formAgentPrompt] is the text of [getFormAgentSystemPrompt]
    for the form tools of that render, and [referencedTaskContext] the
    [SYSTEM CONTEXT] line that lines 365-374 make of a prompt (empty when
    the prompt names no known task). *)
Record Closure : Type := mkClosure {
  cl_currentChatId : option jstring;
  cl_chats : list Chat;
  cl_todos : list Todo;
  cl_attachments : list PendingAttachment;
  activeGem : option Gem;
  isFormAgentMode : bool;
  isTodoAiEnabled : bool;
  activeFeature : option ActiveFeature;
  selectedModel : jstring;
  apiSettings : ApiSettings;
  formAgentPrompt : jstring;
  referencedTaskContext : jstring -> jstring
}.

Definition MAX_LOOPS : nat := 5.

(** The local variables of the tool loop. *)
Record LoopState : Type := mkLoopState {
  finished : bool;
  loopCount : nat;
  currentHistory : list Message
}.

Section App.

Variable host : Host.
Variable cl : Closure.

Local Open Scope client_scope.

Definition number_text (n : Z) : jstring := JSON.number_to_string n.

(** [o.k] where [o] may be [null] or [undefined]. *)
Definition read (o : value) (k : jstring) : M host value :=
  match o with
  | VUndefined =>
      throw (str "Cannot read properties of undefined (reading '" ++ k ++ str "')")
  | VNull =>
      throw (str "Cannot read properties of null (reading '" ++ k ++ str "')")
  | _ => ret (Value.prop k o)
  end.

(** *** The todo handlers, lines 187-212 *)

Definition handleAddTodo (text parentId : value) : M host jstring :=
  now1 <- DateNow ;;
  suffix <- ask (random_suffix host) ;;
  now2 <- DateNow ;;
  let newTodo :=
    mkTodo (number_text now1 ++ suffix) text false now2 parentId (Some 0%Z) in
  setTodos (fun prev => prev ++ [newTodo]) ;;;
  on_db (db_addTodo host newTodo) ;;;
  ret (todo_id newTodo).

Definition toggled (todo : Todo) : Todo :=
  mkTodo (todo_id todo) (todo_text todo) (negb (completed todo))
    (createdAt todo) (parentId todo) (timeSpent todo).

Definition handleToggleTodo (id : value) : M host unit :=
  match find (fun t => Value.is_string (todo_id t) id) (cl_todos cl) with
  | Some todo =>
      let updatedTodo := toggled todo in
      setTodos
        (map (fun t => if Value.is_string (todo_id t) id then updatedTodo else t)) ;;;
      on_db (db_updateTodo host updatedTodo)
  | None => ret tt
  end.

Definition handleDeleteTodo (id : value) : M host unit :=
  setTodos (filter (fun t => negb (Value.is_string (todo_id t) id))) ;;;
  on_db (db_deleteTodo host id).

(** *** The tool loop, lines 400-466 *)

Definition success : value := VObj [(str "status", VStr (str "success"))].

Definition todo_summary (t : Todo) : value :=
  VObj [(str "id", VStr (todo_id t)); (str "text", todo_text t);
        (str "completed", VBool (completed t))].

(** The body of the [try] of lines 431-436 for one call. *)
Definition run_tool (call : FunctionCall) : M host value :=
  if JsString.eqb (fc_name call) (str "create_todo") then
    text <- read (fc_args call) (str "text") ;;
    parent_id <- read (fc_args call) (str "parent_id") ;;
    id <- handleAddTodo text parent_id ;;
    ret (VObj [(str "id", VStr id); (str "status", VStr (str "success"))])
  else if JsString.eqb (fc_name call) (str "update_todo") then
    id <- read (fc_args call) (str "id") ;;
    handleToggleTodo id ;;;
    ret success
  else if JsString.eqb (fc_name call) (str "delete_todo") then
    id <- read (fc_args call) (str "id") ;;
    handleDeleteTodo id ;;;
    ret success
  else if JsString.eqb (fc_name call) (str "get_todos") then
    all <- (fun w => (db_getAllTodos host (db w), w)) ;;
    ret (VObj [(str "count", VNum (Z.of_nat (List.length all)));
               (str "todos", VArr (map todo_summary all))])
  else ret (VObj [(str "error", VStr (str "Unknown function"))]).

(** One round of the [for] loop of lines 429-438: the part pushed onto
    [functionResponses]. *)
Definition dispatch (call : FunctionCall) : M host MessagePart :=
  result <- try_catch (run_tool call)
              (fun message => ret (VObj [(str "error", VStr message)])) ;;
  ret (PFunctionResponse (mkFunctionResponse (fc_name call) result (fc_id call))).

Fixpoint dispatch_all (calls : list FunctionCall) : M host (list MessagePart) :=
  match calls with
  | [] => ret []
  | call :: rest =>
      part <- dispatch call ;;
      parts <- dispatch_all rest ;;
      ret (part :: parts)
  end.

Definition append_message (targetChatId : jstring) (m : Message) : M host unit :=
  setChats
    (map (fun c =>
            if JsString.eqb (chat_id c) targetChatId
            then mkChat (chat_id c) (title c) (messages c ++ [m])
                   (updatedAt c) (gemId c)
            else c)).

Definition feature_is (name : string) : bool :=
  match activeFeature cl with
  | Some f => JsString.eqb (feature_id f) (str name)
  | None => false
  end.

(** Lines 407-417. *)
Definition build_config : M host ChatConfig :=
  let inherited :=
    match activeFeature cl with
    | Some f =>
        match feature_config f with
        | Some c => location c
        | None => None
        end
    | None => None
    end in
  let config (l : option Location) :=
    mkChatConfig (feature_is "search") (feature_is "maps") l
      (feature_is "thinking") (feature_is "speech")
      (if isTodoAiEnabled cl then Some TODO_TOOLS else None) in
  match feature_is "maps", inherited with
  | true, None =>
      position <- ask (getCurrentPosition host) ;;
      ret (config position)
  | _, _ => ret (config inherited)
  end.

Definition reply_model : jstring :=
  match provider (apiSettings cl) with
  | openai => openai_model (openai_settings (apiSettings cl))
  | gemini => selectedModel cl
  end.

(** [chunk.web?.uri]. *)
Definition chunk_uri (chunk : value) : M host value :=
  web <- read chunk (str "web") ;;
  match web with
  | VUndefined | VNull => ret VUndefined
  | _ => ret (Value.prop (str "uri") web)
  end.

Fixpoint chunk_uris (chunks : list value) : M host (list value) :=
  match chunks with
  | [] => ret []
  | chunk :: rest =>
      uri <- chunk_uri chunk ;;
      uris <- chunk_uris rest ;;
      ret (uri :: uris)
  end.

(** Lines 451-464: the title generation is started and not awaited. *)
Definition auto_title (targetChatId : jstring) (history : list Message)
           (reply : jstring) : M host unit :=
  let chatTitle :=
    option_map title
      (find (fun c => JsString.eqb (chat_id c) targetChatId) (cl_chats cl)) in
  let untitled :=
    match chatTitle with
    | Some t => JsString.eqb t (str "New Chat") || JsString.eqb t []
    | None => true
    end in
  match targetChatId with
  | _ :: _ =>
      if (List.length history <=? 4) && untitled then
        match find (fun m => match role m with user => true | model => false end)
                history with
        | Some m =>
            match parts m with
            | [] =>
                throw (str "Cannot read properties of undefined (reading 'text')")
            | p :: _ =>
                match part_text p, reply with
                | Some (c :: t), _ :: _ =>
                    startTitleJob
                      (mkTitleJob targetChatId (selectedModel cl) (c :: t) reply)
                | _, _ => ret tt
                end
            end
        | None => ret tt
        end
      else ret tt
  | [] => ret tt
  end.

(** Lines 421-441: the response asks for tool calls. *)
Definition tool_round (targetChatId : jstring) (response : ChatResponse)
           (calls : list FunctionCall) (history : list Message)
  : M host (list Message) :=
  now1 <- DateNow ;;
  now2 <- DateNow ;;
  let call_parts := map PFunctionCall calls in
  let aiCallMessage :=
    mkMessage (number_text (now1 + 1)) model
      (match text response with
       | [] => call_parts
       | _ => PText (text response) :: call_parts
       end)
      now2 (Some reply_model) None None None in
  append_message targetChatId aiCallMessage ;;;
  functionResponses <- dispatch_all calls ;;
  now3 <- DateNow ;;
  now4 <- DateNow ;;
  let toolResponseMessage :=
    mkMessage (number_text (now3 + 2)) user functionResponses now4
      None None None None in
  append_message targetChatId toolResponseMessage ;;;
  ret (history ++ [aiCallMessage; toolResponseMessage]).

(** Lines 442-465: the response is the end of the turn. *)
Definition final_round (startTime : Z) (targetChatId : jstring)
           (response : ChatResponse) (history : list Message)
  : M host (list Message) :=
  now1 <- DateNow ;;
  now2 <- DateNow ;;
  now3 <- DateNow ;;
  uris <- chunk_uris (groundingChunks response) ;;
  let aiMessage :=
    mkMessage (number_text (now2 + 1)) model [PText (text response)] now3
      (Some reply_model) (Some (filter Value.truthy uris))
      (Some (now1 - startTime)%Z) None in
  append_message targetChatId aiMessage ;;;
  let history' := history ++ [aiMessage] in
  match audioData response with
  | Some (c :: t) => playAudio (c :: t)
  | _ => ret tt
  end ;;;
  auto_title targetChatId history' (text response) ;;;
  ret history'.

(** The body of the [while] loop. *)
Definition loop_body (startTime : Z) (targetChatId : jstring)
           (finalSystemInstruction : jstring) (st : LoopState)
  : M host LoopState :=
  let loopCount' := S (loopCount st) in
  config <- build_config ;;
  response <- generateChatResponse (selectedModel cl) (currentHistory st)
                [] (Some finalSystemInstruction) config []
                (Some (apiSettings cl)) ;;
  log_reply response ;;;
  match functionCalls response with
  | Some (call :: calls) =>
      history <- tool_round targetChatId response (call :: calls)
                   (currentHistory st) ;;
      ret (mkLoopState (finished st) loopCount' history)
  | _ =>
      history <- final_round startTime targetChatId response
                   (currentHistory st) ;;
      ret (mkLoopState true loopCount' history)
  end.

(** [while (!finished && loopCount < MAX_LOOPS)], by recursion on the
    rounds that remain, [MAX_LOOPS - loopCount]. *)
Fixpoint tool_loop (remaining : nat) (startTime : Z) (targetChatId : jstring)
         (finalSystemInstruction : jstring) (st : LoopState)
  : M host LoopState :=
  match remaining with
  | 0 => ret st
  | S remaining' =>
      if finished st then ret st
      else
        st' <- loop_body startTime targetChatId finalSystemInstruction st ;;
        tool_loop remaining' startTime targetChatId finalSystemInstruction st'
  end.

(** *** [handleSendMessageInternal], lines 344-472 *)

Definition default_instruction : jstring :=
  str "You are Gemini, a large language model trained by Google. You are helpful, harmless, and honest.".

Definition tool_policy : jstring :=
  [newline; newline]
    ++ str "IMPORTANT: When using tools, be conservative. Only create tasks if the user explicitly requests it (e.g. 'create task', 'add to list'). If the user asks to 'see', 'list', 'query', or 'check' tasks, use get_todos and display the results textually. Do not invent new tasks or subtasks unless asked.".

(** Lines 361-377. *)
Definition finalSystemInstruction (userPrompt : jstring) : jstring :=
  (match activeGem cl with
   | Some g =>
       match instructions g with [] => default_instruction | i => i end
   | None => default_instruction
   end)
  ++ (if isFormAgentMode cl then [newline; newline] ++ formAgentPrompt cl else [])
  ++ (if isTodoAiEnabled cl
      then referencedTaskContext cl userPrompt ++ tool_policy
      else []).

(** Lines 382-393: the parts of the user message for the attachments. *)
Fixpoint attachment_parts (atts : list PendingAttachment)
  : M host (list MessagePart) :=
  match atts with
  | [] => ret []
  | att :: rest =>
      part <-
        (if startsWith (str "image/") (pa_mimeType att)
         then ret (PInlineData (pa_mimeType att) (base64 att))
         else
           try_catch
             (r <- ask (fun n => uploadFile host n (file_name att)
                                   (pa_mimeType att)) ;;
              uploaded <- lift r ;;
              ret (PFileData (fst uploaded) (snd uploaded)))
             (fun _ =>
                ret (PText (str "[Attachment: " ++ file_name att
                              ++ str " (Upload Failed)]")))) ;;
      parts <- attachment_parts rest ;;
      ret (part :: parts)
  end.

(** Lines 346-354. *)
Definition target_chat : M host jstring :=
  match cl_currentChatId cl with
  | Some (c :: t) => ret (c :: t)
  | _ =>
      now1 <- DateNow ;;
      now2 <- DateNow ;;
      let newId := number_text now1 in
      setChats
        (fun prev =>
           mkChat newId (str "New Chat") [] now2 (option_map gem_id (activeGem cl))
             :: prev) ;;;
      setCurrentChatId (Some newId) ;;;
      ret newId
  end.

(** Lines 394-398: the user message, stored and put on the transcript. *)
Definition send_user_message (targetChatId userPrompt : jstring)
  : M host (list Message) :=
  attached <- attachment_parts (cl_attachments cl) ;;
  let messageParts :=
    match trim userPrompt with
    | [] => attached
    | _ => attached ++ [PText userPrompt]
    end in
  now1 <- DateNow ;;
  now2 <- DateNow ;;
  let userMessage :=
    mkMessage (number_text now1) user messageParts now2 None None None None in
  now3 <- DateNow ;;
  setChats
    (map (fun c =>
            if JsString.eqb (chat_id c) targetChatId
            then mkChat (chat_id c) (title c) (messages c ++ [userMessage])
                   now3 (gemId c)
            else c)) ;;;
  let stored :=
    match find (fun c => JsString.eqb (chat_id c) targetChatId) (cl_chats cl) with
    | Some c => messages c
    | None => []
    end in
  ret (stored ++ [userMessage]).

(** The [catch] of line 467. *)
Definition report_error (targetChatId message : jstring) : M host unit :=
  now1 <- DateNow ;;
  now2 <- DateNow ;;
  append_message targetChatId
    (mkMessage (number_text (now1 + 1)) model [PText (str "Error: " ++ message)]
       now2 None None None None).

Definition handleSendMessageInternal (promptText : jstring)
           (isHiddenSubmission : bool) : M host unit :=
  startTime <- DateNow ;;
  targetChatId <- target_chat ;;
  (if isHiddenSubmission then ret tt
   else setInputValue [] ;;; setAttachments []) ;;;
  setIsTyping true ;;;
  try_catch
    (history <- send_user_message targetChatId promptText ;;
     tool_loop MAX_LOOPS startTime targetChatId
       (finalSystemInstruction promptText) (mkLoopState false 0 history) ;;;
     ret tt)
    (report_error targetChatId) ;;;
  setIsTyping false.

(** *** [handleFormSubmit], lines 328-340 *)

Definition first_truthy (data : list (jstring * value)) (keys : list string)
  : value :=
  fold_left
    (fun found k =>
       if Value.truthy found then found
       else match Value.lookup (str k) data with
            | Some v => v
            | None => VUndefined
            end)
    keys VUndefined.

(** [Object.values(data).find(v => typeof v === 'string' &&
    todos.some(t => t.id === v))]. *)
Definition potentialParentId (data : list (jstring * value)) : value :=
  match find (fun v => match v with
                       | VStr s =>
                           existsb (fun t => JsString.eqb (todo_id t) s)
                             (cl_todos cl)
                       | _ => false
                       end) (map snd data) with
  | Some v => v
  | None => VUndefined
  end.

Definition finalParentId (data : list (jstring * value)) : value :=
  Value.or_else
    (first_truthy data ["target_parent_id"; "parent_id"; "parent_task_id"]%string)
    (potentialParentId data).

Definition subtasks (data : list (jstring * value)) : value :=
  first_truthy data ["new_subtasks"; "subtasks"; "subtasks_list"]%string.

(** The condition of line 332, with the flag of line 330. *)
Definition subtask_match (data : list (jstring * value)) : bool :=
  isTodoAiEnabled cl && Value.truthy (finalParentId data)
  && Value.isArray (subtasks data).

Definition annotation_prefix : jstring :=
  str "[SYSTEM_ANNOTATION: Form Submission Data]".

Definition hiddenPrompt (data : list (jstring * value)) : jstring :=
  annotation_prefix ++ [newline] ++ JSON.stringify_pretty data.

Fixpoint add_subtasks (texts : list value) (parent : value) : M host unit :=
  match texts with
  | [] => ret tt
  | text :: rest => handleAddTodo text parent ;;; add_subtasks rest parent
  end.

Definition attach_submission (messageId : jstring)
           (data : list (jstring * value)) : M host unit :=
  now1 <- DateNow ;;
  setChats
    (map (fun c =>
            match cl_currentChatId cl with
            | Some id =>
                if JsString.eqb (chat_id c) id then
                  mkChat (chat_id c) (title c)
                    (map (fun m =>
                            if JsString.eqb (msg_id m) messageId then
                              mkMessage (msg_id m) (role m) (parts m)
                                (timestamp m) (msg_model m) (groundingUrls m)
                                (thinkingDuration m)
                                (Some (mkFormSubmission now1 data))
                            else m) (messages c))
                    (updatedAt c) (gemId c)
                else c
            | None => c
            end)).

Definition handleFormSubmit (messageId : jstring)
           (data : list (jstring * value)) : M host unit :=
  attach_submission messageId data ;;;
  if subtask_match data then
    match subtasks data with
    | VArr texts =>
        add_subtasks texts (finalParentId data) ;;;
        handleSendMessageInternal
          (str "[SYSTEM: Successfully created "
             ++ number_text (Z.of_nat (List.length texts))
             ++ str " subtasks for parent ID "
             ++ FormAgentCard.to_string (finalParentId data) ++ str "]")
          true
    | _ => ret tt
    end
  else handleSendMessageInternal (hiddenPrompt data) true.

End App.

(* ===================================================================== *)
(** ** Concrete hosts, on which runs are evaluated *)
(* ===================================================================== *)

Module Scenario.

(** A task store that is a list of tasks. *)
Definition store_update (t : Todo) (d : list Todo) : Result (list Todo) :=
  Ok (map (fun x => if JsString.eqb (todo_id x) (todo_id t) then t else x) d).

Definition store_delete (id : value) (d : list Todo) : Result (list Todo) :=
  Ok (filter (fun x => negb (Value.is_string (todo_id x) id)) d).

Definition store_add (t : Todo) (d : list Todo) : Result (list Todo) :=
  Ok (d ++ [t]).

(** A host with the given upstream behaviour and the given [addTodo];
    the clock counts milliseconds from a fixed instant. *)
Definition host_with
           (generate : nat -> Request -> Result GeminiResponse)
           (fetch : nat -> Request -> Completion)
           (add : Todo -> list Todo -> Result (list Todo)) : Host :=
  {| DB := list Todo;
     JSON_parse := JSON.parse;
     Date_now := fun n => (1700000000000 + Z.of_nat n)%Z;
     random_suffix := fun _ => str "k3x9q";
     generateContent := generate;
     fetchCompletion := fetch;
     uploadFile := fun _ _ _ => Throw (str "upload unavailable");
     getCurrentPosition := fun _ => None;
     db_addTodo := add;
     db_updateTodo := store_update;
     db_deleteTodo := store_delete;
     db_getAllTodos := fun d => Ok d |}.

Definition no_generate : nat -> Request -> Result GeminiResponse :=
  fun _ _ => Throw (str "not configured").

Definition no_fetch : nat -> Request -> Completion :=
  fun _ _ => FetchRejected (str "Failed to fetch").

Definition world_with (host : Host) (chats : list Chat) (todos : list Todo)
           (d : DB host) : World host :=
  mkWorld host chats todos None [] [] false d 0 [] [] [] [].

Definition gemini_settings : ApiSettings :=
  mkApiSettings gemini
    (mkOpenAISettings (str "http://127.0.0.1:8045/v1") (str "sk-test")
       (str "gpt-4o")).



(** A render with the todo integration on and nothing else selected. *)
Definition closure_with (chat : option jstring) (chats : list Chat)
           (todos : list Todo) (settings : ApiSettings) : Closure :=
  mkClosure chat chats todos [] None false true None
    (str "gemini-3-pro-preview") settings [] (fun _ => []).

Definition a_todo (id text : string) (done : bool) : Todo :=
  mkTodo (str id) (VStr (str text)) done 1699999990000 VUndefined (Some 0%Z).

Definition call_of (name : string) (args : list (jstring * value))
  : FunctionCall :=
  mkFunctionCall (str name) (VObj args) None.

(** A model that asks for [get_todos] whatever it is sent. *)
Definition always_asks : nat -> Request -> Result GeminiResponse :=
  fun _ _ =>
    Ok (mkGeminiResponse (Some [PFunctionCall (call_of "get_todos" [])])
          None None).




End Scenario.

(* ===================================================================== *)
(** ** Notions used in the statements *)
(* ===================================================================== *)

(** *** Induction on values *)

Section ValueInduction.

Variable P : value -> Prop.
Hypothesis P_undefined : P VUndefined.
Hypothesis P_null : P VNull.
Hypothesis P_bool : forall b, P (VBool b).
Hypothesis P_num : forall n, P (VNum n).
Hypothesis P_str : forall s, P (VStr s).
Hypothesis P_arr : forall items, Forall P items -> P (VArr items).
Hypothesis P_obj :
  forall props, Forall (fun kv => P (snd kv)) props -> P (VObj props).

Fixpoint value_nested_ind (v : value) : P v :=
  match v with
  | VUndefined => P_undefined
  | VNull => P_null
  | VBool b => P_bool b
  | VNum n => P_num n
  | VStr s => P_str s
  | VArr items =>
      P_arr ((fix all (l : list value) : Forall P l :=
                match l with
                | [] => Forall_nil P
                | x :: l' => Forall_cons x (value_nested_ind x) (all l')
                end) items)
  | VObj props =>
      P_obj ((fix all (l : list (jstring * value))
                : Forall (fun kv => P (snd kv)) l :=
                match l with
                | [] => Forall_nil _
                | kv :: l' =>
                    Forall_cons kv (value_nested_ind (snd kv)) (all l')
                end) props)
  end.

End ValueInduction.

(** *** The balance walk over serialized JSON *)

(** [passes T inString]: started at the first character of [T] with a
    positive balance, the loop of step 3 reaches the character after [T]
    with the same balance and the same string state, and has not left. *)
Definition passes (T : jstring) (inString : bool) : Prop :=
  forall rest i b, (0 < b)%Z ->
    balance_walk (T ++ rest) i b inString false
    = balance_walk rest (List.length T + i) b inString false.

(** A character that is no backslash, quote or brace. *)
Definition plain (c : ascii) : bool :=
  negb (Ascii.eqb c backslash) && negb (Ascii.eqb c dquote)
  && negb (Ascii.eqb c lbrace) && negb (Ascii.eqb c rbrace).

(** A character that is no backslash or quote. *)
Definition quiet (c : ascii) : bool :=
  negb (Ascii.eqb c backslash) && negb (Ascii.eqb c dquote).

(** [JSON.stringify] without indentation, unfolded one level. *)
Definition compact (opening closing : jstring) (partial : list jstring)
  : jstring :=
  match partial with
  | [] => opening ++ closing
  | _ => opening ++ join (str ",") partial ++ closing
  end.

Definition element indent (x : value) : jstring :=
  match JSON.serialize [] (indent ++ []) x with
  | Some s => s
  | None => str "null"
  end.

Definition member indent (kv : jstring * value) : list jstring :=
  match JSON.serialize [] (indent ++ []) (snd kv) with
  | Some s => [JSON.quote (fst kv) ++ str ":" ++ [] ++ s]
  | None => []
  end.

(** [framed B x]: the text [x] is some prose without an opening brace,
    then [{ B }], then anything. *)
Definition framed (B x : jstring) : Prop :=
  exists p q, x = p ++ lbrace :: B ++ rbrace :: q /\ ~ In lbrace p.

(** An operation that only eats characters off the front, and never a
    given character [c]. *)
Definition eats_front (op : jstring -> jstring) (c : ascii) : Prop :=
  forall p m, exists p',
    op (p ++ c :: m) = p' ++ c :: m /\ (forall x, In x p' -> In x p).

(** An operation that only eats characters off the back. *)
Definition eats_back (op : jstring -> jstring) (c : ascii) : Prop :=
  forall u q, exists q', op (u ++ c :: q) = u ++ c :: q'.

(** Raw braces of a text, counted without regard to quotes: the depth
    never drops below zero and ends at zero. *)
Fixpoint braces_balanced_from (depth : nat) (s : jstring) : bool :=
  match s with
  | [] => depth =? 0
  | c :: s' =>
      if Ascii.eqb c lbrace then braces_balanced_from (S depth) s'
      else if Ascii.eqb c rbrace then
        match depth with
        | 0 => false
        | S d => braces_balanced_from d s'
        end
      else braces_balanced_from depth s'
  end.

Definition braces_balanced (s : jstring) : bool := braces_balanced_from 0 s.

(** *** The form-payload effect *)

Definition text_message (t : jstring) : Message :=
  mkMessage (str "m1") model [PText t] 0 None None None None.

Definition empty_card : FormAgentCard.CardState :=
  FormAgentCard.mkCardState None [].

Definition parsed_keys (st : FormAgentCard.CardState) : option (list value) :=
  option_map (fun p => FormAgentCard.field_keys (FormAgentCard.fields p))
    (FormAgentCard.payload st).

Definition first_key (x : jstring) : jstring :=
  match x with [] => str "field_0" | _ => x end.

Definition second_key (x : jstring) : jstring :=
  match x with [] => str "field_1" | _ => x ++ str "_1" end.

Definition key_of (f : value) : jstring :=
  FormAgentCard.to_string (Value.prop (str "key") f).

Definition seed_next (fields : list value) (prev : list (jstring * value))
  : list (jstring * value) :=
  fst (fold_left FormAgentCard.seed_field fields (prev, false)).

(** *** Runs of a handler *)

Section Relations.

Variable host : Host.

(** [keeps R m]: whatever [m] does, and whether it returns or throws, the
    world it leaves is [R]-related to the one it found. *)
Definition keeps (R : World host -> World host -> Prop) {A} (m : M host A)
  : Prop :=
  forall w, R w (snd (m w)).

(** [total m]: [m] never throws. *)
Definition total {A} (m : M host A) : Prop :=
  forall w, exists a, fst (m w) = Ok a.

(** The conversation and everything observed of the run, as opposed to
    the task list, the task store and the clock. *)
Definition offstage (w w' : World host) : Prop :=
  chats w' = chats w /\ requests w' = requests w /\ replies w' = replies w
  /\ titleJobs w' = titleJobs w /\ isTyping w' = isTyping w
  /\ currentChatId w' = currentChatId w.

(** The task list, the task store and the conversation, as opposed to
    the clock and the request log. *)
Definition backstage (w w' : World host) : Prop :=
  chats w' = chats w /\ todos w' = todos w /\ db w' = db w
  /\ replies w' = replies w /\ titleJobs w' = titleJobs w.

(** The two logs of the run. *)
Definition same_logs (w w' : World host) : Prop :=
  requests w' = requests w /\ replies w' = replies w.

(** The requests made from one world to the next all satisfy [P]. *)
Definition carries (P : Request -> Prop) (w w' : World host) : Prop :=
  exists news, requests w' = requests w ++ news /\ Forall P news.

(** The world after a request was logged and answered. *)
Definition issued (request : Request) (w : World host) : World host :=
  tick (snd (log_request request w)).

(** [m] is a message of the chat [id]. *)
Definition in_chat (id : jstring) (m : Message) (w : World host) : Prop :=
  exists c, In c (chats w) /\ chat_id c = id /\ In m (messages c).

(** No chat loses a message. *)
Definition grows (w w' : World host) : Prop :=
  forall id m, in_chat id m w -> in_chat id m w'.

End Relations.

(** *** Tool calls and their answers *)

(** The part that answers a call: its name and id, and a result. *)
Definition answer (call : FunctionCall) (result : value) : MessagePart :=
  PFunctionResponse (mkFunctionResponse (fc_name call) result (fc_id call)).

Definition error_result (message : jstring) : value :=
  VObj [(str "error", VStr message)].

(** The answers to a batch: one per call, in the order of the calls. *)
Inductive answers : list FunctionCall -> list MessagePart -> Prop :=
| answers_nil : answers [] []
| answers_cons call result calls parts :
    answers calls parts -> answers (call :: calls) (answer call result :: parts).

Section Batch.

Variable host : Host.
Variable cl : Closure.

(** The batch as it runs: each call in turn, on the world the calls
    before it left, answered with the handler's result or with the
    message of what the handler threw. *)
Inductive dispatched
  : World host -> list FunctionCall -> list MessagePart -> World host -> Prop :=
| dispatched_nil w : dispatched w [] [] w
| dispatched_ok w call v w1 calls parts w' :
    run_tool cl call w = (Ok v, w1) ->
    dispatched w1 calls parts w' ->
    dispatched w (call :: calls) (answer call v :: parts) w'
| dispatched_error w call message w1 calls parts w' :
    run_tool cl call w = (Throw message, w1) ->
    dispatched w1 calls parts w' ->
    dispatched w (call :: calls)
      (answer call (error_result message) :: parts) w'.

End Batch.

(** The two messages a round of tool calls adds to a chat. *)
Definition with_round (targetChatId : jstring) (ai tool : Message) (c : Chat)
  : Chat :=
  if JsString.eqb (chat_id c) targetChatId
  then mkChat (chat_id c) (title c) (messages c ++ [ai; tool])
         (updatedAt c) (gemId c)
  else c.

Definition lead_text (response : ChatResponse) : list MessagePart :=
  match text response with
  | [] => []
  | t => [PText t]
  end.

(** The response asks for at least one tool call (line 421). *)
Definition has_calls (response : ChatResponse) : bool :=
  match functionCalls response with
  | Some (_ :: _) => true
  | _ => false
  end.

(** A model that asks for a tool call in every response, under the
    provider in use. *)
Definition always_calls (host : Host) (cl : Closure) : Prop :=
  match provider (apiSettings cl) with
  | gemini =>
      forall n request, exists response,
        generateContent host n request = Ok response
        /\ has_calls (decode_gemini response) = true
  | openai =>
      baseUrl (openai_settings (apiSettings cl)) <> []
      /\ apiKey (openai_settings (apiSettings cl)) <> []
      /\ openai_model (openai_settings (apiSettings cl)) <> []
      /\ forall n request, exists message tc tcs,
           fetchCompletion host n request = Body (Some message)
           /\ tool_calls message = Some (tc :: tcs)
  end.


(** *** The upstream request *)



(** *** JSON text read back *)

(** What [JSON.parse] makes of the text that [JSON.stringify] wrote for
    a value: a property whose value is [undefined] is gone, and an item
    of an array that is [undefined] is [null]. *)
Fixpoint reparsed (v : value) : value :=
  match v with
  | VArr items =>
      VArr (map (fun x => match reparsed x with
                          | VUndefined => VNull
                          | y => y
                          end) items)
  | VObj props =>
      VObj (flat_map (fun kv => match reparsed (snd kv) with
                                | VUndefined => []
                                | y => [(fst kv, y)]
                                end) props)
  | _ => v
  end.

Definition reparsed_props (props : list (jstring * value))
  : list (jstring * value) :=
  match reparsed (VObj props) with
  | VObj props' => props'
  | _ => []
  end.

Fixpoint distinct (keys : list jstring) : bool :=
  match keys with
  | [] => true
  | k :: rest => negb (existsb (JsString.eqb k) rest) && distinct rest
  end.

(** No object of [v] lists a property name twice; the own properties of
    a JavaScript object never do. *)
Fixpoint well_keyed (v : value) : bool :=
  match v with
  | VArr items => forallb well_keyed items
  | VObj props =>
      distinct (map fst props) && forallb (fun kv => well_keyed (snd kv)) props
  | _ => true
  end.

(** A value that JSON text carries as it is: it holds no [undefined]. *)
Fixpoint json_value (v : value) : bool :=
  match v with
  | VUndefined => false
  | VArr items => forallb json_value items
  | VObj props => forallb (fun kv => json_value (snd kv)) props
  | _ => true
  end.

(** White space of the JSON grammar only. *)
Definition blank (s : jstring) : bool := forallb JSON.is_ws s.

(** A text at whose start a numeral ends. *)
Definition stops (rest : jstring) : bool :=
  match rest with
  | [] => true
  | c :: _ =>
      negb (JSON.is_digit c || Ascii.eqb c "."%char || Ascii.eqb c "e"%char
            || Ascii.eqb c "E"%char)
  end.

(** A character with which the text of a value may start. *)
Definition opens (c : ascii) : bool :=
  negb (JSON.is_ws c) && negb (Ascii.eqb c "]"%char).

Definition weight (texts : list jstring) : nat :=
  fold_right (fun e n => S (List.length e + n)) 0 texts.

(** The white space that [JSON.stringify] puts in front of an item and
    in front of the closing bracket, and the layout of the whole. *)
Definition lead (gap indent : jstring) : jstring :=
  match gap with [] => [] | _ => newline :: indent ++ gap end.

Definition trail (gap indent : jstring) : jstring :=
  match gap with [] => [] | _ => newline :: indent end.

Definition after_colon (gap : jstring) : jstring :=
  match gap with [] => [] | _ => str " " end.

Definition layout (gap indent opening closing : jstring)
           (partial : list jstring) : jstring :=
  match partial with
  | [] => opening ++ closing
  | _ =>
      match gap with
      | [] => opening ++ join (str ",") partial ++ closing
      | _ =>
          opening ++ [newline] ++ (indent ++ gap)
            ++ join (str "," ++ [newline] ++ (indent ++ gap)) partial
            ++ [newline] ++ indent ++ closing
      end
  end.

Definition item_text (gap indent : jstring) (x : value) : jstring :=
  match JSON.serialize gap indent x with
  | Some s => s
  | None => str "null"
  end.

Definition member_text (gap : jstring) (k e : jstring) : jstring :=
  JSON.quote k ++ str ":" ++ after_colon gap ++ e.

Definition member_texts (gap indent : jstring) (kv : jstring * value)
  : list jstring :=
  match JSON.serialize gap indent (snd kv) with
  | Some s => [member_text gap (fst kv) s]
  | None => []
  end.

(** The digits of a decimal numeral. *)
Definition digits (d : Decimal.uint) : jstring :=
  str (NilEmpty.string_of_uint d).

(** One more digit read. *)
Definition digit_step (acc : Z) (c : ascii) : Z :=
  (10 * acc + Z.of_nat (nat_of_ascii c - 48))%Z.

(** [reads e v]: wherever the text [e] stands, after white space and
    before something that ends a numeral, [JSON.parse] reads [v] off it
    and stops behind it. *)
Definition reads (e : jstring) (v : value) : Prop :=
  forall fuel front rest,
    blank front = true -> List.length e < fuel -> stops rest = true ->
    JSON.parse_value fuel (front ++ e ++ rest) = Some (v, rest).

(** One property as it is written: its name, the text of its value, and
    the value read back. *)
Record Written : Type := mkWritten {
  w_key : jstring;
  w_text : jstring;
  w_value : value
}.

Definition written_text (gap : jstring) (m : Written) : jstring :=
  member_text gap (w_key m) (w_text m).

Definition written_prop (m : Written) : jstring * value :=
  (w_key m, w_value m).

(** An item of an array as it is written and read back. *)
Definition written_item (gap indent : jstring) (x : value) : jstring * value :=
  (item_text gap indent x,
   match reparsed x with VUndefined => VNull | y => y end).

(** The properties of an object that are written. *)
Definition written_members (gap indent : jstring) (kv : jstring * value)
  : list Written :=
  match JSON.serialize gap indent (snd kv) with
  | Some e => [mkWritten (fst kv) e (reparsed (snd kv))]
  | None => []
  end.

(* ===================================================================== *)
(** ** The handlers of the form card (FormAgentCard) *)
(* ===================================================================== *)

Module CardHandlers.

Import FormAgentCard.

(** [Array.isArray(prev[key]) ? prev[key] : []].  An inherited name
    reads as a function, which is no array. *)
Definition current_options (key : jstring) (prev : list (jstring * value))
  : list value :=
  match Value.lookup key prev with
  | Some (VArr items) => items
  | _ => []
  end.

(** The updater of [handleCheckboxChange]; [optionValue] is a string, so
    [includes] and [!==] compare strings. *)
Definition handleCheckboxChange (key optionValue : jstring)
           (prev : list (jstring * value)) : list (jstring * value) :=
  let current := current_options key prev in
  if existsb (Value.is_string optionValue) current
  then Value.set key
         (VArr (filter (fun v => negb (Value.is_string optionValue v)) current))
         prev
  else Value.set key (VArr (current ++ [VStr optionValue])) prev.

(** [o[k] = v] by assignment, as it shows in the own properties of [o]:
    the property is stored, except under the name [__proto__], where the
    inherited setter takes the value and no own property is made. *)
Definition assign (k : jstring) (v : value) (props : list (jstring * value))
  : list (jstring * value) :=
  if JsString.eqb k (str "__proto__") then props else Value.set k v props.

(** [!formData[k] || (Array.isArray(formData[k]) && formData[k].length
    === 0)]; the inherited names read as truthy. *)
Definition is_empty (k : jstring) (formData : list (jstring * value)) : bool :=
  match Value.lookup k formData with
  | Some v =>
      negb (Value.truthy v) || match v with VArr [] => true | _ => false end
  | None => negb (existsb (JsString.eqb k) inherited_keys)
  end.

(** The fields of [missing].  The fields of a payload are the objects
    that the effect built, so [f.required] and [f.key] are plain reads. *)
Definition missing (fields : list value) (formData : list (jstring * value))
  : list value :=
  filter (fun f =>
            Value.truthy (Value.prop (str "required") f)
            && is_empty (to_string (Value.prop (str "key") f)) formData)
    fields.

Record CustomField : Type := mkCustomField {
  cf_id : jstring;
  cf_key : jstring;
  cf_value : jstring
}.

(** [missing.map(f => f.label).join(', ')]. *)
Definition labels (fs : list value) : jstring :=
  join (str ", ")
    (map (fun f => match Value.prop (str "label") f with
                   | VUndefined | VNull => []
                   | l => to_string l
                   end) fs).

(** How [handleSubmit] ends: it returns at once, alerts, or calls
    [onSubmit]. *)
Inductive Outcome : Type :=
| Ignored
| Alerted (text : jstring)
| Submitted (messageId : jstring) (finalData : list (jstring * value)).

Definition finalData (formData : list (jstring * value))
           (submissionNote : jstring) (customFields : list CustomField)
  : list (jstring * value) :=
  let withNote :=
    match trim submissionNote with
    | [] => formData
    | note => assign (str "_user_note") (VStr note) formData
    end in
  fold_left
    (fun acc cf =>
       match trim (cf_key cf) with
       | [] => acc
       | _ => assign (cf_key cf) (VStr (cf_value cf)) acc
       end)
    customFields withNote.

Definition handleSubmit (payload : option Payload) (messageId : jstring)
           (formData : list (jstring * value)) (submissionNote : jstring)
           (customFields : list CustomField) : Outcome :=
  match payload with
  | None => Ignored
  | Some p =>
      match missing (fields p) formData, trim submissionNote with
      | (_ :: _) as missing, [] =>
          Alerted (str "Please fill required fields: " ++ labels missing
                     ++ str " or provide a supplementary note.")
      | _, _ => Submitted messageId (finalData formData submissionNote customFields)
      end
  end.

(** The updater of the prefill, on the own entries of [generatedData]
    in the order of [Object.keys]: a generated value is taken when a
    field of the payload has its key. *)
Definition prefill_merge (fields : list value)
           (generated : list (jstring * value))
           (prev : list (jstring * value)) : list (jstring * value) :=
  fold_left
    (fun newData kv =>
       if existsb (fun f => Value.is_string (fst kv) (Value.prop (str "key") f))
            fields
       then assign (fst kv) (snd kv) newData
       else newData)
    generated prev.

End CardHandlers.

(* ===================================================================== *)
(** ** Chats, gems, mentions and titles (App.tsx, services/gemini.ts) *)
(* ===================================================================== *)

(** The updater of [handleSaveGem], line 310: replace the gem of that
    id, or put the new gem in front. *)
Definition saveGem (gem : Gem) (prev : list Gem) : list Gem :=
  if existsb (fun g => JsString.eqb (gem_id g) (gem_id gem)) prev
  then map (fun g => if JsString.eqb (gem_id g) (gem_id gem) then gem else g)
         prev
  else gem :: prev.

(** *** Mentions, lines 243 and 365-368 *)

Definition at_sign : ascii := ascii_of_nat 64.
Definition lparen : ascii := ascii_of_nat 40.
Definition rparen : ascii := ascii_of_nat 41.

(** [handleMentionSelect]: the new value of the input.
    [inputValue.slice(0, lastAt)] drops the last character when there is
    no [@]. *)
Definition handleMentionSelect (inputValue : jstring) (todo : Todo) : jstring :=
  let prefix :=
    match lastIndexOf at_sign inputValue with
    | Some lastAt => firstn lastAt inputValue
    | None => removelast inputValue
    end in
  let insert :=
    js "task '" ++ FormAgentCard.to_string (todo_text todo) ++ js "' (ID: "
      ++ todo_id todo ++ str ")" in
  prefix ++ insert ++ str " ".

(** [[a-zA-Z0-9]]. *)
Definition is_alnum (c : ascii) : bool :=
  let n := nat_of_ascii c in
  ((48 <=? n) && (n <=? 57)) || ((65 <=? n) && (n <=? 90))
  || ((97 <=? n) && (n <=? 122)).

Fixpoint take_alnum (s : jstring) : jstring * jstring :=
  match s with
  | c :: s' =>
      if is_alnum c then let (run, rest) := take_alnum s' in (c :: run, rest)
      else ([], s)
  | [] => ([], [])
  end.

(** [/\(ID: ([a-zA-Z0-9]+)\)/] matched at the start of [s]: the run of
    letters and digits is taken whole, since what must follow it is no
    letter or digit. *)
Definition id_at (s : jstring) : option jstring :=
  if startsWith (str "(ID: ") s then
    match take_alnum (skipn 5 s) with
    | ((_ :: _) as run, c :: _) =>
        if Ascii.eqb c rparen then Some run else None
    | _ => None
    end
  else None.

(** Group 1 of [userPrompt.match(/\(ID: ([a-zA-Z0-9]+)\)/)]: the first
    place where the pattern matches. *)
Fixpoint idMatch (userPrompt : jstring) : option jstring :=
  match id_at userPrompt with
  | Some referencedId => Some referencedId
  | None =>
      match userPrompt with
      | [] => None
      | _ :: rest => idMatch rest
      end
  end.

(** [todos.find(t => t.id === referencedId)] for the id matched. *)
Definition referencedTask (todos : list Todo) (userPrompt : jstring)
  : option Todo :=
  match idMatch userPrompt with
  | Some referencedId =>
      find (fun t => JsString.eqb (todo_id t) referencedId) todos
  | None => None
  end.

(** *** Titles (services/gemini.ts, [generateTitle], lines 134-167) *)

Definition title_prompt (userPrompt aiResponse : jstring) : jstring :=
  str "Summarize the following conversation into a short, concise title in Simplified Chinese (max 4-8 characters). Output ONLY the title text. Do not use quotes or prefixes."
    ++ [newline] ++ str "      User: " ++ firstn 500 userPrompt
    ++ [newline] ++ str "      AI: " ++ firstn 500 aiResponse.

Definition title_instruction : jstring :=
  str "You are a helpful assistant. You strictly output titles in Simplified Chinese.".

Definition is_quote (c : ascii) : bool :=
  Ascii.eqb c dquote || Ascii.eqb c (ascii_of_nat 39).

(** The second alternative of the pattern: a quote, double or single,
    at the end. *)
Definition drop_last_quote (s : jstring) : jstring :=
  match rev s with
  | c :: before => if is_quote c then rev before else s
  | [] => []
  end.

(** The [replace] of line 162, which deletes every match of: a quote
    at the start, or a quote at the end.  A quote at the start goes, and
    a quote at the end of what is left. *)
Definition strip_quotes (s : jstring) : jstring :=
  match s with
  | c :: rest => if is_quote c then drop_last_quote rest else drop_last_quote s
  | [] => []
  end.

(** [titleModel], line 151: the selected model is not asked. *)
Definition titleModel (apiSettings : option ApiSettings) : jstring :=
  match apiSettings with
  | Some (mkApiSettings openai settings) => openai_model settings
  | _ => str "gemini-3-flash-preview"
  end.

(** [{ useThinking: false }]. *)
Definition title_config : ChatConfig :=
  mkChatConfig false false None false false None.

Section Chats.

Variable host : Host.
Variable cl : Closure.

Local Open Scope client_scope.

(** [handleNewChat], line 247.  The gem, the feature and the open-menu
    flags that it resets are no part of [World]. *)
Definition handleNewChat (specificGemId : option jstring) : M host unit :=
  now1 <- DateNow ;;
  now2 <- DateNow ;;
  let newChat :=
    mkChat (number_text now1) (str "New Chat") [] now2 specificGemId in
  setChats (fun prev => newChat :: prev) ;;;
  setCurrentChatId (Some (chat_id newChat)) ;;;
  setAttachments [] ;;;
  setInputValue [].

(** [JSON.stringify(form.schema)] inside the tags. *)
Definition formMessageContent (schema : value) : jstring :=
  str "<form_payload>"
    ++ match JSON.serialize [] [] schema with
       | Some payloadString => payloadString
       | None => str "undefined"
       end
    ++ str "</form_payload>".

(** [handleLoadSavedForm], lines 276-305. *)
Definition handleLoadSavedForm (schema : value) : M host unit :=
  now1 <- DateNow ;;
  now2 <- DateNow ;;
  let newMessage :=
    mkMessage (number_text now1) model [PText (formMessageContent schema)]
      now2 (Some (str "system-injected")) None None None in
  match cl_currentChatId cl with
  | Some (c :: t) => append_message (c :: t) newMessage
  | _ =>
      handleNewChat None ;;;
      setChats
        (fun prev =>
           match prev with
           | latest :: _ =>
               map (fun c =>
                      if JsString.eqb (chat_id c) (chat_id latest)
                      then mkChat (chat_id c) (title c)
                             (messages c ++ [newMessage]) (updatedAt c)
                             (gemId c)
                      else c) prev
           | [] => prev
           end)
  end.

(** [handleRenameChat], lines 253-255. *)
Definition handleRenameChat (chatId newTitle : jstring) : M host unit :=
  setChats
    (map (fun c =>
            if JsString.eqb (chat_id c) chatId
            then mkChat (chat_id c) newTitle (messages c) (updatedAt c)
                   (gemId c)
            else c)).

(** [generateTitle]; [None] is the [null] of the [catch]. *)
Definition generateTitle (modelName userPrompt aiResponse : jstring)
           (apiSettings : option ApiSettings) : M host (option jstring) :=
  let prompt := title_prompt userPrompt aiResponse in
  now1 <- DateNow ;;
  let history :=
    [mkMessage (str "title-gen") user [PText prompt] now1 None None None None] in
  try_catch
    (res <- generateChatResponse (titleModel apiSettings) history []
              (Some title_instruction) title_config [] apiSettings ;;
     ret (Some (strip_quotes (trim (text res)))))
    (fun _ => ret None).

(** A title generation that was started, run to its end: lines 458-462
    of App.tsx, with the [then] and the [catch]. *)
Definition run_title_job (j : TitleJob) : M host unit :=
  try_catch
    (newTitle <- generateTitle (job_model j) (job_user j) (job_reply j)
                   (Some (apiSettings cl)) ;;
     match newTitle with
     | Some (c :: t) => handleRenameChat (job_chat j) (c :: t)
     | _ => ret tt
     end)
    (fun _ => ret tt).

End Chats.

(* ===================================================================== *)
(** ** What is sent upstream (services/gemini.ts) *)
(* ===================================================================== *)

(** [p.functionCall] and [p.functionResponse] as conditions. *)
Definition has_functionCall (p : MessagePart) : bool :=
  match p with PFunctionCall _ => true | _ => false end.

Definition has_functionResponse (p : MessagePart) : bool :=
  match p with PFunctionResponse _ => true | _ => false end.

Definition functionResponses (ps : list MessagePart) : list FunctionResponse :=
  flat_map (fun p => match p with PFunctionResponse r => [r] | _ => [] end) ps.

Definition functionCallsOf (ps : list MessagePart) : list FunctionCall :=
  flat_map (fun p => match p with PFunctionCall fc => [fc] | _ => [] end) ps.

(** [id || fallback] for an id that may be missing or empty. *)
Definition id_or (id : option jstring) (fallback : jstring) : jstring :=
  match id with
  | Some (c :: t) => c :: t
  | _ => fallback
  end.

(** *** The OpenAI-compatible body, lines 184-277 *)

Inductive OpenAIPart : Type :=
| OText (text : jstring)
| OImageUrl (url : jstring).

Inductive OpenAIContent : Type :=
| CText (text : jstring)
| CParts (parts : list OpenAIPart).

Record OpenAIToolCall : Type := mkOpenAIToolCall {
  otc_id : jstring;
  otc_name : jstring;
  otc_arguments : option jstring
}.

(** A message of the body: [system], [tool], [assistant] with
    [content: null] and [tool_calls], or [user]/[assistant] with a
    content. *)
Inductive OpenAIMessage : Type :=
| MSystem (content : jstring)
| MTool (tool_call_id : jstring) (content : option jstring)
| MToolCalls (tool_calls : list OpenAIToolCall)
| MChat (role : Role) (content : OpenAIContent).

(** Line 199: the [tool_call_id] of an answer. *)
Definition answer_call_id (msg : Message) (resp : FunctionResponse) : jstring :=
  id_or (fr_id resp)
    (str "call_" ++ fr_name resp ++ str "_"
       ++ JSON.number_to_string (timestamp msg)).

(** Line 215: the [id] of the call at index [idx] among the calls of
    its message. *)
Definition tool_call_id (msg : Message) (idx : nat) (fc : FunctionCall)
  : jstring :=
  id_or (fc_id fc)
    (str "call_" ++ fc_name fc ++ str "_"
       ++ JSON.number_to_string (timestamp msg) ++ str "_"
       ++ JSON.number_to_string (Z.of_nat idx)).

Definition tool_message (msg : Message) (resp : FunctionResponse)
  : OpenAIMessage :=
  MTool (answer_call_id msg resp) (JSON.serialize [] [] (fr_response resp)).

Definition tool_call (msg : Message) (ifc : nat * FunctionCall)
  : OpenAIToolCall :=
  mkOpenAIToolCall (tool_call_id msg (fst ifc) (snd ifc)) (fc_name (snd ifc))
    (JSON.serialize [] [] (fc_args (snd ifc))).

(** [msg.parts.find(p => p.text)?.text || '']. *)
Fixpoint first_text (ps : list MessagePart) : jstring :=
  match ps with
  | [] => []
  | PText (c :: t) :: _ => c :: t
  | _ :: rest => first_text rest
  end.

Definition data_url (mimeType data : jstring) : jstring :=
  str "data:" ++ mimeType ++ str ";base64," ++ data.

(** [role, content] for the collected parts: nothing when there are
    none, the bare text when there is one text part. *)
Definition chat_message (r : Role) (ps : list OpenAIPart) : list OpenAIMessage :=
  match ps with
  | [] => []
  | [OText t] => [MChat r (CText t)]
  | _ => [MChat r (CParts ps)]
  end.

(** The callback of [history.forEach], lines 192-247. *)
Definition history_message (msg : Message) : list OpenAIMessage :=
  match functionResponses (parts msg) with
  | (_ :: _) as responses => map (tool_message msg) responses
  | [] =>
      match role msg, functionCallsOf (parts msg) with
      | model, (_ :: _) as calls =>
          [MToolCalls
             (map (tool_call msg) (combine (seq 0 (List.length calls)) calls))]
      | r, _ =>
          let textPart := first_text (parts msg) in
          chat_message r
            (match textPart with [] => [] | _ => [OText textPart] end
             ++ flat_map (fun p => match p with
                                   | PInlineData mimeType data =>
                                       [OImageUrl (data_url mimeType data)]
                                   | _ => []
                                   end) (parts msg))
      end
  end.

(** Lines 250-266: the current input. *)
Definition current_message (userInput : jstring)
           (attachments : list AttachmentData) : list OpenAIMessage :=
  chat_message user
    (match userInput with [] => [] | _ => [OText userInput] end
     ++ map (fun att =>
               match att_data att with
               | Some (c :: t) => OImageUrl (data_url (att_mimeType att) (c :: t))
               | _ =>
                   OText (str "[System: Attachment " ++ att_mimeType att
                            ++ str " skipped in OpenAI mode]")
               end) attachments).

Definition openai_messages (r : Request) : list OpenAIMessage :=
  match req_systemInstruction r with
  | Some (c :: t) => [MSystem (c :: t)]
  | _ => []
  end
  ++ flat_map history_message (req_history r)
  ++ current_message (req_userInput r) (req_attachments r).

(** [mapGeminiToolsToOpenAI], lines 22-31: [type: 'function'] around the
    declaration as it is. *)
Definition mapGeminiToolsToOpenAI (tools : list FunctionDeclaration)
  : list FunctionDeclaration := tools.

(** The body that is posted; [body_tools] comes with
    [tool_choice: 'auto']. *)
Record OpenAIBody : Type := mkOpenAIBody {
  body_model : jstring;
  body_messages : list OpenAIMessage;
  body_tools : option (list FunctionDeclaration)
}.

Definition openai_body (r : Request) : OpenAIBody :=
  mkOpenAIBody (req_model r) (openai_messages r)
    (match tools (req_config r) with
     | Some (d :: ds) => Some (mapGeminiToolsToOpenAI (d :: ds))
     | _ => None
     end).

(** Lines 280-281: the address the body is posted to. *)
Definition openai_url (baseUrl : jstring) : jstring :=
  let baseUrl := dropSuffix (str "/") baseUrl in
  if endsWith (str "/v1") baseUrl
  then baseUrl ++ str "/chat/completions"
  else baseUrl ++ str "/v1/chat/completions".

(** *** The Gemini request, lines 331-381 *)

Inductive ContentRole : Type := as_user | as_model | as_function.

Record Content : Type := mkContent {
  content_role : ContentRole;
  content_parts : list MessagePart
}.

(** Lines 338-345: a part is sent with the one field it has. *)
Definition content_part (p : MessagePart) : MessagePart :=
  match p with
  | PText (c :: t) => PText (c :: t)
  | PInlineData mimeType data => PInlineData mimeType data
  | PFileData fileUri mimeType => PFileData fileUri mimeType
  | PFunctionCall fc => PFunctionCall fc
  | PFunctionResponse fr => PFunctionResponse fr
  | PText [] => PText []
  end.

Definition content_of (m : Message) : Content :=
  mkContent
    (if existsb has_functionResponse (parts m) then as_function
     else match role m with user => as_user | model => as_model end)
    (map content_part (parts m)).

(** Lines 349-360. *)
Definition newUserParts (userInput : jstring)
           (attachments : list AttachmentData) : list MessagePart :=
  flat_map (fun att =>
              match att_fileUri att, att_data att with
              | Some (c :: t), _ => [PFileData (c :: t) (att_mimeType att)]
              | _, Some (c :: t) => [PInlineData (att_mimeType att) (c :: t)]
              | _, _ => []
              end) attachments
  ++ match trim userInput with [] => [] | _ => [PText userInput] end.

Definition gemini_contents (r : Request) : list Content :=
  map content_of (req_history r)
  ++ match newUserParts (req_userInput r) (req_attachments r) with
     | [] => []
     | ps => [mkContent as_user ps]
     end.

(** [config.tools] with [config.toolConfig], lines 364-371. *)
Inductive GeminiTools : Type :=
| NoTools
| FunctionDeclarations (declarations : list FunctionDeclaration)
| GoogleSearch
| GoogleMaps (latLng : Location).

Definition gemini_tools (configOptions : ChatConfig) : GeminiTools :=
  match tools configOptions with
  | Some (d :: ds) => FunctionDeclarations (d :: ds)
  | _ =>
      if useSearch configOptions then GoogleSearch
      else match useMaps configOptions, location configOptions with
           | true, Some l => GoogleMaps l
           | _, _ => NoTools
           end
  end.

Record GeminiConfig : Type := mkGeminiConfig {
  cfg_systemInstruction : option jstring;
  cfg_tools : GeminiTools;
  thinkingBudget : option Z;
  voiceName : option jstring
}.

Definition gemini_config (r : Request) : GeminiConfig :=
  mkGeminiConfig (req_systemInstruction r) (gemini_tools (req_config r))
    (if useThinking (req_config r) && includes (str "pro") (req_model r)
     then Some 1024%Z else None)
    (if isTTS (req_config r) then Some (str "Kore") else None).

(* ===================================================================== *)
(** ** Rendering helpers (App.tsx) *)
(* ===================================================================== *)

(** An entry of the rendered transcript: a message, or a run of tool
    messages folded into one [tool-group]. *)
Inductive Group : Type :=
| Single (m : Message)
| ToolGroup (messages : list Message).

(** [isToolMsg], line 486. *)
Definition isToolMsg (m : Message) : bool :=
  match role m with
  | model => existsb has_functionCall (parts m)
  | user => existsb has_functionResponse (parts m)
  end.

(** Lines 489 and 491: push the pending run, if there is one. *)
Definition flush (groups : list Group) (currentToolSequence : list Message)
  : list Group :=
  match currentToolSequence with
  | [] => groups
  | _ => groups ++ [ToolGroup currentToolSequence]
  end.

(** The body of [messages.forEach], on [groups] and
    [currentToolSequence]. *)
Definition group_step (st : list Group * list Message) (msg : Message)
  : list Group * list Message :=
  let (groups, currentToolSequence) := st in
  if isToolMsg msg then (groups, currentToolSequence ++ [msg])
  else (flush groups currentToolSequence ++ [Single msg], []).

(** [getGroupedMessages], lines 483-493. *)
Definition getGroupedMessages (messages : list Message) : list Group :=
  let (groups, currentToolSequence) :=
    fold_left group_step messages ([], []) in
  flush groups currentToolSequence.

(** [totalCalls] of [renderToolGroup], line 496. *)
Definition totalCalls (msgs : list Message) : nat :=
  fold_left
    (fun acc m => acc + List.length (filter has_functionCall (parts m)))
    msgs 0.

Section Submission.

Variable JSON_parse : jstring -> option value.

(** [submittedData] of [renderMessageContent], lines 579-580: what
    follows the first annotation prefix and any white space after it,
    parsed; [{}] when there is no prefix, nothing after it, or it does
    not parse. *)
Definition submittedData (text : jstring) : value :=
  match FormAgentCard.split_on annotation_prefix text with
  | Some (_, after) =>
      match trimStart after with
      | [] => VObj []
      | json =>
          match JSON_parse json with
          | Some v => v
          | None => VObj []
          end
      end
  | None => VObj []
  end.

End Submission.

(** [isSystemSubmission], line 576. *)
Definition isSystemSubmission (m : Message) (text : jstring) : bool :=
  match role m with
  | user => startsWith (str "[SYSTEM_ANNOTATION") text
  | model => false
  end.

(* ===================================================================== *)
(** ** Further notions used in the statements *)
(* ===================================================================== *)

(** The messages an entry of the rendered transcript stands for. *)
Definition members (g : Group) : list Message :=
  match g with
  | Single m => [m]
  | ToolGroup l => l
  end.

(** Single entries are no tool messages; a tool group is a run of tool
    messages that is not empty, and no tool group follows another. *)
Fixpoint well_grouped (after_tools : bool) (gs : list Group) : bool :=
  match gs with
  | [] => true
  | Single m :: rest => negb (isToolMsg m) && well_grouped false rest
  | ToolGroup l :: rest =>
      negb after_tools
      && match l with [] => false | _ => true end
      && forallb isToolMsg l && well_grouped true rest
  end.

(** The pending run in front of what the loop makes of [messages]. *)
Definition grouped_from (seq : list Message) (messages : list Message)
  : list Group :=
  let (groups, currentToolSequence) :=
    fold_left group_step messages ([], seq) in
  flush groups currentToolSequence.

(** The contents of the [tool] messages of a body, in order. *)
Definition tool_contents (ms : list OpenAIMessage) : list (option jstring) :=
  flat_map (fun m => match m with MTool _ c => [c] | _ => [] end) ms.

(** The function responses of a transcript, in order. *)
Definition history_responses (history : list Message) : list FunctionResponse :=
  flat_map (fun m => functionResponses (parts m)) history.

(** An id that is missing or empty. *)
Definition no_id (id : option jstring) : Prop := id = None \/ id = Some [].

(** What the requests of one turn have in common: nothing rides beside
    the transcript, and instruction, settings and tools are those of the
    render. *)
Definition turn_request (cl : Closure) (promptText : jstring) (r : Request)
  : Prop :=
  req_userInput r = []
  /\ req_attachments r = []
  /\ req_systemInstruction r = Some (finalSystemInstruction cl promptText)
  /\ req_settings r = Some (apiSettings cl)
  /\ tools (req_config r)
     = (if isTodoAiEnabled cl then Some TODO_TOOLS else None)
  /\ useSearch (req_config r) = feature_is cl "search".

(** [m] makes at most [n] requests, whatever the world and the host. *)
Definition makes (host : Host) (A : Type) (n : nat) (m : M host A) : Prop :=
  forall w, exists news,
    requests (snd (m w)) = requests w ++ news /\ List.length news <= n.

(** The requests a call can make under a provider: one, and under
    Gemini a second one to the fallback model. *)
Definition per_call (p : Provider) : nat :=
  match p with
  | openai => 1
  | gemini => 2
  end.

(** A request that asks for the title of the job [j]: one message with
    the prompt, the instruction for titles, no tools and no grounding,
    sent to the model for titles or to the fallback model. *)
Definition title_request (cl : Closure) (j : TitleJob) (r : Request) : Prop :=
  (exists now,
      req_history r
      = [mkMessage (str "title-gen") user
           [PText (title_prompt (job_user j) (job_reply j))] now
           None None None None])
  /\ req_userInput r = []
  /\ req_attachments r = []
  /\ req_systemInstruction r = Some title_instruction
  /\ req_config r = title_config
  /\ (req_model r = titleModel (Some (apiSettings cl))
      \/ req_model r = fallback_model).

(** The chat [c'] is the chat [c], but for its title when it is the chat
    [id]. *)
Definition retitled (id : jstring) (c c' : Chat) : Prop :=
  chat_id c' = chat_id c /\ messages c' = messages c
  /\ updatedAt c' = updatedAt c /\ gemId c' = gemId c
  /\ (chat_id c <> id -> c' = c).

(** The messages of the chat [id] as the render has them. *)
Definition stored_messages (cl : Closure) (id : jstring) : list Message :=
  match find (fun c => JsString.eqb (chat_id c) id) (cl_chats cl) with
  | Some c => messages c
  | None => []
  end.

(** The chat [id] has no title of its own in the render: it is called
    [New Chat], or has an empty title, or is not there. *)
Definition untitled (cl : Closure) (id : jstring) : bool :=
  match
    option_map title
      (find (fun c => JsString.eqb (chat_id c) id) (cl_chats cl))
  with
  | Some t => JsString.eqb t (str "New Chat") || JsString.eqb t []
  | None => true
  end.

Section Jobs.

Variable host : Host.

(** No title generation is started. *)
Definition same_jobs (w w' : World host) : Prop := titleJobs w' = titleJobs w.

(** At most one title generation is started, and it satisfies [P]. *)
Definition starts (P : TitleJob -> Prop) (w w' : World host) : Prop :=
  exists jobs,
    titleJobs w' = titleJobs w ++ jobs
    /\ List.length jobs <= 1 /\ Forall P jobs.

End Jobs.

(** What holds of a title generation that a turn starts. *)
Definition turn_title (cl : Closure) (j : TitleJob) : Prop :=
  job_model j = selectedModel cl
  /\ job_user j <> [] /\ job_reply j <> []
  /\ untitled cl (job_chat j) = true
  /\ List.length (stored_messages cl (job_chat j)) <= 2.

(** The part that stands for a pending attachment in the user message:
    an image inline; another file by the reference that an upload gave,
    or by a text that names it when the upload was refused. *)
Definition attached (host : Host) (att : PendingAttachment) (p : MessagePart)
  : Prop :=
  if startsWith (str "image/") (pa_mimeType att)
  then p = PInlineData (pa_mimeType att) (base64 att)
  else exists n,
      match uploadFile host n (file_name att) (pa_mimeType att) with
      | Ok uploaded => p = PFileData (fst uploaded) (snd uploaded)
      | Throw _ =>
          p = PText (str "[Attachment: " ++ file_name att
                       ++ str " (Upload Failed)]")
      end.

(** *** The next request *)





(** *** Tool calls that come back *)

(** The numbers of a value are of magnitude below 10^21, where the
    platform prints a number with all its digits, as [serialize] does. *)
Fixpoint plain_numbers (v : value) : bool :=
  match v with
  | VNum n => (Z.abs n <? 10 ^ 21)%Z
  | VArr items => forallb plain_numbers items
  | VObj props => forallb (fun kv => plain_numbers (snd kv)) props
  | _ => true
  end.

(** A tool call as an endpoint hands it back: the id, the name and the
    arguments text that it was sent. *)
Definition echoed (c : OpenAIToolCall) : ToolCall :=
  mkToolCall (Some (otc_id c)) (otc_name c) (or_empty (otc_arguments c)).

(** The arguments of a call have a JSON text, and the [JSON.parse] of
    the host reads that text back to them. *)
Definition reads_back (host : Host) (fc : FunctionCall) : Prop :=
  plain_numbers (fc_args fc) = true
  /\ exists text,
       JSON.serialize [] [] (fc_args fc) = Some text
       /\ JSON_parse host text = Some (fc_args fc).

(** The call [fc] of the message [msg], found at index [idx], as it is
    decoded after the trip: under the id that was sent for it. *)
Definition returned (msg : Message) (ifc : nat * FunctionCall) : FunctionCall :=
  mkFunctionCall (fc_name (snd ifc)) (fc_args (snd ifc))
    (Some (tool_call_id msg (fst ifc) (snd ifc))).

(* ===================================================================== *)
(** ** Strings and property lists: basic facts *)
(* ===================================================================== *)

Module Facts.

Lemma eqb_refl (a : jstring) : JsString.eqb a a = true.
Proof.
  induction a as [|x a IH]; [reflexivity|].
  cbn [JsString.eqb]. now rewrite Ascii.eqb_refl, IH.
Qed.

Lemma eqb_eq (a b : jstring) : JsString.eqb a b = true <-> a = b.
Proof.
  split; [|intros ->; apply eqb_refl].
  revert b. induction a as [|x a IH]; destruct b as [|y b];
    cbn [JsString.eqb]; intros H; try discriminate; [reflexivity|].
  apply andb_prop in H. destruct H as [Hx Ha].
  apply Ascii.eqb_eq in Hx. subst y. f_equal. now apply IH.
Qed.

Lemma eqb_neq (a b : jstring) : JsString.eqb a b = false <-> a <> b.
Proof.
  rewrite <- eqb_eq. destruct (JsString.eqb a b); split; congruence.
Qed.

Lemma eqb_sym (a b : jstring) : JsString.eqb a b = JsString.eqb b a.
Proof.
  destruct (JsString.eqb a b) eqn:E.
  - apply eqb_eq in E. subst. symmetry. apply eqb_refl.
  - destruct (JsString.eqb b a) eqn:E'; [|reflexivity].
    apply eqb_eq in E'. subst. now rewrite eqb_refl in E.
Qed.

Lemma lookup_set_same k v props :
  Value.lookup k (Value.set k v props) = Some v.
Proof.
  induction props as [|[k' v'] props IH]; cbn [Value.set Value.lookup].
  - now rewrite eqb_refl.
  - destruct (JsString.eqb k' k) eqn:E; cbn [Value.lookup]; rewrite E;
      [reflexivity | exact IH].
Qed.

Lemma lookup_set_other k k' v props :
  k' <> k -> Value.lookup k (Value.set k' v props) = Value.lookup k props.
Proof.
  intros Hne. apply eqb_neq in Hne.
  induction props as [|[k0 v0] props IH]; cbn [Value.set Value.lookup].
  - now rewrite Hne.
  - destruct (JsString.eqb k0 k') eqn:E; cbn [Value.lookup].
    + apply eqb_eq in E. subst k0. now rewrite Hne.
    + destruct (JsString.eqb k0 k); [reflexivity | exact IH].
Qed.

Lemma prop_set_same k v props :
  Value.prop k (VObj (Value.set k v props)) = v.
Proof. unfold Value.prop. now rewrite lookup_set_same. Qed.

Lemma or_else_defined a b : b <> VUndefined -> Value.or_else a b <> VUndefined.
Proof.
  unfold Value.or_else. destruct (Value.truthy a) eqn:E; [|trivial].
  intros _ ->. discriminate.
Qed.

Lemma app_neq_self (a b : jstring) : b <> [] -> a <> a ++ b.
Proof.
  intros Hb E. apply (f_equal (@List.length ascii)) in E.
  rewrite length_app in E. destruct b; [congruence | cbn in E; lia].
Qed.

End Facts.


(* ===================================================================== *)
(** ** The balance walk over serialized JSON *)
(* ===================================================================== *)

Module Walk.

Lemma passes_nil inS : passes [] inS.
Proof. intros rest i b _. reflexivity. Qed.

Lemma passes_app a b inS : passes a inS -> passes b inS -> passes (a ++ b) inS.
Proof.
  intros Ha Hb rest i n Hn.
  rewrite <- app_assoc, Ha, Hb by assumption.
  f_equal. rewrite length_app. lia.
Qed.

Lemma passes_concat l inS :
  Forall (fun x => passes x inS) l -> passes (List.concat l) inS.
Proof.
  induction 1; simpl; [apply passes_nil | now apply passes_app].
Qed.

Lemma passes_plain c : plain c = true -> passes [c] false.
Proof.
  unfold plain. intros H rest i b _.
  repeat (apply andb_prop in H; destruct H as [H ?]).
  simpl.
  repeat match goal with
         | E : negb (Ascii.eqb c ?x) = true |- _ =>
             apply negb_true_iff in E; rewrite E
         end.
  reflexivity.
Qed.

Lemma passes_quiet c : quiet c = true -> passes [c] true.
Proof.
  unfold quiet. intros H rest i b _.
  apply andb_prop in H. destruct H as [H1 H2].
  apply negb_true_iff in H1, H2.
  simpl. rewrite H1, H2. reflexivity.
Qed.

Lemma passes_escape c inS : passes [backslash; c] inS.
Proof. intros rest i b _. reflexivity. Qed.

Lemma passes_all_plain s : forallb plain s = true -> passes s false.
Proof.
  induction s as [|c s IH]; simpl; intros H; [apply passes_nil|].
  apply andb_prop in H. destruct H as [Hc Hs].
  change (c :: s) with ([c] ++ s).
  apply passes_app; [now apply passes_plain | now apply IH].
Qed.

Lemma passes_all_quiet s : forallb quiet s = true -> passes s true.
Proof.
  induction s as [|c s IH]; simpl; intros H; [apply passes_nil|].
  apply andb_prop in H. destruct H as [Hc Hs].
  change (c :: s) with ([c] ++ s).
  apply passes_app; [now apply passes_quiet | now apply IH].
Qed.

Lemma hex_digit_quiet n : n < 16 -> quiet (JSON.hex_digit n) = true.
Proof.
  intros H.
  do 16 (destruct n as [|n]; [reflexivity|]). lia.
Qed.

(** What [QuoteJSONString] writes for one code unit is passed inside a
    string literal. *)
Lemma passes_quote_char c : passes (JSON.quote_char c) true.
Proof.
  unfold JSON.quote_char.
  destruct (nat_of_ascii c =? 8) eqn:E8; [apply passes_escape|].
  destruct (nat_of_ascii c =? 9) eqn:E9; [apply passes_escape|].
  destruct (nat_of_ascii c =? 10) eqn:E10; [apply passes_escape|].
  destruct (nat_of_ascii c =? 12) eqn:E12; [apply passes_escape|].
  destruct (nat_of_ascii c =? 13) eqn:E13; [apply passes_escape|].
  destruct (nat_of_ascii c =? 34) eqn:E34; [apply passes_escape|].
  destruct (nat_of_ascii c =? 92) eqn:E92; [apply passes_escape|].
  destruct (nat_of_ascii c <? 32) eqn:E32.
  - apply Nat.ltb_lt in E32.
    change (str "\u00") with ([backslash; "u"%char] ++ str "00").
    rewrite <- app_assoc.
    apply passes_app; [apply passes_escape|].
    assert (Hhi : quiet (JSON.hex_digit (nat_of_ascii c / 16)) = true).
    { apply hex_digit_quiet, Nat.Div0.div_lt_upper_bound. lia. }
    assert (Hlo : quiet (JSON.hex_digit (nat_of_ascii c mod 16)) = true).
    { apply hex_digit_quiet, Nat.mod_upper_bound. lia. }
    apply passes_all_quiet.
    set (hi := JSON.hex_digit (nat_of_ascii c / 16)) in *.
    set (lo := JSON.hex_digit (nat_of_ascii c mod 16)) in *.
    simpl. rewrite Hhi, Hlo. reflexivity.
  - apply passes_quiet. unfold quiet.
    apply Nat.eqb_neq in E34, E92.
    assert (Hb : Ascii.eqb c backslash = false).
    { apply Ascii.eqb_neq. intros ->. apply E92. reflexivity. }
    assert (Hq : Ascii.eqb c dquote = false).
    { apply Ascii.eqb_neq. intros ->. apply E34. reflexivity. }
    rewrite Hb, Hq. reflexivity.
Qed.

(** A string literal is passed as a whole, braces and all. *)
Lemma passes_quote s : passes (JSON.quote s) false.
Proof.
  intros rest i b Hb. unfold JSON.quote.
  change (dquote :: flat_map JSON.quote_char s ++ [dquote])
    with ([dquote] ++ flat_map JSON.quote_char s ++ [dquote]).
  rewrite <- !app_assoc.
  change (balance_walk ([dquote] ++ flat_map JSON.quote_char s ++ [dquote] ++ rest)
            i b false false)
    with (balance_walk (flat_map JSON.quote_char s ++ [dquote] ++ rest)
            (S i) b true false).
  assert (Hbody : passes (flat_map JSON.quote_char s) true).
  { rewrite flat_map_concat_map. apply passes_concat.
    apply Forall_map, Forall_forall. intros c _. apply passes_quote_char. }
  rewrite Hbody by assumption.
  change (balance_walk ([dquote] ++ rest)
            (List.length (flat_map JSON.quote_char s) + S i) b true false)
    with (balance_walk rest
            (S (List.length (flat_map JSON.quote_char s) + S i)) b false false).
  f_equal. simpl. rewrite length_app. simpl. lia.
Qed.

Lemma walk_lbrace rest i b :
  balance_walk (lbrace :: rest) i b false false
  = balance_walk rest (S i) (b + 1) false false.
Proof. reflexivity. Qed.

Lemma walk_rbrace rest i b :
  balance_walk (rbrace :: rest) i b false false
  = if (b - 1 =? 0)%Z then Some i
    else balance_walk rest (S i) (b - 1) false false.
Proof. reflexivity. Qed.

(** A nested object is passed: its closing brace brings the balance back
    to the positive value it had before the opening one. *)
Lemma passes_braces body :
  passes body false -> passes (lbrace :: body ++ [rbrace]) false.
Proof.
  intros Hbody rest i b Hb.
  cbn [app]. rewrite walk_lbrace, <- app_assoc, Hbody by lia.
  cbn [app]. rewrite walk_rbrace.
  destruct (b + 1 - 1 =? 0)%Z eqn:E; [apply Z.eqb_eq in E; lia|].
  replace (b + 1 - 1)%Z with b by lia.
  f_equal. cbn [List.length]. rewrite length_app. cbn [List.length]. lia.
Qed.

Lemma passes_join sep l :
  passes sep false -> Forall (fun x => passes x false) l ->
  passes (join sep l) false.
Proof.
  intros Hsep H. induction H as [|x l Hx Hl IH]; [apply passes_nil|].
  destruct l as [|y l]; [exact Hx|].
  change (join sep (x :: y :: l)) with (x ++ sep ++ join sep (y :: l)).
  auto using passes_app.
Qed.

Lemma uint_plain d : forallb plain (str (NilEmpty.string_of_uint d)) = true.
Proof. induction d; simpl; auto. Qed.

Lemma passes_number n : passes (JSON.number_to_string n) false.
Proof.
  apply passes_all_plain. unfold JSON.number_to_string.
  destruct (Z.to_int n) as [d|d]; simpl.
  - destruct d; try apply (uint_plain (_ _)); reflexivity.
  - destruct d; try apply (uint_plain (_ _)); reflexivity.
Qed.

Lemma serialize_array indent items :
  JSON.serialize [] indent (VArr items)
  = Some (compact (str "[") (str "]") (map (element indent) items)).
Proof. reflexivity. Qed.

Lemma serialize_object indent props :
  JSON.serialize [] indent (VObj props)
  = Some (compact (str "{") (str "}") (flat_map (member indent) props)).
Proof. reflexivity. Qed.

Lemma compact_braces partial :
  compact (str "{") (str "}") partial
  = lbrace :: join (str ",") partial ++ [rbrace].
Proof. destruct partial; reflexivity. Qed.

Lemma compact_brackets partial :
  compact (str "[") (str "]") partial
  = str "[" ++ join (str ",") partial ++ str "]".
Proof. destruct partial; reflexivity. Qed.

(** Every serialized value is passed by the walk: braces and quotes
    inside its string literals are inert. *)
Lemma passes_serialize v :
  forall indent T, JSON.serialize [] indent v = Some T -> passes T false.
Proof.
  induction v as [| |b|n|s|items IH|props IH] using value_nested_ind;
    intros indent T H.
  - discriminate.
  - injection H as <-. now apply passes_all_plain.
  - destruct b; injection H as <-; now apply passes_all_plain.
  - injection H as <-. apply passes_number.
  - injection H as <-. apply passes_quote.
  - rewrite serialize_array in H. injection H as <-.
    rewrite compact_brackets.
    apply passes_app; [now apply passes_all_plain|].
    apply passes_app; [|now apply passes_all_plain].
    apply passes_join; [now apply passes_all_plain|].
    apply Forall_map. eapply Forall_impl; [|exact IH].
    intros x Hx. unfold element.
    destruct (JSON.serialize [] (indent ++ []) x) eqn:E.
    + eapply Hx, E.
    + now apply passes_all_plain.
  - rewrite serialize_object in H. injection H as <-.
    rewrite compact_braces. apply passes_braces.
    apply passes_join; [now apply passes_all_plain|].
    induction IH as [|kv props Hkv _ IHprops]; [constructor|].
    cbn [flat_map]. apply Forall_app. split; [|exact IHprops].
    unfold member.
    destruct (JSON.serialize [] (indent ++ []) (snd kv)) eqn:E; [|constructor].
    constructor; [|constructor].
    apply passes_app; [apply passes_quote|].
    apply passes_app; [now apply passes_all_plain|].
    eapply Hkv, E.
Qed.

(** The text of an object: an opening brace, a body the walk passes,
    a closing brace. *)
Lemma stringify_shape props :
  exists body,
    JSON.stringify props = lbrace :: body ++ [rbrace] /\ passes body false.
Proof.
  unfold JSON.stringify. rewrite serialize_object, compact_braces.
  eexists. split; [reflexivity|].
  apply passes_join; [now apply passes_all_plain|].
  induction props as [|kv props IH]; [constructor|].
  cbn [flat_map]. apply Forall_app. split; [|exact IH].
  unfold member.
  destruct (JSON.serialize [] ([] ++ []) (snd kv)) eqn:E; [|constructor].
  constructor; [|constructor].
  apply passes_app; [apply passes_quote|].
  apply passes_app; [now apply passes_all_plain|].
  eapply passes_serialize, E.
Qed.

(** Started on the opening brace of a serialized object with balance
    zero, the walk leaves at its closing brace. *)
Lemma walk_stringify props rest i :
  balance_walk (JSON.stringify props ++ rest) i 0 false false
  = Some (i + List.length (JSON.stringify props) - 1).
Proof.
  destruct (stringify_shape props) as (body & -> & Hbody).
  cbn [app]. rewrite walk_lbrace, <- app_assoc, Hbody by lia.
  cbn [app]. rewrite walk_rbrace. cbn [Z.add Z.sub Z.eqb Z.opp Z.pos_sub].
  f_equal. cbn [List.length]. rewrite length_app. cbn [List.length]. lia.
Qed.

End Walk.

(* ===================================================================== *)
(** ** Fence stripping around an embedded object *)
(* ===================================================================== *)

Module Framing.

Lemma trimStart_front c : is_space c = false -> eats_front trimStart c.
Proof.
  intros Hc p m. induction p as [|y p IH]; cbn [app trimStart].
  - exists []. rewrite Hc. split; [reflexivity | tauto].
  - destruct (is_space y).
    + destruct IH as (p' & E & Hin). exists p'. split; [exact E|].
      intros x Hx. right. auto.
    + exists (y :: p). split; [reflexivity | tauto].
Qed.

Lemma dropPrefix_front lit c : ~ In c lit -> eats_front (dropPrefix lit) c.
Proof.
  unfold dropPrefix. induction lit as [|a lit IH]; intros Hc p m.
  - exists p. split; [reflexivity | tauto].
  - destruct p as [|y p]; cbn [app startsWith List.length skipn].
    + exists []. assert (E : Ascii.eqb a c = false).
      { apply Ascii.eqb_neq. intros ->. apply Hc. now left. }
      rewrite E. split; [reflexivity | tauto].
    + destruct (IH (fun H => Hc (or_intror H)) p m) as (p' & E & Hin).
      destruct (Ascii.eqb a y); cbn [andb].
      * destruct (startsWith lit (p ++ c :: m)).
        -- exists p'. split; [exact E|]. intros x Hx. right. auto.
        -- exists (y :: p). split; [reflexivity | tauto].
      * exists (y :: p). split; [reflexivity | tauto].
Qed.

Lemma back_of_front op c :
  eats_front op c -> eats_back (fun s => rev (op (rev s))) c.
Proof.
  intros H u q.
  destruct (H (rev q) (rev u)) as (p' & E & _).
  exists (rev p'). cbv beta.
  rewrite rev_app_distr. cbn [rev]. rewrite <- app_assoc. cbn [app].
  rewrite E, rev_app_distr. cbn [rev].
  rewrite rev_involutive, <- app_assoc. reflexivity.
Qed.

Lemma trimEnd_back c : is_space c = false -> eats_back trimEnd c.
Proof.
  intros H. change trimEnd with (fun s => rev (trimStart (rev s))).
  apply back_of_front. now apply trimStart_front.
Qed.

Lemma dropSuffix_back lit c : ~ In c lit -> eats_back (dropSuffix lit) c.
Proof.
  intros H.
  change (dropSuffix lit) with (fun s => rev (dropPrefix (rev lit) (rev s))).
  apply back_of_front.
  apply dropPrefix_front. now rewrite <- in_rev.
Qed.

Lemma framed_front op B x :
  eats_front op lbrace -> framed B x -> framed B (op x).
Proof.
  intros Hop (p & q & -> & Hp).
  destruct (Hop p (B ++ rbrace :: q)) as (p' & E & Hin).
  exists p', q. split; [exact E | auto].
Qed.

Lemma framed_back op B x :
  eats_back op rbrace -> framed B x -> framed B (op x).
Proof.
  intros Hop (p & q & -> & Hp).
  destruct (Hop (p ++ lbrace :: B) q) as (q' & E).
  exists p, q'. split; [|exact Hp].
  rewrite <- app_assoc in E. cbn [app] in E. rewrite <- app_assoc in E.
  exact E.
Qed.

Lemma framed_trim B x : framed B x -> framed B (trim x).
Proof.
  intros H. unfold trim.
  apply framed_back; [now apply trimEnd_back|].
  apply framed_front; [now apply trimStart_front | exact H].
Qed.

Lemma not_in_by_eqb c (l : jstring) :
  existsb (Ascii.eqb c) l = false -> ~ In c l.
Proof.
  intros H Hin.
  assert (existsb (Ascii.eqb c) l = true); [|congruence].
  apply existsb_exists. exists c. split; [exact Hin | apply Ascii.eqb_refl].
Qed.

(** Step 2 leaves the embedded object and the brace-free prose in
    front of it in place. *)
Lemma framed_cleanup B x : framed B x -> framed B (cleanup x).
Proof.
  intros H. unfold cleanup.
  destruct (startsWith fence (trim x)); [|now apply framed_trim].
  apply framed_trim.
  apply framed_back; [now apply dropSuffix_back, not_in_by_eqb|].
  apply framed_front; [now apply dropPrefix_front, not_in_by_eqb|].
  apply framed_front; [now apply dropPrefix_front, not_in_by_eqb|].
  now apply framed_trim.
Qed.

Lemma indexOf_first c p m :
  ~ In c p -> indexOf c (p ++ c :: m) = Some (List.length p).
Proof.
  induction p as [|y p IH]; intros H; cbn [app indexOf List.length].
  - now rewrite Ascii.eqb_refl.
  - assert (E : Ascii.eqb y c = false).
    { apply Ascii.eqb_neq. intros ->. apply H. now left. }
    rewrite E, IH; [reflexivity|]. intros Hin. apply H. now right.
Qed.

Lemma skipn_prefix (p m : jstring) : skipn (List.length p) (p ++ m) = m.
Proof. induction p; [reflexivity | assumption]. Qed.

Lemma firstn_prefix (p m : jstring) : firstn (List.length p) (p ++ m) = p.
Proof. induction p as [|y p IH]; [reflexivity | cbn; now rewrite IH]. Qed.

(** Step 3 on a text that frames a serialized object extracts exactly
    the text of that object. *)
Lemma balanced_candidate_framed props p q :
  ~ In lbrace p ->
  balanced_candidate (p ++ JSON.stringify props ++ q)
  = Some (JSON.stringify props).
Proof.
  intros Hp. unfold balanced_candidate.
  destruct (Walk.stringify_shape props) as (body & E & _).
  assert (Hlen : 0 < List.length (JSON.stringify props)).
  { rewrite E. cbn. lia. }
  assert (Hidx : indexOf lbrace (p ++ JSON.stringify props ++ q)
                 = Some (List.length p)).
  { rewrite E. cbn [app]. now apply indexOf_first. }
  rewrite Hidx, skipn_prefix, Walk.walk_stringify.
  unfold substring. rewrite skipn_prefix.
  replace (List.length p + List.length (JSON.stringify props) - 1 + 1
           - List.length p)
    with (List.length (JSON.stringify props)) by lia.
  now rewrite firstn_prefix.
Qed.

End Framing.

Module SafeParseExamples.

Example plain_object :
  safeParseJSON JSON.parse (js "{'a': 1, 'b': [true, null, 'x']}")
  = VObj [(str "a", VNum 1);
          (str "b", VArr [VBool true; VNull; VStr (str "x")])].
Proof. vm_compute. reflexivity. Qed.

Example fenced_object :
  safeParseJSON JSON.parse
    (fence ++ js "json" ++ [newline] ++ js "{'a':1}" ++ [newline] ++ fence)
  = VObj [(str "a", VNum 1)].
Proof. vm_compute. reflexivity. Qed.

Example prose_around :
  safeParseJSON JSON.parse (js "Sure, here it is: {'a':'}{'} - done {ok}")
  = VObj [(str "a", VStr (str "}{"))].
Proof. vm_compute. reflexivity. Qed.

Example stringify_then_parse :
  JSON.parse (JSON.stringify_pretty
                [(str "k", VArr [VNum (-3); VStr (js "q'\")]);
                 (str "u", VUndefined); (str "o", VObj [])])
  = Some (VObj [(str "k", VArr [VNum (-3); VStr (js "q'\")]);
                (str "o", VObj [])]).
Proof. vm_compute. reflexivity. Qed.

End SafeParseExamples.

(* ===================================================================== *)
(** ** Reading back what [JSON.stringify] wrote *)
(* ===================================================================== *)

Module Roundtrip.

Import JSON.

(** *** White space *)

Lemma skip_ws_blank l c r :
  blank l = true -> is_ws c = false -> skip_ws (l ++ c :: r) = c :: r.
Proof.
  intros Hl Hc. induction l as [|x l IH]; cbn [app skip_ws].
  - now rewrite Hc.
  - cbn [blank forallb] in Hl. apply andb_prop in Hl. destruct Hl as [Hx Hl].
    rewrite Hx. now apply IH.
Qed.

Lemma blank_app a b : blank a = true -> blank b = true -> blank (a ++ b) = true.
Proof. unfold blank. intros Ha Hb. now rewrite forallb_app, Ha, Hb. Qed.

Lemma blank_lead gap indent :
  blank gap = true -> blank indent = true -> blank (lead gap indent) = true.
Proof.
  intros Hg Hi. unfold lead. destruct gap as [|c g]; [reflexivity|].
  change (newline :: indent ++ c :: g) with ([newline] ++ indent ++ c :: g).
  now repeat apply blank_app.
Qed.

Lemma blank_trail gap indent :
  blank indent = true -> blank (trail gap indent) = true.
Proof.
  intros Hi. unfold trail. destruct gap; [reflexivity|].
  change (newline :: indent) with ([newline] ++ indent).
  now apply blank_app.
Qed.

Lemma blank_after_colon gap : blank (after_colon gap) = true.
Proof. unfold after_colon. now destruct gap. Qed.

Lemma ws_stops c r : is_ws c = true -> stops (c :: r) = true.
Proof.
  destruct c as [[] [] [] [] [] [] [] []]; intros H; try discriminate H;
    reflexivity.
Qed.

(** White space, and then a character at which a numeral ends. *)
Lemma stops_blank l c r :
  blank l = true -> stops [c] = true -> stops (l ++ c :: r) = true.
Proof.
  intros Hl Hc. destruct l as [|x l]; [exact Hc|].
  cbn [blank forallb] in Hl. apply andb_prop in Hl.
  cbn [app]. now apply ws_stops.
Qed.

(** *** String literals *)

Lemma parse_quote_char c tail :
  parse_string_body (quote_char c ++ tail)
  = match parse_string_body tail with
    | Some (body, rest) => Some (c :: body, rest)
    | None => None
    end.
Proof. destruct c as [[] [] [] [] [] [] [] []]; reflexivity. Qed.

Lemma parse_string_body_quote s rest :
  parse_string_body (flat_map quote_char s ++ dquote :: rest) = Some (s, rest).
Proof.
  induction s as [|c s IH]; [reflexivity|].
  cbn [flat_map]. rewrite <- app_assoc, parse_quote_char. now rewrite IH.
Qed.

Lemma quote_eq s : quote s = dquote :: flat_map quote_char s ++ [dquote].
Proof. reflexivity. Qed.

(** *** Numerals *)

Lemma stops_not_digit c r : stops (c :: r) = true -> is_digit c = false.
Proof.
  unfold stops. intros H. apply negb_true_iff in H.
  now destruct (is_digit c).
Qed.

Lemma take_digits_stop rest :
  stops rest = true -> take_digits rest = ([], rest).
Proof.
  destruct rest as [|c r]; [reflexivity|]. intros H.
  cbn [take_digits]. now rewrite (stops_not_digit _ _ H).
Qed.

Lemma take_digits_digits d rest :
  stops rest = true -> take_digits (digits d ++ rest) = (digits d, rest).
Proof.
  intros H. unfold digits.
  induction d; cbn [NilEmpty.string_of_uint str list_ascii_of_string app];
    [now apply take_digits_stop | ..];
    cbn [take_digits]; fold (str (NilEmpty.string_of_uint d));
    change (is_digit _) with true; cbv iota; now rewrite IHd.
Qed.

Lemma digits_value_acc d :
  forall acc, fold_left digit_step (digits d) (Z.pos acc)
              = Z.pos (Pos.of_uint_acc d acc).
Proof.
  unfold digits.
  induction d; intros acc;
    cbn [NilEmpty.string_of_uint str list_ascii_of_string fold_left
         Pos.of_uint_acc];
    [reflexivity | ..];
    rewrite <- IHd; f_equal; unfold digit_step;
    match goal with
    | |- context [Z.of_nat ?n] =>
        let v := eval vm_compute in (Z.of_nat n) in
        change (Z.of_nat n) with v
    end; lia.
Qed.

Lemma digits_value_uint d : digits_value (digits d) = Z.of_N (Pos.of_uint d).
Proof.
  unfold digits_value. fold digit_step. unfold digits.
  induction d;
    cbn [NilEmpty.string_of_uint str list_ascii_of_string fold_left
         Pos.of_uint];
    [reflexivity | exact IHd | ..];
    match goal with
    | |- fold_left digit_step _ (digit_step 0 ?c) = _ =>
        let v := eval vm_compute in (digit_step 0 c) in
        change (digit_step 0 c) with v
    end;
    fold (str (NilEmpty.string_of_uint d)); fold (digits d);
    now rewrite digits_value_acc.
Qed.

Lemma nzhead_head d :
  match Decimal.nzhead d with Decimal.D0 _ => False | _ => True end.
Proof. induction d; cbn [Decimal.nzhead]; auto. Qed.

(** The numeral of a positive number does not start with a zero. *)
Lemma to_uint_head p :
  match Pos.to_uint p with
  | Decimal.Nil | Decimal.D0 _ => False
  | _ => True
  end.
Proof.
  pose proof (DecimalPos.Unsigned.to_of (Pos.to_uint p)) as H.
  rewrite DecimalPos.Unsigned.of_to in H. cbn [N.to_uint] in H.
  pose proof (DecimalPos.Unsigned.to_uint_nonnil p) as Hnil.
  pose proof (DecimalPos.Unsigned.to_uint_nonzero p) as Hzero.
  destruct (Pos.to_uint p) as [|l| | | | | | | | |] eqn:E; auto.
  unfold Decimal.unorm in H. cbn [Decimal.nzhead] in H.
  pose proof (nzhead_head l) as Hl.
  destruct (Decimal.nzhead l); try discriminate H; contradiction.
Qed.

Lemma stops_continues c r :
  stops (c :: r) = true ->
  Ascii.eqb c "."%char || Ascii.eqb c "e"%char || Ascii.eqb c "E"%char = false.
Proof.
  unfold stops. intros H. apply negb_true_iff in H.
  destruct (is_digit c); [discriminate H | exact H].
Qed.

(** The numeral of [|n|], for [n] that is not zero. *)
Lemma parse_digits p rest (neg : bool) :
  stops rest = true ->
  (let (ds, rest') := take_digits (digits (Pos.to_uint p) ++ rest) in
   let leading_zero :=
     match ds with
     | c :: _ :: _ => Ascii.eqb c "0"%char
     | _ => false
     end in
   let continues :=
     match rest' with
     | c :: _ =>
         Ascii.eqb c "."%char || Ascii.eqb c "e"%char || Ascii.eqb c "E"%char
     | [] => false
     end in
   match ds with
   | [] => None
   | _ =>
       if leading_zero || continues then None
       else Some (VNum (if neg then - digits_value ds else digits_value ds)%Z,
                  rest')
   end)
  = Some (VNum (if neg then Z.neg p else Z.pos p), rest).
Proof.
  intros Hrest. rewrite take_digits_digits by exact Hrest.
  rewrite digits_value_uint, DecimalPos.Unsigned.of_to.
  assert (Hcont : match rest with
                  | c :: _ =>
                      Ascii.eqb c "."%char || Ascii.eqb c "e"%char
                      || Ascii.eqb c "E"%char
                  | [] => false
                  end = false).
  { destruct rest as [|c r]; [reflexivity|]. now apply stops_continues in Hrest. }
  rewrite Hcont.
  pose proof (to_uint_head p) as Hhead. unfold digits.
  destruct (Pos.to_uint p) as [|l|l|l|l|l|l|l|l|l|l]; try contradiction;
    cbn [NilEmpty.string_of_uint str list_ascii_of_string];
    (destruct (list_ascii_of_string (NilEmpty.string_of_uint l));
     cbn [Ascii.eqb Bool.eqb andb orb Z.of_N]; now destruct neg).
Qed.

Lemma number_to_string_pos p :
  number_to_string (Z.pos p) = digits (Pos.to_uint p).
Proof.
  unfold number_to_string, digits. cbn [Z.to_int NilZero.string_of_int].
  pose proof (to_uint_head p) as H.
  now destruct (Pos.to_uint p).
Qed.

Lemma number_to_string_neg p :
  number_to_string (Z.neg p) = "-"%char :: digits (Pos.to_uint p).
Proof.
  unfold number_to_string, digits. cbn [Z.to_int NilZero.string_of_int].
  pose proof (to_uint_head p) as H.
  now destruct (Pos.to_uint p).
Qed.

Lemma digits_head p :
  exists c r, digits (Pos.to_uint p) = c :: r
              /\ is_digit c = true /\ Ascii.eqb c "-"%char = false.
Proof.
  pose proof (to_uint_head p) as H. unfold digits.
  destruct (Pos.to_uint p); try contradiction;
    cbn [NilEmpty.string_of_uint str list_ascii_of_string];
    eexists _, _; split; try reflexivity; split; reflexivity.
Qed.

Lemma parse_number_text n rest :
  stops rest = true ->
  parse_number (number_to_string n ++ rest) = Some (VNum n, rest).
Proof.
  intros Hrest. destruct n as [|p|p].
  - change (number_to_string 0) with (str "0"). unfold parse_number.
    cbn [str list_ascii_of_string app Ascii.eqb Bool.eqb andb take_digits].
    change (is_digit "0") with true. cbv iota.
    rewrite take_digits_stop by exact Hrest.
    destruct rest as [|c r]; [reflexivity|].
    rewrite (stops_continues _ _ Hrest). reflexivity.
  - rewrite number_to_string_pos. unfold parse_number.
    destruct (digits_head p) as (c & r & E & _ & Hminus).
    rewrite E. cbn [app]. rewrite Hminus.
    change (c :: r ++ rest) with ((c :: r) ++ rest). rewrite <- E.
    apply (parse_digits p rest false Hrest).
  - rewrite number_to_string_neg. unfold parse_number.
    cbn [app]. change (Ascii.eqb "-" "-") with true. cbv iota.
    apply (parse_digits p rest true Hrest).
Qed.

(** The first character of a numeral: by it [parse_value] knows a
    number. *)
Lemma number_head n :
  exists c r, number_to_string n = c :: r
              /\ (is_digit c = true \/ c = "-"%char).
Proof.
  destruct n as [|p|p].
  - exists "0"%char, []. split; [reflexivity | now left].
  - rewrite number_to_string_pos.
    destruct (digits_head p) as (c & r & E & Hd & _).
    exists c, r. split; [exact E | now left].
  - rewrite number_to_string_neg. eexists _, _. split; [reflexivity | now right].
Qed.

Lemma number_char c :
  is_digit c = true \/ c = "-"%char ->
  is_ws c = false
  /\ Ascii.eqb c lbrace = false /\ Ascii.eqb c "["%char = false
  /\ Ascii.eqb c dquote = false /\ Ascii.eqb c "n"%char = false
  /\ Ascii.eqb c "t"%char = false /\ Ascii.eqb c "f"%char = false
  /\ Ascii.eqb c "]"%char = false.
Proof.
  destruct c as [[] [] [] [] [] [] [] []]; intros [H|H];
    try discriminate H; repeat split; reflexivity.
Qed.

(** *** Arrays and objects *)

Lemma join_cons sep (x y : jstring) l :
  join sep (x :: y :: l) = x ++ sep ++ join sep (y :: l).
Proof. reflexivity. Qed.

Lemma parse_elements_layout (xs : list (jstring * value)) L T :
  blank L = true -> blank T = true ->
  Forall (fun ev => reads (fst ev) (snd ev)) xs -> xs <> [] ->
  forall fuel acc rest,
    weight (map fst xs) < fuel ->
    parse_elements fuel
      (L ++ join (","%char :: L) (map fst xs) ++ T ++ "]"%char :: rest) acc
    = Some (VArr (acc ++ map snd xs), rest).
Proof.
  intros HL HT Hall. induction Hall as [|[e v] xs Hx Hxs IH]; [congruence|].
  intros _ fuel acc rest Hfuel. cbn [fst snd] in Hx.
  destruct fuel as [|f]; [inversion Hfuel|].
  cbn [map fst snd weight fold_right] in Hfuel. fold (weight (map fst xs)) in Hfuel.
  destruct xs as [|[e' v'] ys].
  - cbn [map fst snd join parse_elements].
    rewrite (Hx f L (T ++ "]"%char :: rest) HL);
      [|cbn [map weight fold_right] in Hfuel; lia
       |now apply stops_blank].
    rewrite skip_ws_blank by (exact HT || reflexivity).
    reflexivity.
  - cbn [map fst snd]. rewrite join_cons.
    replace (L ++ (e ++ ("," :: L) ++ join ("," :: L) (e' :: map fst ys))
               ++ T ++ "]" :: rest)%char
      with (L ++ e ++ ","%char
              :: (L ++ join (","%char :: L) (map fst ((e', v') :: ys))
                    ++ T ++ "]"%char :: rest))
      by (cbn [map fst];
          repeat (rewrite <- app_assoc || rewrite <- app_comm_cons);
          reflexivity).
    cbn [parse_elements].
    rewrite (Hx f L _ HL); [|lia|reflexivity].
    cbn [skip_ws]. change (is_ws ",") with false. cbv iota.
    change (Ascii.eqb "," ",") with true. cbv iota.
    rewrite IH; [|discriminate|lia].
    now rewrite <- app_assoc.
Qed.

Lemma set_fresh k v acc :
  existsb (JsString.eqb k) (map fst acc) = false ->
  Value.set k v acc = acc ++ [(k, v)].
Proof.
  induction acc as [|[k' v'] acc IH]; [reflexivity|].
  cbn [map fst existsb Value.set app]. intros H.
  apply orb_false_iff in H. destruct H as [Hk H].
  rewrite Facts.eqb_sym, Hk. now rewrite IH.
Qed.

Lemma distinct_fresh A k B :
  distinct (A ++ k :: B) = true -> existsb (JsString.eqb k) A = false.
Proof.
  induction A as [|a A IH]; [reflexivity|].
  cbn [app distinct existsb]. intros H.
  apply andb_prop in H. destruct H as [Ha H].
  apply negb_true_iff in Ha. rewrite existsb_app in Ha.
  apply orb_false_iff in Ha. destruct Ha as [_ Ha].
  cbn [existsb] in Ha. apply orb_false_iff in Ha. destruct Ha as [Ha _].
  rewrite Facts.eqb_sym, Ha. now apply IH.
Qed.

Lemma written_text_eq gap m tail :
  written_text gap m ++ tail
  = dquote :: flat_map quote_char (w_key m)
      ++ dquote :: ":"%char :: after_colon gap ++ w_text m ++ tail.
Proof.
  unfold written_text, member_text. rewrite quote_eq.
  cbn [str list_ascii_of_string].
  repeat (rewrite <- app_assoc || rewrite <- app_comm_cons). reflexivity.
Qed.

Lemma weight_written gap m :
  List.length (w_text m) <= List.length (written_text gap m).
Proof.
  unfold written_text, member_text. rewrite !length_app. lia.
Qed.

Lemma parse_members_layout gap (ms : list Written) L T :
  blank L = true -> blank T = true ->
  Forall (fun m => reads (w_text m) (w_value m)) ms -> ms <> [] ->
  forall fuel acc rest,
    weight (map (written_text gap) ms) < fuel ->
    distinct (map fst acc ++ map w_key ms) = true ->
    parse_members fuel
      (L ++ join (","%char :: L) (map (written_text gap) ms)
         ++ T ++ rbrace :: rest) acc
    = Some (VObj (acc ++ map written_prop ms), rest).
Proof.
  intros HL HT Hall. induction Hall as [|m ms Hm Hms IH]; [congruence|].
  intros _ fuel acc rest Hfuel Hkeys.
  destruct fuel as [|f]; [inversion Hfuel|].
  cbn [map weight fold_right] in Hfuel.
  fold (weight (map (written_text gap) ms)) in Hfuel.
  pose proof (weight_written gap m) as Hw.
  cbn [map] in Hkeys.
  pose proof (distinct_fresh _ _ _ Hkeys) as Hfresh.
  destruct ms as [|m' ms'].
  - cbn [map join parse_members].
    rewrite written_text_eq.
    rewrite skip_ws_blank by (exact HL || reflexivity).
    change (Ascii.eqb dquote dquote) with true. cbv iota.
    rewrite parse_string_body_quote.
    cbn [skip_ws]. change (is_ws ":") with false. cbv iota.
    change (Ascii.eqb ":" ":") with true. cbv iota.
    rewrite (Hm f (after_colon gap) (T ++ rbrace :: rest)
               (blank_after_colon gap));
      [|lia|now apply stops_blank].
    rewrite skip_ws_blank by (exact HT || reflexivity).
    change (Ascii.eqb rbrace ",") with false.
    change (Ascii.eqb rbrace rbrace) with true. cbv iota.
    now rewrite set_fresh.
  - cbn [map]. rewrite join_cons.
    replace (L ++ (written_text gap m ++ ("," :: L)
                     ++ join ("," :: L)
                          (written_text gap m' :: map (written_text gap) ms'))
               ++ T ++ rbrace :: rest)%char
      with (L ++ written_text gap m ++ ","%char
              :: (L ++ join (","%char :: L) (map (written_text gap) (m' :: ms'))
                    ++ T ++ rbrace :: rest))
      by (cbn [map];
          repeat (rewrite <- app_assoc || rewrite <- app_comm_cons);
          reflexivity).
    cbn [parse_members].
    rewrite written_text_eq.
    rewrite skip_ws_blank by (exact HL || reflexivity).
    change (Ascii.eqb dquote dquote) with true. cbv iota.
    rewrite parse_string_body_quote.
    cbn [skip_ws]. change (is_ws ":") with false. cbv iota.
    change (Ascii.eqb ":" ":") with true. cbv iota.
    rewrite (Hm f (after_colon gap) _ (blank_after_colon gap));
      [|lia|reflexivity].
    cbn [skip_ws]. change (is_ws ",") with false. cbv iota.
    change (Ascii.eqb "," ",") with true. cbv iota.
    rewrite set_fresh by exact Hfresh.
    rewrite IH; [|discriminate|lia|].
    + now rewrite <- app_assoc.
    + rewrite map_app. cbn [map fst]. now rewrite <- app_assoc.
Qed.

(** *** The layout that [JSON.stringify] writes *)

Lemma serialize_array_layout gap indent items :
  serialize gap indent (VArr items)
  = Some (layout gap indent (str "[") (str "]")
            (map (item_text gap (indent ++ gap)) items)).
Proof. reflexivity. Qed.

Lemma serialize_object_layout gap indent props :
  serialize gap indent (VObj props)
  = Some (layout gap indent (str "{") (str "}")
            (flat_map (member_texts gap (indent ++ gap)) props)).
Proof. reflexivity. Qed.

Lemma layout_cons gap indent opening closing partial :
  partial <> [] ->
  layout gap indent opening closing partial
  = opening ++ lead gap indent
      ++ join (","%char :: lead gap indent) partial
      ++ trail gap indent ++ closing.
Proof.
  intros H. destruct partial as [|e l]; [congruence|].
  unfold layout, lead, trail. destruct gap as [|g gap]; [|reflexivity].
  cbn [app]. unfold str. cbn [list_ascii_of_string]. reflexivity.
Qed.

Lemma serialize_none gap indent v :
  serialize gap indent v = None -> v = VUndefined.
Proof. destruct v as [| |[|]| | | |]; try discriminate; reflexivity. Qed.

Lemma weight_join sep l :
  1 <= List.length sep -> weight l <= S (List.length (join sep l)).
Proof.
  intros Hsep. induction l as [|x l IH]; [cbn; lia|].
  destruct l as [|y l].
  - cbn. lia.
  - rewrite join_cons, !length_app.
    change (weight (x :: y :: l)) with (S (List.length x + weight (y :: l))).
    lia.
Qed.

Lemma weight_layout gap indent opening closing partial :
  1 <= List.length opening -> 1 <= List.length closing ->
  weight partial
  < List.length (layout gap indent opening closing partial).
Proof.
  intros Ho Hc. destruct partial as [|e l].
  - unfold layout. rewrite length_app. cbn [weight fold_right]. lia.
  - rewrite layout_cons by discriminate. rewrite !length_app.
    pose proof (@weight_join (","%char :: lead gap indent) (e :: l)) as H.
    cbn [List.length] in H. lia.
Qed.

(** *** The first character of a value *)

Lemma opens_head gap indent v s :
  serialize gap indent v = Some s ->
  exists c r, s = c :: r /\ opens c = true.
Proof.
  destruct v as [| |[|]|n|t|items|props]; intros H; try discriminate H.
  - injection H as <-. now eexists _, _.
  - injection H as <-. now eexists _, _.
  - injection H as <-. now eexists _, _.
  - injection H as <-.
    destruct (number_head n) as (c & r & E & Hc). exists c, r.
    split; [exact E|].
    destruct (number_char Hc) as (Hws & _ & _ & _ & _ & _ & _ & Hclose).
    unfold opens. now rewrite Hws, Hclose.
  - injection H as <-. now eexists _, _.
  - rewrite serialize_array_layout in H. injection H as <-.
    unfold layout.
    destruct (map (item_text gap (indent ++ gap)) items);
      [|destruct gap]; now eexists _, _.
  - rewrite serialize_object_layout in H. injection H as <-.
    unfold layout.
    destruct (flat_map (member_texts gap (indent ++ gap)) props);
      [|destruct gap]; now eexists _, _.
Qed.

Lemma item_text_head gap indent x :
  exists c r, item_text gap indent x = c :: r /\ opens c = true.
Proof.
  unfold item_text. destruct (serialize gap indent x) as [s|] eqn:E.
  - eapply opens_head, E.
  - now eexists _, _.
Qed.

Lemma skip_ws_join L sep (c : ascii) (r : jstring) (l : list jstring) tail :
  blank L = true -> is_ws c = false ->
  exists t, skip_ws (L ++ join sep ((c :: r) :: l) ++ tail) = c :: t.
Proof.
  intros HL Hc. destruct l as [|y l]; [cbn [join] | rewrite join_cons];
    rewrite <- ?app_assoc, <- app_comm_cons; eexists; now apply skip_ws_blank.
Qed.

Lemma opens_spec c :
  opens c = true -> is_ws c = false /\ Ascii.eqb c "]"%char = false.
Proof.
  unfold opens. intros H. apply andb_prop in H. destruct H as [H1 H2].
  apply negb_true_iff in H1. apply negb_true_iff in H2. now split.
Qed.

(** *** What is read back *)

Lemma reparsed_undefined v : reparsed v = VUndefined -> v = VUndefined.
Proof. destruct v; try discriminate; reflexivity. Qed.

Lemma reparsed_item x :
  x <> VUndefined ->
  match reparsed x with VUndefined => VNull | y => y end = reparsed x.
Proof.
  intros H. destruct (reparsed x) eqn:E; try reflexivity.
  now apply reparsed_undefined in E.
Qed.

Lemma reparsed_member (k : jstring) x :
  x <> VUndefined ->
  match reparsed x with VUndefined => [] | y => [(k, y)] end
  = [(k, reparsed x)].
Proof.
  intros H. destruct (reparsed x) eqn:E; try reflexivity.
  now apply reparsed_undefined in E.
Qed.

Lemma reads_literal (lit : string) v c r :
  str lit = c :: r -> is_ws c = false ->
  (forall rest f, parse_value (S f) (str lit ++ rest) = Some (v, rest)) ->
  reads (str lit) v.
Proof.
  intros E Hc H fuel front rest Hfront Hlen _.
  destruct fuel as [|f]; [inversion Hlen|].
  specialize (H rest f). rewrite E in *. cbn [app] in *.
  cbn [parse_value] in *. rewrite skip_ws_blank by assumption.
  cbn [skip_ws] in H. rewrite Hc in H. exact H.
Qed.

Lemma reads_null : reads (str "null") VNull.
Proof. now apply (@reads_literal "null" VNull "n"%char (str "ull")). Qed.

Lemma reads_true : reads (str "true") (VBool true).
Proof. now apply (@reads_literal "true" (VBool true) "t"%char (str "rue")). Qed.

Lemma reads_false : reads (str "false") (VBool false).
Proof. now apply (@reads_literal "false" (VBool false) "f"%char (str "alse")). Qed.

Lemma reads_number n : reads (number_to_string n) (VNum n).
Proof.
  intros fuel front rest Hfront Hlen Hrest.
  destruct fuel as [|f]; [inversion Hlen|].
  destruct (number_head n) as (c & r & E & Hc).
  destruct (number_char Hc) as (Hws & H1 & H2 & H3 & H4 & H5 & H6 & _).
  rewrite E. cbn [app parse_value]. rewrite skip_ws_blank by assumption.
  rewrite H1, H2, H3, H4, H5, H6.
  change (c :: r ++ rest) with ((c :: r) ++ rest). rewrite <- E.
  now apply parse_number_text.
Qed.

Lemma reads_string s : reads (quote s) (VStr s).
Proof.
  intros fuel front rest Hfront Hlen _.
  destruct fuel as [|f]; [inversion Hlen|].
  rewrite quote_eq.
  replace ((dquote :: flat_map quote_char s ++ [dquote]) ++ rest)
    with (dquote :: flat_map quote_char s ++ dquote :: rest)
    by (repeat (rewrite <- app_assoc || rewrite <- app_comm_cons);
        reflexivity).
  cbn [parse_value]. rewrite skip_ws_blank by (exact Hfront || reflexivity).
  change (Ascii.eqb dquote lbrace) with false.
  change (Ascii.eqb dquote "[") with false.
  change (Ascii.eqb dquote dquote) with true. cbv iota.
  now rewrite parse_string_body_quote.
Qed.

Lemma reads_array gap indent items :
  blank gap = true -> blank indent = true ->
  Forall (fun ev => reads (fst ev) (snd ev))
    (map (written_item gap (indent ++ gap)) items) ->
  reads (layout gap indent (str "[") (str "]")
           (map (item_text gap (indent ++ gap)) items))
    (reparsed (VArr items)).
Proof.
  intros Hgap Hindent Hall fuel front rest Hfront Hlen Hrest.
  destruct fuel as [|f]; [inversion Hlen|].
  pose proof (@weight_layout gap indent (str "[") (str "]")
                (map (item_text gap (indent ++ gap)) items)
                (le_n 1) (le_n 1)) as Hweight.
  assert (Hfst : map fst (map (written_item gap (indent ++ gap)) items)
                 = map (item_text gap (indent ++ gap)) items).
  { rewrite map_map. reflexivity. }
  assert (Hsnd : VArr (map snd (map (written_item gap (indent ++ gap)) items))
                 = reparsed (VArr items)).
  { rewrite map_map. reflexivity. }
  destruct items as [|x items].
  - cbn [map layout reparsed str list_ascii_of_string app parse_value].
    rewrite skip_ws_blank by (exact Hfront || reflexivity).
    reflexivity.
  - rewrite layout_cons in * by discriminate.
    set (L := lead gap indent) in *. set (T := trail gap indent) in *.
    assert (HL : blank L = true) by now apply blank_lead.
    assert (HT : blank T = true) by now apply blank_trail.
    rewrite <- Hsnd. rewrite <- Hfst in *.
    set (xs := map (written_item gap (indent ++ gap)) (x :: items)) in *.
    replace ((str "[" ++ L ++ join ("," :: L) (map fst xs) ++ T ++ str "]")
               ++ rest)%char
      with ("["%char :: (L ++ join (","%char :: L) (map fst xs)
                           ++ T ++ "]"%char :: rest))
      by (cbn [str list_ascii_of_string];
          repeat (rewrite <- app_assoc || rewrite <- app_comm_cons);
          reflexivity).
    cbn [parse_value]. rewrite skip_ws_blank by (exact Hfront || reflexivity).
    change (Ascii.eqb "[" lbrace) with false.
    change (Ascii.eqb "[" "[") with true. cbv iota.
    assert (Hskip : exists c t,
               skip_ws (L ++ join (","%char :: L) (map fst xs)
                          ++ T ++ "]"%char :: rest) = c :: t
               /\ Ascii.eqb c "]"%char = false).
    { destruct (item_text_head gap (indent ++ gap) x) as (c & r & E & Hc).
      apply opens_spec in Hc. destruct Hc as [Hws Hclose].
      destruct (@skip_ws_join L (","%char :: L) c r
                  (map fst (map (written_item gap (indent ++ gap)) items))
                  (T ++ "]"%char :: rest) HL Hws) as (t & Et).
      exists c, t. split; [|exact Hclose].
      unfold xs. rewrite !map_cons.
      change (fst (written_item gap (indent ++ gap) x))
        with (item_text gap (indent ++ gap) x).
      rewrite E. exact Et. }
    destruct Hskip as (c & t & -> & ->).
    apply parse_elements_layout; try assumption; [discriminate|].
    rewrite !length_app in Hlen, Hweight. cbn [List.length str list_ascii_of_string] in *.
    lia.
Qed.

Lemma written_texts gap indent (props : list (jstring * value)) :
  map (written_text gap) (flat_map (written_members gap indent) props)
  = flat_map (member_texts gap indent) props.
Proof.
  induction props as [|kv props IH]; [reflexivity|].
  cbn [flat_map]. rewrite map_app, IH. f_equal.
  unfold written_members, member_texts.
  now destruct (serialize gap indent (snd kv)).
Qed.

Lemma written_props gap indent (props : list (jstring * value)) :
  VObj (map written_prop (flat_map (written_members gap indent) props))
  = reparsed (VObj props).
Proof.
  cbn [reparsed]. f_equal.
  induction props as [|kv props IH]; [reflexivity|].
  cbn [flat_map]. rewrite map_app, IH. f_equal.
  unfold written_members.
  destruct (serialize gap indent (snd kv)) as [e|] eqn:E.
  - rewrite reparsed_member; [reflexivity|].
    intros Hu. rewrite Hu in E. discriminate E.
  - apply serialize_none in E. now rewrite E.
Qed.

Lemma written_keys_fresh gap indent (k : jstring)
      (props : list (jstring * value)) :
  existsb (JsString.eqb k) (map fst props) = false ->
  existsb (JsString.eqb k)
    (map w_key (flat_map (written_members gap indent) props)) = false.
Proof.
  induction props as [|kv props IH]; [reflexivity|].
  cbn [map existsb flat_map]. intros H.
  apply orb_false_iff in H. destruct H as [Hk H].
  rewrite map_app, existsb_app. apply orb_false_iff. split; [|now apply IH].
  unfold written_members.
  destruct (serialize gap indent (snd kv)); [|reflexivity].
  cbn [map existsb w_key]. now rewrite Hk.
Qed.

Lemma written_keys_distinct gap indent (props : list (jstring * value)) :
  distinct (map fst props) = true ->
  distinct (map w_key (flat_map (written_members gap indent) props)) = true.
Proof.
  induction props as [|kv props IH]; [reflexivity|].
  cbn [map distinct flat_map]. intros H.
  apply andb_prop in H. destruct H as [Hk H].
  apply negb_true_iff in Hk. rewrite map_app.
  unfold written_members at 1.
  destruct (serialize gap indent (snd kv)); [|now apply IH].
  cbn [map app distinct w_key]. apply andb_true_intro. split; [|now apply IH].
  apply negb_true_iff. now apply written_keys_fresh.
Qed.

Lemma reads_object gap indent (props : list (jstring * value)) :
  blank gap = true -> blank indent = true ->
  distinct (map fst props) = true ->
  Forall (fun m => reads (w_text m) (w_value m))
    (flat_map (written_members gap (indent ++ gap)) props) ->
  reads (layout gap indent (str "{") (str "}")
           (flat_map (member_texts gap (indent ++ gap)) props))
    (reparsed (VObj props)).
Proof.
  intros Hgap Hindent Hkeys Hall fuel front rest Hfront Hlen Hrest.
  destruct fuel as [|f]; [inversion Hlen|].
  pose proof (@weight_layout gap indent (str "{") (str "}")
                (flat_map (member_texts gap (indent ++ gap)) props)
                (le_n 1) (le_n 1)) as Hweight.
  rewrite <- (written_props gap (indent ++ gap) props).
  rewrite <- (written_texts gap (indent ++ gap) props) in *.
  apply (written_keys_distinct gap (indent ++ gap)) in Hkeys.
  set (ms := flat_map (written_members gap (indent ++ gap)) props) in *.
  clearbody ms. clear props.
  destruct ms as [|m ms].
  - cbn [map layout str list_ascii_of_string app parse_value].
    rewrite skip_ws_blank by (exact Hfront || reflexivity).
    reflexivity.
  - rewrite layout_cons in * by discriminate.
    set (L := lead gap indent) in *. set (T := trail gap indent) in *.
    assert (HL : blank L = true) by now apply blank_lead.
    assert (HT : blank T = true) by now apply blank_trail.
    replace ((str "{" ++ L
                ++ join ("," :: L) (map (written_text gap) (m :: ms))
                ++ T ++ str "}") ++ rest)%char
      with (lbrace :: (L ++ join (","%char :: L)
                              (map (written_text gap) (m :: ms))
                         ++ T ++ rbrace :: rest))
      by (cbn [str list_ascii_of_string];
          repeat (rewrite <- app_assoc || rewrite <- app_comm_cons);
          reflexivity).
    cbn [parse_value]. rewrite skip_ws_blank by (exact Hfront || reflexivity).
    change (Ascii.eqb lbrace lbrace) with true. cbv iota.
    assert (Hskip : exists t,
               skip_ws (L ++ join (","%char :: L)
                               (map (written_text gap) (m :: ms))
                          ++ T ++ rbrace :: rest) = dquote :: t).
    { rewrite map_cons.
      unfold written_text at 1, member_text. rewrite quote_eq.
      rewrite <- app_comm_cons.
      apply (@skip_ws_join L (","%char :: L) dquote _
               (map (written_text gap) ms) (T ++ rbrace :: rest) HL eq_refl). }
    destruct Hskip as (t & ->).
    change (Ascii.eqb dquote rbrace) with false. cbv iota.
    apply parse_members_layout; try assumption; [discriminate|].
    rewrite !length_app in Hlen, Hweight.
    cbn [List.length str list_ascii_of_string] in *.
    lia.
Qed.

(** *** Every value *)

(** The text written for a value reads back as the value, less what
    JSON cannot carry. *)
Lemma reads_serialize v :
  forall gap indent s,
    blank gap = true -> blank indent = true -> well_keyed v = true ->
    serialize gap indent v = Some s -> reads s (reparsed v).
Proof.
  induction v as [| |b|n|t|items IH|props IH] using value_nested_ind;
    intros gap indent s Hgap Hindent Hkeyed Hs.
  - discriminate Hs.
  - injection Hs as <-. apply reads_null.
  - destruct b; injection Hs as <-; [apply reads_true | apply reads_false].
  - injection Hs as <-. apply reads_number.
  - injection Hs as <-. apply reads_string.
  - rewrite serialize_array_layout in Hs. injection Hs as <-.
    apply reads_array; try assumption.
    cbn [well_keyed] in Hkeyed. rewrite forallb_forall in Hkeyed.
    rewrite Forall_forall in IH.
    apply Forall_map, Forall_forall. intros x Hin.
    unfold written_item, item_text. cbn [fst snd].
    destruct (serialize gap (indent ++ gap) x) as [e|] eqn:E.
    + rewrite reparsed_item by (intros ->; discriminate E).
      apply (IH x Hin gap (indent ++ gap)); auto using blank_app.
    + apply serialize_none in E. subst x. apply reads_null.
  - rewrite serialize_object_layout in Hs. injection Hs as <-.
    cbn [well_keyed] in Hkeyed. apply andb_prop in Hkeyed.
    destruct Hkeyed as [Hdistinct Hkeyed].
    rewrite forallb_forall in Hkeyed. rewrite Forall_forall in IH.
    apply reads_object; try assumption.
    apply Forall_flat_map, Forall_forall. intros kv Hin.
    unfold written_members.
    destruct (serialize gap (indent ++ gap) (snd kv)) as [e|] eqn:E;
      [|constructor].
    constructor; [|constructor]. cbn [w_text w_value].
    apply (IH kv Hin gap (indent ++ gap)); auto using blank_app.
Qed.

Lemma parse_serialize v gap s :
  blank gap = true -> well_keyed v = true ->
  serialize gap [] v = Some s -> parse s = Some (reparsed v).
Proof.
  intros Hgap Hkeyed Hs. unfold parse.
  pose proof (@reads_serialize v gap [] s Hgap eq_refl Hkeyed Hs
                (2 + List.length s) [] [] eq_refl) as H.
  rewrite app_nil_r in H. cbn [app] in H.
  rewrite H; [reflexivity | lia | reflexivity].
Qed.

(** Written again, what was read back gives the same text. *)
Lemma serialize_reparsed v :
  forall gap indent,
    serialize gap indent (reparsed v) = serialize gap indent v.
Proof.
  induction v as [| |b|n|t|items IH|props IH] using value_nested_ind;
    intros gap indent; try reflexivity.
  - cbn [reparsed]. rewrite !serialize_array_layout. do 2 f_equal.
    rewrite map_map. rewrite Forall_forall in IH.
    apply map_ext_in. intros x Hin.
    destruct (serialize gap (indent ++ gap) x) as [e|] eqn:E.
    + rewrite reparsed_item by (intros ->; discriminate E).
      unfold item_text. now rewrite IH.
    + apply serialize_none in E. now subst x.
  - cbn [reparsed]. rewrite !serialize_object_layout. do 2 f_equal.
    induction IH as [|kv props Hkv _ IHprops]; [reflexivity|].
    cbn [flat_map]. rewrite flat_map_app, IHprops. f_equal.
    destruct (serialize gap (indent ++ gap) (snd kv)) as [e|] eqn:E.
    + rewrite reparsed_member by (intros Hu; rewrite Hu in E; discriminate E).
      cbn [flat_map]. rewrite app_nil_r.
      unfold member_texts. cbn [fst snd]. now rewrite Hkv.
    + unfold member_texts. rewrite E.
      apply serialize_none in E. now rewrite E.
Qed.

(** A value that holds no [undefined] is read back as it is. *)
Lemma json_value_reparsed v : json_value v = true -> reparsed v = v.
Proof.
  induction v as [| |b|n|t|items IH|props IH] using value_nested_ind;
    intros H; try reflexivity.
  - cbn [reparsed json_value] in *. f_equal.
    rewrite forallb_forall in H. rewrite Forall_forall in IH.
    rewrite <- (map_id items) at 2. apply map_ext_in. intros x Hin.
    rewrite reparsed_item; [now apply IH, H|].
    intros ->. now specialize (H _ Hin).
  - cbn [reparsed json_value] in *. f_equal.
    induction IH as [|kv props Hkv _ IHprops]; [reflexivity|].
    cbn [flat_map forallb] in *. apply andb_prop in H. destruct H as [Hv H].
    rewrite IHprops by exact H.
    rewrite reparsed_member by (intros Hu; rewrite Hu in Hv; discriminate Hv).
    rewrite Hkv by exact Hv. now destruct kv.
Qed.

(** [JSON.parse(JSON.stringify(o, null, 2))] for an object [o]: it
    parses; written again the result gives the same text; and it is [o]
    itself when [o] holds no [undefined]. *)
Lemma parse_stringify_pretty data :
  well_keyed (VObj data) = true ->
  parse (stringify_pretty data) = Some (VObj (reparsed_props data))
  /\ stringify_pretty (reparsed_props data) = stringify_pretty data
  /\ (json_value (VObj data) = true -> reparsed_props data = data).
Proof.
  intros Hkeyed.
  assert (E : reparsed (VObj data) = VObj (reparsed_props data)) by reflexivity.
  split; [|split].
  - rewrite <- E. unfold stringify_pretty.
    rewrite serialize_object_layout.
    apply (@parse_serialize (VObj data) (str "  ")); try assumption;
      reflexivity.
  - unfold stringify_pretty. rewrite <- E. now rewrite serialize_reparsed.
  - intros Hjson. apply json_value_reparsed in Hjson. rewrite E in Hjson.
    now injection Hjson.
Qed.

(** The same for [JSON.stringify(o)]. *)
Lemma parse_stringify data :
  well_keyed (VObj data) = true ->
  parse (stringify data) = Some (VObj (reparsed_props data))
  /\ (json_value (VObj data) = true -> reparsed_props data = data).
Proof.
  intros Hkeyed.
  assert (E : reparsed (VObj data) = VObj (reparsed_props data)) by reflexivity.
  split.
  - rewrite <- E. unfold stringify. rewrite serialize_object_layout.
    apply (@parse_serialize (VObj data) []); try assumption; reflexivity.
  - intros Hjson. apply json_value_reparsed in Hjson. rewrite E in Hjson.
    now injection Hjson.
Qed.

End Roundtrip.

(* ===================================================================== *)
(** ** Properties of the extractor *)
(* ===================================================================== *)

Module Extractor.

(** Either the sentinel comes back, or what [JSON.parse] made of one of
    the texts tried. *)
Lemma safeParseJSON_cases JSON_parse raw :
  safeParseJSON JSON_parse raw = parse_error raw
  \/ exists c, In c (attempts raw)
               /\ JSON_parse c = Some (safeParseJSON JSON_parse raw).
Proof.
  unfold safeParseJSON, attempts.
  destruct (JSON_parse raw) eqn:E1.
  { right. exists raw. split; [now left | exact E1]. }
  destruct (JSON_parse (cleanup raw)) eqn:E2.
  { right. exists (cleanup raw). split; [right; now left | exact E2]. }
  destruct (balanced_candidate (cleanup raw)) as [c3|] eqn:C3; cbn [try_parse].
  - destruct (JSON_parse c3) eqn:E3.
    { right. exists c3. split; [right; right; now left | exact E3]. }
    destruct (fallback_candidate (cleanup raw)) as [c4|] eqn:C4;
      cbn [try_parse]; [|now left].
    destruct (JSON_parse c4) eqn:E4; [|now left].
    right. exists c4. split; [|exact E4].
    right. right. right. now left.
  - destruct (fallback_candidate (cleanup raw)) as [c4|] eqn:C4;
      cbn [try_parse]; [|now left].
    destruct (JSON_parse c4) eqn:E4; [|now left].
    right. exists c4. split; [|exact E4].
    right. right. now left.
Qed.

(** C3.  [safeParseJSON] is a total function of its input string, and
    when [JSON.parse] refuses every text the strategies hand to it, the
    result is the sentinel object: an [error] tag and the input string,
    unchanged, under [raw]. *)
Theorem safeParseJSON_failure_sentinel JSON_parse raw :
  (forall c, In c (attempts raw) -> JSON_parse c = None) ->
  safeParseJSON JSON_parse raw
  = VObj [(str "error", VStr (str "JSON Parse Error")); (str "raw", VStr raw)]
  /\ Value.prop (str "raw") (safeParseJSON JSON_parse raw) = VStr raw.
Proof.
  intros Hnone.
  assert (E : safeParseJSON JSON_parse raw = parse_error raw).
  { destruct (safeParseJSON_cases JSON_parse raw) as [E|(c & Hin & Hc)];
      [exact E|].
    rewrite (Hnone c Hin) in Hc. discriminate. }
  rewrite E. split; reflexivity.
Qed.

(** The spec's example input: nothing in it parses, the sentinel keeps
    it verbatim. *)
Lemma safeParseJSON_not_json_at_all :
  safeParseJSON JSON.parse (str "not json at all")
  = VObj [(str "error", VStr (str "JSON Parse Error"));
          (str "raw", VStr (str "not json at all"))]
  /\ Value.prop (str "raw") (safeParseJSON JSON.parse (str "not json at all"))
     = VStr (str "not json at all").
Proof.
  apply safeParseJSON_failure_sentinel.
  intros c Hin. vm_compute in Hin.
  destruct Hin as [<-|[<-|[]]]; vm_compute; reflexivity.
Defined.

(** C4, as stated, fails: prose whose braces are balanced still moves
    the first opening brace of the text in front of the object.  Here
    the walk extracts [{slot}], which does not parse, and the first-to-
    last-brace fallback does not parse either. *)
Lemma prose_with_balanced_braces_defeats_extraction :
  let o := [(str "a", VNum 1)] in
  let pre := str "Fill the {slot}: " in
  let post := str " (done)" in
  braces_balanced pre = true /\ braces_balanced post = true
  /\ JSON.parse (JSON.stringify o) = Some (VObj o)
  /\ safeParseJSON JSON.parse (pre ++ JSON.stringify o ++ post) <> VObj o
  /\ safeParseJSON JSON.parse (pre ++ JSON.stringify o ++ post)
     = parse_error (pre ++ JSON.stringify o ++ post).
Proof.
  cbv zeta. repeat split; try (vm_compute; reflexivity).
  vm_compute. discriminate.
Qed.

(** C4, amended.  When the prose in front of the object holds no opening
    brace, and the whole text is not itself JSON for something else
    (neither as given nor after fence stripping), the object comes back,
    whatever follows it and whatever braces its string values hold. *)
Theorem safeParseJSON_object_in_prose JSON_parse o pre post :
  JSON_parse (JSON.stringify o) = Some (VObj o) ->
  ~ In lbrace pre ->
  (forall s, In s [pre ++ JSON.stringify o ++ post;
                   cleanup (pre ++ JSON.stringify o ++ post)] ->
             JSON_parse s = None \/ JSON_parse s = Some (VObj o)) ->
  safeParseJSON JSON_parse (pre ++ JSON.stringify o ++ post) = VObj o.
Proof.
  intros Hround Hpre Hdirect.
  set (raw := pre ++ JSON.stringify o ++ post) in *.
  destruct (Walk.stringify_shape o) as (body & Eshape & _).
  assert (Hframed : framed body (cleanup raw)).
  { apply Framing.framed_cleanup. exists pre, post. split; [|exact Hpre].
    unfold raw. rewrite Eshape. cbn [app]. now rewrite <- app_assoc. }
  destruct Hframed as (p & q & Ecl & Hp).
  assert (Ecand : balanced_candidate (cleanup raw) = Some (JSON.stringify o)).
  { rewrite Ecl.
    replace (p ++ lbrace :: body ++ rbrace :: q)
      with (p ++ JSON.stringify o ++ q).
    - now apply Framing.balanced_candidate_framed.
    - rewrite Eshape. cbn [app]. now rewrite <- app_assoc. }
  unfold safeParseJSON.
  destruct (Hdirect raw (or_introl eq_refl)) as [-> | ->]; [|reflexivity].
  destruct (Hdirect (cleanup raw) (or_intror (or_introl eq_refl)))
    as [-> | ->]; [|reflexivity].
  rewrite Ecand. cbn [try_parse]. now rewrite Hround.
Qed.

(** An object whose string value holds braces both ways, fenced prose in
    front, unbalanced prose behind. *)
Lemma safeParseJSON_object_in_prose_witness :
  safeParseJSON JSON.parse
    (str "Sure } here: " ++ JSON.stringify [(str "a", VStr (str "}{{"))]
       ++ str " } trailing {")
  = VObj [(str "a", VStr (str "}{{"))].
Proof.
  apply safeParseJSON_object_in_prose.
  - vm_compute. reflexivity.
  - vm_compute. intuition discriminate.
  - intros s Hin. left.
    destruct Hin as [<-|[<-|[]]]; vm_compute; reflexivity.
Defined.

End Extractor.

(* ===================================================================== *)
(** ** Properties of the form-payload effect *)
(* ===================================================================== *)

Module FormProps.

Import FormAgentCard.

(** C5, as stated, fails: of two fields keyed [x] the first keeps its key
    and only the second is renamed. *)
Lemma duplicate_key_first_field_keeps_its_key :
  let text :=
    js "<form_payload>{'title':'T','fields':[{'key':'x','label':'A','type':'text'},{'key':'x','label':'B','type':'text'}]}</form_payload>" in
  parsed_keys (on_message JSON.parse (text_message text) empty_card)
  = Some [VStr (str "x"); VStr (str "x_1")]
  /\ parsed_keys (on_message JSON.parse (text_message text) empty_card)
     <> Some [VStr (str "x_0"); VStr (str "x_1")].
Proof.
  cbv zeta. split; [vm_compute; reflexivity|].
  vm_compute. discriminate.
Qed.

(** The renaming does not look at the keys it has itself handed out or
    is yet to meet: a later duplicate can be given a key that is taken. *)
Example synthesized_key_can_collide :
  option_map field_keys
    (unique_fields [] 0
       [VObj [(str "key", VStr (str "a"))];
        VObj [(str "key", VStr (str "a_2"))];
        VObj [(str "key", VStr (str "a"))]])
  = Some [VStr (str "a"); VStr (str "a_2"); VStr (str "a_2")].
Proof. vm_compute. reflexivity. Qed.

Lemma unique_fields_pair x p1 p2 :
  Value.lookup (str "key") p1 = Some (VStr x) ->
  Value.lookup (str "key") p2 = Some (VStr x) ->
  unique_fields [] 0 [VObj p1; VObj p2]
  = Some [VObj (Value.set (str "key") (VStr (first_key x)) p1);
          VObj (Value.set (str "key") (VStr (second_key x)) p2)].
Proof.
  intros H1 H2.
  cbn [unique_fields unique_field Value.prop spread]. rewrite H1, H2.
  destruct x as [|c x].
  - reflexivity.
  - cbn [Value.truthy negb orb set_has existsb app same_value_zero].
    rewrite Facts.eqb_refl. reflexivity.
Qed.

(** C5, amended.  Of two fields both keyed [x], the first keeps [x] and
    the second is keyed [x_1]; when [x] is empty they are keyed
    [field_0] and [field_1].  The two keys differ. *)
Theorem duplicate_keys_are_suffixed JSON_parse captured props p1 p2 x :
  JSON_parse (strip_fences captured) = Some (VObj props) ->
  Value.lookup (str "fields") props = Some (VArr [VObj p1; VObj p2]) ->
  Value.lookup (str "key") p1 = Some (VStr x) ->
  Value.lookup (str "key") p2 = Some (VStr x) ->
  exists p,
    parse_payload JSON_parse captured = Some p
    /\ field_keys (fields p) = [VStr (first_key x); VStr (second_key x)]
    /\ first_key x <> second_key x.
Proof.
  intros Hparse Hfields H1 H2.
  unfold parse_payload. rewrite Hparse.
  cbn [fields_of Value.prop]. rewrite Hfields. cbn [Value.truthy].
  rewrite (@unique_fields_pair x p1 p2 H1 H2).
  eexists. split; [reflexivity|]. split.
  - cbn [fields field_keys map]. now rewrite !Facts.prop_set_same.
  - destruct x as [|c x]; [discriminate|].
    cbn [first_key second_key]. now apply Facts.app_neq_self.
Qed.

Lemma duplicate_keys_are_suffixed_witness :
  exists p,
    parse_payload JSON.parse
      (js " {'title':'T','fields':[{'key':'x','type':'text'},{'type':'text','key':'x'}]} ")
    = Some p
    /\ field_keys (fields p) = [VStr (str "x"); VStr (str "x_1")]
    /\ str "x" <> str "x_1".
Proof.
  eapply (@duplicate_keys_are_suffixed JSON.parse _ _ _ _ (str "x"));
    vm_compute; reflexivity.
Defined.

(** *** Seeding of the default values *)

Lemma default_for_defined f : default_for f <> VUndefined.
Proof.
  unfold default_for.
  destruct (Value.is_string (str "checkboxes") (Value.prop (str "type") f));
    [|destruct (Value.is_string (str "range_slider")
                  (Value.prop (str "type") f))];
    apply Facts.or_else_defined; discriminate.
Qed.

Lemma seed_field_keeps k next updated f :
  is_undefined k next = false ->
  Value.lookup k (fst (seed_field (next, updated) f)) = Value.lookup k next.
Proof.
  intros Hk. cbn [seed_field].
  destruct (is_undefined (to_string (Value.prop (str "key") f)) next) eqn:E;
    [|reflexivity].
  cbn [fst]. apply Facts.lookup_set_other. intros Heq. subst k. congruence.
Qed.

Lemma seed_field_defines next updated f :
  is_undefined (key_of f) (fst (seed_field (next, updated) f)) = false.
Proof.
  cbn [seed_field]. fold (key_of f).
  destruct (is_undefined (key_of f) next) eqn:E; cbn [fst]; [|exact E].
  unfold is_undefined. rewrite Facts.lookup_set_same.
  pose proof (default_for_defined f).
  destruct (default_for f); congruence.
Qed.

Lemma seed_field_skips k next updated f :
  key_of f <> k ->
  Value.lookup k (fst (seed_field (next, updated) f)) = Value.lookup k next.
Proof.
  intros Hne. cbn [seed_field]. fold (key_of f).
  destruct (is_undefined (key_of f) next); [|reflexivity].
  cbn [fst]. now apply Facts.lookup_set_other.
Qed.

Lemma is_undefined_by_lookup k a b :
  Value.lookup k a = Value.lookup k b -> is_undefined k a = is_undefined k b.
Proof. unfold is_undefined. now intros ->. Qed.

Lemma fold_keeps k fields :
  forall next updated,
    is_undefined k next = false ->
    Value.lookup k (fst (fold_left seed_field fields (next, updated)))
    = Value.lookup k next.
Proof.
  induction fields as [|f fields IH]; intros next updated Hk; [reflexivity|].
  cbn [fold_left].
  pose proof (@seed_field_keeps k next updated f Hk) as Hstep.
  destruct (seed_field (next, updated) f) as [next' updated'].
  cbn [fst] in Hstep. rewrite IH; [exact Hstep|].
  now rewrite (is_undefined_by_lookup _ _ _ Hstep).
Qed.

Lemma fold_skips k fields :
  forall next updated,
    Forall (fun g => key_of g <> k) fields ->
    Value.lookup k (fst (fold_left seed_field fields (next, updated)))
    = Value.lookup k next.
Proof.
  induction fields as [|f fields IH]; intros next updated Hall; [reflexivity|].
  inversion Hall as [|? ? Hf Hrest]; subst. cbn [fold_left].
  pose proof (@seed_field_skips k next updated f Hf) as Hstep.
  destruct (seed_field (next, updated) f) as [next' updated'].
  cbn [fst] in Hstep. now rewrite IH.
Qed.

Lemma fold_defines fields :
  forall next updated,
    Forall (fun f => is_undefined (key_of f)
                       (fst (fold_left seed_field fields (next, updated)))
                     = false) fields.
Proof.
  induction fields as [|f fields IH]; intros next updated; [constructor|].
  cbn [fold_left].
  pose proof (seed_field_defines next updated f) as Hf.
  destruct (seed_field (next, updated) f) as [next' updated'].
  cbn [fst] in Hf. constructor; [|apply IH].
  now rewrite (is_undefined_by_lookup _ _ _ (@fold_keeps _ fields next' updated' Hf)).
Qed.

Lemma fold_idle fields :
  forall next updated,
    Forall (fun f => is_undefined (key_of f) next = false) fields ->
    fold_left seed_field fields (next, updated) = (next, updated).
Proof.
  induction fields as [|f fields IH]; intros next updated Hall; [reflexivity|].
  inversion Hall as [|? ? Hf Hrest]; subst.
  cbn [fold_left seed_field]. fold (key_of f). rewrite Hf. now apply IH.
Qed.

Lemma fold_sticky fields :
  forall next, snd (fold_left seed_field fields (next, true)) = true.
Proof.
  induction fields as [|f fields IH]; intros next; [reflexivity|].
  cbn [fold_left seed_field].
  destruct (is_undefined (to_string (Value.prop (str "key") f)) next); apply IH.
Qed.

Lemma fold_untouched fields :
  forall next,
    snd (fold_left seed_field fields (next, false)) = false ->
    fst (fold_left seed_field fields (next, false)) = next.
Proof.
  induction fields as [|f fields IH]; intros next H; [reflexivity|].
  cbn [fold_left seed_field] in *.
  destruct (is_undefined (to_string (Value.prop (str "key") f)) next).
  - rewrite fold_sticky in H. discriminate.
  - now apply IH.
Qed.

(** Whether [next] or [prev] is returned, the properties are the same. *)
Lemma seed_is_seed_next fields prev : seed fields prev = seed_next fields prev.
Proof.
  unfold seed, seed_next.
  destruct (fold_left seed_field fields (prev, false)) as [next updated] eqn:E.
  destruct updated; [reflexivity|].
  symmetry. change next with (fst (next, false)). rewrite <- E.
  apply fold_untouched. now rewrite E.
Qed.

(** C8, as stated, fails: a checkbox field with a [defaultValue] is seeded
    with it and not with the empty list, and a range slider with a
    [defaultValue] is seeded with it and not with its [min]. *)
Lemma default_value_takes_priority :
  let boxes := VObj [(str "key", VStr (str "c")); (str "type", VStr (str "checkboxes"));
                     (str "defaultValue", VArr [VStr (str "a")])] in
  let slider := VObj [(str "key", VStr (str "r")); (str "type", VStr (str "range_slider"));
                      (str "min", VNum 1); (str "defaultValue", VNum 7)] in
  seed [boxes; slider] []
  = [(str "c", VArr [VStr (str "a")]); (str "r", VNum 7)]
  /\ Value.lookup (str "c") (seed [boxes; slider] []) <> Some (VArr [])
  /\ Value.lookup (str "r") (seed [boxes; slider] []) <> Some (VNum 1).
Proof.
  cbv zeta. split; [vm_compute; reflexivity|].
  split; vm_compute; discriminate.
Qed.

(** A field keyed with a name that every object inherits reads as
    defined on any form state, and is never seeded. *)
Example inherited_name_is_not_seeded :
  seed [VObj [(str "key", VStr (str "constructor"));
              (str "type", VStr (str "text"))]] []
  = [].
Proof. vm_compute. reflexivity. Qed.

(** C8, amended.  The seeding leaves every key that reads as defined on
    the form state as it is; a key that reads as [undefined] there gets,
    from the first field that carries it, the field's [defaultValue]
    when that is truthy, and otherwise the empty list (checkboxes), the
    declared [min] or else 0 (range slider), or the empty string (any
    other type); and seeding the seeded state again changes nothing. *)
Theorem seeding_defaults_and_idempotence fields prev :
  (forall k, is_undefined k prev = false ->
             Value.lookup k (seed fields prev) = Value.lookup k prev)
  /\ (forall before f after,
         fields = before ++ f :: after ->
         Forall (fun g => key_of g <> key_of f) before ->
         is_undefined (key_of f) prev = true ->
         let defaultValue := Value.prop (str "defaultValue") f in
         let type := Value.prop (str "type") f in
         Value.lookup (key_of f) (seed fields prev)
         = Some (if Value.truthy defaultValue then defaultValue
                 else if Value.is_string (str "checkboxes") type then VArr []
                 else if Value.is_string (str "range_slider") type
                 then (if Value.truthy (Value.prop (str "min") f)
                       then Value.prop (str "min") f else VNum 0)
                 else VStr []))
  /\ seed fields (seed fields prev) = seed fields prev.
Proof.
  rewrite !seed_is_seed_next. repeat split.
  - intros k Hk. now apply fold_keeps.
  - intros before f after -> Hbefore Hundef. cbv zeta.
    unfold seed_next. rewrite fold_left_app. cbn [fold_left].
    pose proof (@fold_skips (key_of f) before prev false Hbefore) as Hskip.
    destruct (fold_left seed_field before (prev, false)) as [mid updated].
    cbn [fst] in Hskip.
    assert (Hmid : is_undefined (key_of f) mid = true).
    { now rewrite (is_undefined_by_lookup _ _ _ Hskip). }
    pose proof (seed_field_defines mid updated f) as Hdef.
    assert (Hset : Value.lookup (key_of f) (fst (seed_field (mid, updated) f))
                   = Some (default_for f)).
    { cbn [seed_field]. fold (key_of f). rewrite Hmid. cbn [fst].
      apply Facts.lookup_set_same. }
    destruct (seed_field (mid, updated) f) as [next' updated'].
    cbn [fst] in Hdef, Hset.
    rewrite fold_keeps by exact Hdef. rewrite Hset. f_equal.
    unfold default_for, Value.or_else.
    destruct (Value.truthy (Value.prop (str "defaultValue") f)) eqn:Edv;
      destruct (Value.is_string (str "checkboxes") (Value.prop (str "type") f));
      try reflexivity;
      destruct (Value.is_string (str "range_slider") (Value.prop (str "type") f));
      try reflexivity; cbv iota; rewrite ?Edv; reflexivity.
  - unfold seed_next at 1.
    rewrite fold_idle; [reflexivity|].
    unfold seed_next. apply fold_defines.
Qed.

End FormProps.

(* ===================================================================== *)
(** ** Reasoning about handlers *)
(* ===================================================================== *)

Section Runs.

Variable host : Host.

Local Open Scope client_scope.

Section Frame.

Variable R : World host -> World host -> Prop.
Hypothesis R_refl : forall w, R w w.
Hypothesis R_trans : forall a b c, R a b -> R b c -> R a c.

Lemma keeps_ret A (a : A) : keeps R (ret a).
Proof. intros w. apply R_refl. Qed.

Lemma keeps_throw A e : keeps R (@throw host A e).
Proof. intros w. apply R_refl. Qed.

Lemma keeps_lift A (r : Result A) : keeps R (lift r).
Proof. intros w. apply R_refl. Qed.

Lemma keeps_gets A (f : World host -> A) : keeps R (gets f).
Proof. intros w. apply R_refl. Qed.

Lemma keeps_bind A B (m : M host A) (k : A -> M host B) :
  keeps R m -> (forall a, keeps R (k a)) -> keeps R (bind m k).
Proof.
  intros Hm Hk w. unfold bind. specialize (Hm w).
  destruct (m w) as [[a|e] w1]; cbn [snd] in *; [|exact Hm].
  eapply R_trans; [exact Hm | apply Hk].
Qed.

Lemma keeps_try_catch A (m : M host A) (h : jstring -> M host A) :
  keeps R m -> (forall e, keeps R (h e)) -> keeps R (try_catch m h).
Proof.
  intros Hm Hh w. unfold try_catch. specialize (Hm w).
  destruct (m w) as [[a|e] w1]; cbn [snd] in *; [exact Hm|].
  eapply R_trans; [exact Hm | apply Hh].
Qed.

Lemma keeps_modify f : (forall w, R w (f w)) -> keeps R (modify f).
Proof. intros H w. apply H. Qed.

Lemma keeps_ask A (oracle : nat -> A) :
  (forall w, R w (tick w)) -> keeps R (ask oracle).
Proof. intros H w. apply H. Qed.

Lemma keeps_on_db op :
  (forall w d, R w (set_db d w)) -> keeps R (@on_db host op).
Proof.
  intros H w. unfold on_db. destruct (op (db w)); [apply H | apply R_refl].
Qed.

End Frame.

Lemma total_ret A (a : A) : total (@ret host A a).
Proof. intros w. now exists a. Qed.

Lemma total_bind A B (m : M host A) (k : A -> M host B) :
  total m -> (forall a, total (k a)) -> total (bind m k).
Proof.
  intros Hm Hk w. unfold bind. destruct (Hm w) as (a & Ha).
  destruct (m w) as [[a'|e] w1]; cbn [fst] in Ha; [|discriminate].
  apply Hk.
Qed.

Lemma total_try_catch A (m : M host A) (h : jstring -> M host A) :
  (forall e, total (h e)) -> total (try_catch m h).
Proof.
  intros Hh w. unfold try_catch.
  destruct (m w) as [[a|e] w1]; [now exists a | apply Hh].
Qed.

Lemma total_modify f : total (@modify host f).
Proof. intros w. now exists tt. Qed.

Lemma total_ask A (oracle : nat -> A) : total (@ask host A oracle).
Proof. intros w. now eexists. Qed.

(** A total computation, run: its value and the world it leaves. *)
Lemma total_run A (m : M host A) w :
  total m -> exists a w', m w = (Ok a, w').
Proof.
  intros H. destruct (H w) as (a & Ha).
  destruct (m w) as [r w']. cbn [fst] in Ha. subst r. now exists a, w'.
Qed.

Lemma bind_ok A B (m : M host A) (k : A -> M host B) w a w1 :
  m w = (Ok a, w1) -> bind m k w = k a w1.
Proof. intros H. unfold bind. now rewrite H. Qed.

Lemma bind_throw A B (m : M host A) (k : A -> M host B) w e w1 :
  m w = (Throw e, w1) -> bind m k w = (Throw e, w1).
Proof. intros H. unfold bind. now rewrite H. Qed.

Lemma try_catch_ok A (m : M host A) h w a w1 :
  m w = (Ok a, w1) -> try_catch m h w = (Ok a, w1).
Proof. intros H. unfold try_catch. now rewrite H. Qed.

(** *** What the tools leave alone *)

Lemma offstage_refl (w : World host) : offstage w w.
Proof. repeat split. Qed.

Lemma offstage_trans (a b c : World host) :
  offstage a b -> offstage b c -> offstage a c.
Proof.
  unfold offstage. intros (?&?&?&?&?&?) (?&?&?&?&?&?).
  repeat split; congruence.
Qed.

Lemma backstage_refl (w : World host) : backstage w w.
Proof. repeat split. Qed.

Lemma backstage_trans (a b c : World host) :
  backstage a b -> backstage b c -> backstage a c.
Proof.
  unfold backstage. intros (?&?&?&?&?) (?&?&?&?&?).
  repeat split; congruence.
Qed.

Lemma same_logs_refl (w : World host) : same_logs w w.
Proof. now split. Qed.

Lemma same_logs_trans (a b c : World host) :
  same_logs a b -> same_logs b c -> same_logs a c.
Proof. unfold same_logs. intros [? ?] [? ?]. split; congruence. Qed.

Lemma carries_refl P (w : World host) : carries P w w.
Proof. exists []. now rewrite app_nil_r. Qed.

Lemma carries_trans P (a b c : World host) :
  carries P a b -> carries P b c -> carries P a c.
Proof.
  intros (n1 & E1 & F1) (n2 & E2 & F2). exists (n1 ++ n2).
  rewrite E2, E1, <- app_assoc. split; [reflexivity | now apply Forall_app].
Qed.

Lemma carries_same P (w w' : World host) :
  requests w' = requests w -> carries P w w'.
Proof. intros E. exists []. now rewrite app_nil_r. Qed.

End Runs.

(** Walk through a handler, one bind at a time. *)
Ltac frame_step R_refl R_trans :=
  first
    [ solve [apply keeps_ret; exact R_refl]
    | solve [apply keeps_throw; exact R_refl]
    | solve [apply keeps_lift; exact R_refl]
    | solve [apply keeps_gets; exact R_refl]
    | apply keeps_bind; [exact R_trans| |intros ?]
    | apply keeps_try_catch; [exact R_trans| |intros ?]
    | solve [apply keeps_modify; intros ?; repeat split]
    | solve [apply keeps_ask; intros ?; repeat split]
    | solve [apply keeps_on_db; [exact R_refl | intros ? ?; repeat split]] ].

Ltac frame R_refl R_trans :=
  repeat (frame_step R_refl R_trans
          || match goal with
             | |- keeps _ (match ?x with _ => _ end) => destruct x
             | |- keeps _ (if ?x then _ else _) => destruct x
             end).

(* ===================================================================== *)
(** ** The tool dispatch *)
(* ===================================================================== *)

Section ToolProps.

Variable host : Host.
Variable cl : Closure.

Local Open Scope client_scope.

Ltac offstage_frame := frame (@offstage_refl host) (@offstage_trans host).

Lemma read_offstage o k : keeps (@offstage host) (read o k).
Proof. unfold read. offstage_frame. Qed.

Lemma handleAddTodo_offstage text parent :
  keeps (@offstage host) (handleAddTodo text parent).
Proof. unfold handleAddTodo, DateNow, setTodos. offstage_frame. Qed.

Lemma handleToggleTodo_offstage id :
  keeps (@offstage host) (handleToggleTodo cl id).
Proof. unfold handleToggleTodo, setTodos. offstage_frame. Qed.

Lemma handleDeleteTodo_offstage id :
  keeps (@offstage host) (handleDeleteTodo id).
Proof. unfold handleDeleteTodo, setTodos. offstage_frame. Qed.

Lemma run_tool_offstage call : keeps (@offstage host) (run_tool cl call).
Proof.
  unfold run_tool.
  repeat match goal with
         | |- keeps _ (if ?x then _ else _) => destruct x
         end.
  - apply keeps_bind; [apply offstage_trans| |]; [apply read_offstage|intros ?].
    apply keeps_bind; [apply offstage_trans| |]; [apply read_offstage|intros ?].
    apply keeps_bind; [apply offstage_trans| |];
      [apply handleAddTodo_offstage|intros ?].
    offstage_frame.
  - apply keeps_bind; [apply offstage_trans| |]; [apply read_offstage|intros ?].
    apply keeps_bind; [apply offstage_trans| |];
      [apply handleToggleTodo_offstage|intros ?].
    offstage_frame.
  - apply keeps_bind; [apply offstage_trans| |]; [apply read_offstage|intros ?].
    apply keeps_bind; [apply offstage_trans| |];
      [apply handleDeleteTodo_offstage|intros ?].
    offstage_frame.
  - apply keeps_bind; [apply offstage_trans| |]; [|intros ?; offstage_frame].
    intros w. apply offstage_refl.
  - offstage_frame.
Qed.

(** [dispatch] never throws: it answers the call with what the handler
    returned, or with the message of what it threw. *)
Lemma dispatch_run call (w : World host) :
  exists result,
    dispatch cl call w = (Ok (answer call result), snd (run_tool cl call w))
    /\ match fst (run_tool cl call w) with
       | Ok v => result = v
       | Throw message => result = error_result message
       end.
Proof.
  unfold dispatch, bind, try_catch.
  destruct (run_tool cl call w) as [[v|e] w1]; cbn [fst snd].
  - now exists v.
  - now exists (error_result e).
Qed.

Lemma dispatch_offstage call : keeps (@offstage host) (dispatch cl call).
Proof.
  intros w. destruct (dispatch_run call w) as (result & E & _).
  rewrite E. cbn [snd]. apply run_tool_offstage.
Qed.

Lemma dispatch_all_offstage calls : keeps (@offstage host) (dispatch_all cl calls).
Proof.
  induction calls as [|call calls IH]; cbn [dispatch_all].
  - offstage_frame.
  - apply keeps_bind; [apply offstage_trans| |]; [apply dispatch_offstage|intros ?].
    apply keeps_bind; [apply offstage_trans| |]; [apply IH|intros ?].
    offstage_frame.
Qed.

Lemma dispatch_all_run calls :
  forall w : World host, exists parts w',
    dispatch_all cl calls w = (Ok parts, w') /\ answers calls parts.
Proof.
  induction calls as [|call calls IH]; intros w; cbn [dispatch_all].
  - exists [], w. split; [reflexivity | constructor].
  - unfold bind at 1. destruct (dispatch_run call w) as (result & E & _).
    rewrite E. unfold bind at 1.
    destruct (IH (snd (run_tool cl call w))) as (parts & w' & E' & Hparts).
    rewrite E'. exists (answer call result :: parts), w'.
    split; [reflexivity | now constructor].
Qed.

Lemma answers_names calls parts :
  answers calls parts ->
  parts = map (fun p => match p with
                        | (call, PFunctionResponse fr) =>
                            answer call (fr_response fr)
                        | (_, p) => p
                        end) (combine calls parts)
  /\ List.length parts = List.length calls.
Proof.
  induction 1 as [|call result calls parts _ [IH1 IH2]]; [now split|].
  cbn [combine map List.length]. split; [|now rewrite IH2].
  now rewrite <- IH1.
Qed.

End ToolProps.

(* ===================================================================== *)
(** ** One round of tool calls *)
(* ===================================================================== *)

Section RoundProps.

Variable host : Host.
Variable cl : Closure.

Local Open Scope client_scope.

Lemma dispatch_all_dispatched calls :
  forall w : World host, exists parts w',
    dispatch_all cl calls w = (Ok parts, w') /\ dispatched cl w calls parts w'.
Proof.
  induction calls as [|call calls IH]; intros w; cbn [dispatch_all].
  - exists [], w. split; [reflexivity | constructor].
  - unfold bind at 1. destruct (dispatch_run cl call w) as (result & E & Hres).
    rewrite E. unfold bind at 1.
    destruct (IH (snd (run_tool cl call w))) as (parts & w' & E' & Hparts).
    rewrite E'. exists (answer call result :: parts), w'.
    split; [reflexivity|].
    destruct (run_tool cl call w) as [[v|e] w1] eqn:Erun; cbn [fst snd] in *;
      subst result; econstructor; eassumption.
Qed.

Lemma dispatched_answers (w : World host) calls parts (w' : World host) :
  dispatched cl w calls parts w' -> answers calls parts.
Proof. induction 1; now constructor. Qed.

Lemma dispatched_offstage (w : World host) calls parts (w' : World host) :
  dispatched cl w calls parts w' -> offstage w w'.
Proof.
  induction 1 as [w|w call v w1 calls parts w' Hrun _ IH
                  |w call e w1 calls parts w' Hrun _ IH].
  - apply offstage_refl.
  - eapply offstage_trans; [|exact IH].
    pose proof (run_tool_offstage cl call w) as H. now rewrite Hrun in H.
  - eapply offstage_trans; [|exact IH].
    pose proof (run_tool_offstage cl call w) as H. now rewrite Hrun in H.
Qed.

Lemma with_round_twice targetChatId ai tool (l : list Chat) :
  map (fun c => if JsString.eqb (chat_id c) targetChatId
                then mkChat (chat_id c) (title c) (messages c ++ [tool])
                       (updatedAt c) (gemId c)
                else c)
    (map (fun c => if JsString.eqb (chat_id c) targetChatId
                   then mkChat (chat_id c) (title c) (messages c ++ [ai])
                          (updatedAt c) (gemId c)
                   else c) l)
  = map (with_round targetChatId ai tool) l.
Proof.
  rewrite map_map. apply map_ext. intros c. unfold with_round.
  destruct (JsString.eqb (chat_id c) targetChatId) eqn:E; cbn [chat_id];
    rewrite E; [|reflexivity].
  cbn [title messages updatedAt gemId]. now rewrite <- app_assoc.
Qed.

(** What a round does, in full. *)
Lemma tool_round_run targetChatId response calls history (w : World host) :
  exists ai tool w' (wd wd' : World host),
    tool_round cl targetChatId response calls history w
    = (Ok (history ++ [ai; tool]), w')
    /\ role ai = model
    /\ parts ai = lead_text response ++ map PFunctionCall calls
    /\ role tool = user
    /\ dispatched cl wd calls (parts tool) wd'
    /\ chats w' = map (with_round targetChatId ai tool) (chats w)
    /\ requests w' = requests w
    /\ replies w' = replies w.
Proof.
  unfold tool_round.
  lazy beta iota zeta delta [bind DateNow ask append_message setChats modify ret].
  match goal with
  | |- context [dispatch_all cl calls ?w3] =>
      destruct (dispatch_all_dispatched calls w3) as (ps & w4 & E & Hd);
      rewrite E;
      pose proof (dispatched_offstage Hd) as (Hchats & Hreq & Hrep & _)
  end.
  cbn [chats requests replies tick] in Hchats, Hreq, Hrep.
  do 5 eexists. split; [reflexivity|].
  cbn [role parts chats requests replies tick].
  split; [reflexivity|].
  split; [unfold lead_text; destruct (text response); reflexivity|].
  split; [reflexivity|]. split; [exact Hd|].
  rewrite Hchats, Hreq, Hrep. split; [apply with_round_twice|]. now split.
Qed.

End RoundProps.

(* ===================================================================== *)
(** ** The chat request: what it does to the world *)
(* ===================================================================== *)

Section ServiceProps.

Variable host : Host.

Local Open Scope client_scope.

Ltac backstage_frame := frame (@backstage_refl host) (@backstage_trans host).

Lemma requests_issued request (w : World host) :
  requests (issued request w) = requests w ++ [request].
Proof. reflexivity. Qed.

Lemma gemini_request_eq retries modelName history userInput
      systemInstruction configOptions attachments apiSettings :
  gemini_request retries modelName history userInput systemInstruction
    configOptions attachments apiSettings
  = let request :=
      mkRequest gemini modelName history userInput systemInstruction
        configOptions attachments apiSettings in
    try_catch
      (log_request request ;;;
       r <- ask (fun n => generateContent host n request) ;;
       response <- lift r ;;
       ret (decode_gemini response))
      (fun message =>
         let pm := parsedMessage host message in
         match is_known_defect pm modelName return M host ChatResponse with
         | Throw e => throw e
         | Ok true =>
             match retries with
             | S retries' =>
                 gemini_request retries' fallback_model history userInput
                   systemInstruction configOptions attachments apiSettings
             | 0 => rethrow_normalized pm
             end
         | Ok false => rethrow_normalized pm
         end).
Proof. destruct retries; reflexivity. Qed.

(** One attempt, as the world sees it. *)
Lemma gemini_attempt request (w : World host) :
  (log_request request ;;;
   r <- ask (fun n => generateContent host n request) ;;
   response <- lift r ;;
   ret (decode_gemini response)) w
  = (match generateContent host (ticks w) request with
     | Ok response => Ok (decode_gemini response)
     | Throw message => Throw message
     end, issued request w).
Proof.
  unfold bind, log_request, modify, ask, lift, ret, issued. cbn [snd ticks].
  now destruct (generateContent host (ticks w) request).
Qed.

Lemma rethrow_normalized_backstage pm :
  keeps (@backstage host) (rethrow_normalized pm).
Proof. unfold rethrow_normalized. backstage_frame. Qed.

Lemma gemini_request_backstage retries :
  forall modelName history userInput systemInstruction configOptions
         attachments apiSettings,
    keeps (@backstage host)
      (gemini_request retries modelName history userInput systemInstruction
         configOptions attachments apiSettings).
Proof.
  induction retries as [|retries IH]; intros; rewrite gemini_request_eq;
    cbv zeta; unfold log_request.
  - backstage_frame; apply rethrow_normalized_backstage.
  - backstage_frame; try apply rethrow_normalized_backstage. apply IH.
Qed.

Lemma generateChatResponse_backstage modelName history userInput
      systemInstruction configOptions attachments apiSettings :
  keeps (@backstage host)
    (generateChatResponse modelName history userInput systemInstruction
       configOptions attachments apiSettings).
Proof.
  unfold generateChatResponse.
  destruct apiSettings as [[[|] settings]|];
    try apply gemini_request_backstage.
  unfold openai_request, log_request. cbv zeta. cbn [openai_settings].
  destruct (baseUrl settings), (apiKey settings), (openai_model settings);
    backstage_frame.
Qed.

Ltac carries_frame :=
  repeat (first
            [ solve [apply keeps_ret; apply carries_refl]
            | solve [apply keeps_throw; apply carries_refl]
            | solve [apply keeps_lift; apply carries_refl]
            | apply keeps_bind; [apply carries_trans| |intros ?]
            | apply keeps_try_catch; [apply carries_trans| |intros ?]
            | solve [apply keeps_ask; intros ?; now apply carries_same]
            | solve [apply keeps_modify; intros ?; now apply carries_same] ]
          || match goal with
             | |- keeps _ (match ?x with _ => _ end) => destruct x
             | |- keeps _ (if ?x then _ else _) => destruct x
             end).

Lemma log_request_carries (P : Request -> Prop) request :
  P request -> keeps (carries (host := host) P) (log_request request).
Proof.
  intros H w. exists [request]. split; [reflexivity | now constructor].
Qed.

Lemma rethrow_normalized_carries P pm :
  keeps (carries (host := host) P) (rethrow_normalized pm).
Proof. unfold rethrow_normalized. carries_frame. Qed.

(** Every request of a call sends the history the call was given. *)
Lemma gemini_request_carries retries :
  forall modelName history userInput systemInstruction configOptions
         attachments apiSettings,
    keeps (carries (host := host) (fun r => req_history r = history))
      (gemini_request retries modelName history userInput systemInstruction
         configOptions attachments apiSettings).
Proof.
  induction retries as [|retries IH]; intros; rewrite gemini_request_eq;
    cbv zeta.
  - apply keeps_try_catch; [apply carries_trans| |intros ?].
    + apply keeps_bind; [apply carries_trans| |intros ?];
        [now apply log_request_carries | carries_frame].
    + carries_frame; apply rethrow_normalized_carries.
  - apply keeps_try_catch; [apply carries_trans| |intros ?].
    + apply keeps_bind; [apply carries_trans| |intros ?];
        [now apply log_request_carries | carries_frame].
    + carries_frame; try apply rethrow_normalized_carries. apply IH.
Qed.

Lemma generateChatResponse_carries modelName history userInput
      systemInstruction configOptions attachments apiSettings :
  keeps (carries (host := host) (fun r => req_history r = history))
    (generateChatResponse modelName history userInput systemInstruction
       configOptions attachments apiSettings).
Proof.
  unfold generateChatResponse.
  destruct apiSettings as [[[|] settings]|];
    try apply gemini_request_carries.
  unfold openai_request. cbv zeta. cbn [openai_settings].
  destruct (baseUrl settings), (apiKey settings), (openai_model settings);
    try (apply keeps_throw; apply carries_refl).
  apply keeps_try_catch; [apply carries_trans| |intros ?; carries_frame].
  apply keeps_bind; [apply carries_trans| |intros ?];
    [now apply log_request_carries | carries_frame].
Qed.

Lemma is_known_defect_fallback pm :
  is_known_defect pm fallback_model <> Ok true.
Proof.
  unfold is_known_defect. rewrite Facts.eqb_refl. cbn [negb].
  destruct (message_includes thought_signature_defect pm) as [[|]|];
    try discriminate.
  destruct (message_includes dependency_defect pm) as [b|]; [|discriminate].
  rewrite andb_false_r. discriminate.
Qed.

(** The fallback model is never retried: what is left of [retries] does
    not matter to a request that names it. *)
Lemma gemini_request_fallback_once retries history userInput
      systemInstruction configOptions attachments apiSettings
      (w : World host) :
  gemini_request retries fallback_model history userInput systemInstruction
    configOptions attachments apiSettings w
  = gemini_request 0 fallback_model history userInput systemInstruction
      configOptions attachments apiSettings w.
Proof.
  rewrite (gemini_request_eq retries), (gemini_request_eq 0).
  cbv zeta. unfold try_catch. rewrite gemini_attempt.
  destruct (generateContent host (ticks w) _) as [response|message];
    [reflexivity|].
  pose proof (is_known_defect_fallback (parsedMessage host message)) as H.
  destruct (is_known_defect (parsedMessage host message) fallback_model)
    as [[|]|]; congruence.
Qed.

(** One retry is all the recursion there is. *)
Lemma gemini_request_one_retry retries modelName history userInput
      systemInstruction configOptions attachments apiSettings
      (w : World host) :
  gemini_request (S retries) modelName history userInput systemInstruction
    configOptions attachments apiSettings w
  = gemini_request 1 modelName history userInput systemInstruction
      configOptions attachments apiSettings w.
Proof.
  rewrite (gemini_request_eq (S retries)), (gemini_request_eq 1).
  cbv zeta. unfold try_catch. rewrite gemini_attempt.
  destruct (generateContent host (ticks w) _) as [response|message];
    [reflexivity|].
  destruct (is_known_defect (parsedMessage host message) modelName)
    as [[|]|]; try reflexivity.
  apply gemini_request_fallback_once.
Qed.

End ServiceProps.

(* ===================================================================== *)
(** ** The provider fallback *)
(* ===================================================================== *)

Module Fallback.

Import Scenario.





End Fallback.

(* ===================================================================== *)
(** ** The tool loop *)
(* ===================================================================== *)

Section LoopProps.

Variable host : Host.
Variable cl : Closure.

Local Open Scope client_scope.

Ltac logs_frame := frame (@same_logs_refl host) (@same_logs_trans host).

Lemma build_config_run (w : World host) :
  exists config w1, build_config cl w = (Ok config, w1) /\ offstage w w1.
Proof.
  unfold build_config.
  destruct (feature_is cl "maps");
    [destruct (match activeFeature cl with
               | Some f => match feature_config f with
                           | Some c => location c
                           | None => None
                           end
               | None => None
               end)|];
    do 2 eexists; (split; [reflexivity|]); repeat split.
Qed.

Lemma chunk_uris_logs chunks :
  keeps (@same_logs host) (@chunk_uris host chunks).
Proof.
  induction chunks as [|chunk chunks IH]; cbn [chunk_uris].
  - logs_frame.
  - unfold chunk_uri, read.
    apply keeps_bind; [apply same_logs_trans| |intros ?].
    + logs_frame.
    + apply keeps_bind; [apply same_logs_trans|exact IH|intros ?].
      logs_frame.
Qed.

Lemma final_round_logs startTime targetChatId response history :
  keeps (@same_logs host)
    (final_round cl startTime targetChatId response history).
Proof.
  unfold final_round, DateNow, append_message, setChats, playAudio, auto_title,
    startTitleJob.
  do 3 (apply keeps_bind; [apply same_logs_trans| |intros ?];
        [logs_frame|]).
  apply keeps_bind; [apply same_logs_trans|apply chunk_uris_logs|intros ?].
  logs_frame.
Qed.

(** One pass through the body of the loop, whatever the host does: the
    reply is recorded, the count goes up by one, and [finished] is set
    exactly when the reply asks for no tool call. *)
Lemma loop_body_reply startTime targetChatId instruction st (w : World host)
      st' w' :
  loop_body cl startTime targetChatId instruction st w = (Ok st', w') ->
  exists response,
    replies w' = replies w ++ [response]
    /\ loopCount st' = S (loopCount st)
    /\ finished st' = (if has_calls response then finished st else true).
Proof.
  unfold loop_body. unfold bind at 1.
  destruct (build_config_run w) as (config & w1 & -> & Hoff).
  destruct Hoff as (_ & _ & Hrep1 & _).
  unfold bind at 1.
  match goal with
  | |- context [generateChatResponse ?a ?b ?c ?d ?e ?f ?g w1] =>
      pose proof (generateChatResponse_backstage a b c d e f g w1) as Hback;
      destruct (generateChatResponse a b c d e f g w1) as [[response|e0] w2]
  end; [|discriminate].
  destruct Hback as (_ & _ & _ & Hrep2 & _). cbn [snd] in Hrep2.
  unfold bind at 1. unfold log_reply at 1, modify at 1.
  set (w3 := mkWorld host _ _ _ _ _ _ _ _ _ _ _ _).
  assert (Hrep3 : replies w3 = replies w ++ [response]).
  { unfold w3. cbn [replies]. now rewrite Hrep2, Hrep1. }
  clearbody w3.
  destruct (functionCalls response) as [[|call calls]|] eqn:Efc.
  - unfold bind.
    pose proof (final_round_logs startTime targetChatId response
                  (currentHistory st) w3) as [_ Hfin].
    destruct (final_round cl startTime targetChatId response
                (currentHistory st) w3) as [[history|e1] w4];
      [|discriminate].
    intros [= <- <-]. exists response. cbn [snd] in Hfin.
    rewrite Hfin, Hrep3.
    unfold has_calls. rewrite Efc. now repeat split.
  - unfold bind.
    destruct (tool_round_run cl targetChatId response (call :: calls)
                (currentHistory st) w3)
      as (ai & tool & w4 & _ & _ & -> & _ & _ & _ & _ & _ & _ & Hrep4).
    intros [= <- <-]. exists response. rewrite Hrep4, Hrep3.
    unfold has_calls. rewrite Efc. now repeat split.
  - unfold bind.
    pose proof (final_round_logs startTime targetChatId response
                  (currentHistory st) w3) as [_ Hfin].
    destruct (final_round cl startTime targetChatId response
                (currentHistory st) w3) as [[history|e1] w4];
      [|discriminate].
    intros [= <- <-]. exists response. cbn [snd] in Hfin.
    rewrite Hfin, Hrep3.
    unfold has_calls. rewrite Efc. now repeat split.
Qed.


Lemma tool_round_carries P targetChatId response calls history :
  keeps (carries (host := host) P)
    (tool_round cl targetChatId response calls history).
Proof.
  intros w.
  destruct (tool_round_run cl targetChatId response calls history w)
    as (ai & tool & w' & _ & _ & -> & _ & _ & _ & _ & _ & Hreq & _).
  now apply carries_same.
Qed.

Lemma final_round_carries P startTime targetChatId response history :
  keeps (carries (host := host) P)
    (final_round cl startTime targetChatId response history).
Proof.
  intros w. apply carries_same.
  apply (final_round_logs startTime targetChatId response history w).
Qed.

(** Every request of a pass sends the transcript the pass started with. *)
Lemma loop_body_carries startTime targetChatId instruction st :
  keeps (carries (host := host) (fun r => req_history r = currentHistory st))
    (loop_body cl startTime targetChatId instruction st).
Proof.
  unfold loop_body.
  apply keeps_bind; [apply carries_trans| |intros config].
  { intros w. destruct (build_config_run w) as (c & w1 & -> & Hoff).
    apply carries_same. apply Hoff. }
  apply keeps_bind; [apply carries_trans| |intros response].
  { apply generateChatResponse_carries. }
  apply keeps_bind; [apply carries_trans| |intros _].
  { intros w. now apply carries_same. }
  destruct (functionCalls response) as [[|call calls]|];
    (apply keeps_bind; [apply carries_trans| |intros ?];
     [first [apply tool_round_carries | apply final_round_carries]
     |apply keeps_ret; apply carries_refl]).
Qed.

(** How the loop can end when nothing is thrown: on a reply without tool
    calls, or after all the rounds it was given, each of which brought a
    reply with tool calls. *)
Lemma tool_loop_ends remaining startTime targetChatId instruction :
  forall st (w : World host) st' w',
    tool_loop cl remaining startTime targetChatId instruction st w
    = (Ok st', w') ->
    finished st = false ->
    exists rs,
      replies w' = replies w ++ rs
      /\ loopCount st' = loopCount st + List.length rs
      /\ ((finished st' = false /\ List.length rs = remaining
           /\ forallb has_calls rs = true)
          \/ (finished st' = true /\ List.length rs <= remaining
              /\ exists init final,
                   rs = init ++ [final]
                   /\ forallb has_calls init = true
                   /\ has_calls final = false)).
Proof.
  induction remaining as [|remaining IH]; intros st w st' w' Hrun Hst;
    cbn [tool_loop] in Hrun.
  - injection Hrun as <- <-. exists []. rewrite app_nil_r, Nat.add_0_r.
    repeat split. left. now repeat split.
  - rewrite Hst in Hrun. unfold bind in Hrun.
    destruct (loop_body cl startTime targetChatId instruction st w)
      as [[st1|e] w1] eqn:Ebody; [|discriminate].
    destruct (loop_body_reply _ _ _ _ _ Ebody) as (r & Hr & Hcount & Hfin).
    rewrite Hst in Hfin.
    destruct (has_calls r) eqn:Ecalls.
    + destruct (IH _ _ _ _ Hrun Hfin) as (rs & Hrs & Hcount' & Hend).
      exists (r :: rs). rewrite Hrs, Hr, <- app_assoc. split; [reflexivity|].
      cbn [List.length]. split; [lia|].
      destruct Hend as [(F & L & A)|(F & L & init & final & -> & A & B)].
      * left. repeat split; [exact F | lia |]. cbn [forallb]. now rewrite Ecalls.
      * right. split; [exact F|]. split; [lia|].
        exists (r :: init), final. repeat split; [|exact B].
        cbn [forallb]. now rewrite Ecalls.
    + destruct remaining as [|remaining']; cbn [tool_loop] in Hrun;
        [|rewrite Hfin in Hrun]; injection Hrun as <- <-;
        exists [r]; (split; [exact Hr|]); cbn [List.length];
        (split; [lia|]); right; (split; [exact Hfin|]); (split; [lia|]);
        exists [], r; now repeat split.
Qed.

(** *** Against a model that always asks for a tool *)

Hypothesis model_always_calls : always_calls host cl.

Lemma generateChatResponse_calls modelName history instruction config
      (w : World host) :
  exists response request,
    generateChatResponse modelName history [] instruction config []
      (Some (apiSettings cl)) w
    = (Ok response, issued request w)
    /\ has_calls response = true
    /\ req_history request = history.
Proof.
  pose proof model_always_calls as H. unfold always_calls in H.
  unfold generateChatResponse.
  destruct (apiSettings cl) as [[|] settings]; cbn [provider openai_settings] in H.
  - rewrite gemini_request_eq. cbv zeta. unfold try_catch.
    rewrite gemini_attempt.
    match goal with
    | |- context [generateContent host (ticks w) ?r] =>
        destruct (H (ticks w) r) as (response & -> & Hcalls);
        exists (decode_gemini response), r
    end.
    now repeat split.
  - destruct H as (Hurl & Hkey & Hmodel & H).
    unfold openai_request. cbv zeta. cbn [openai_settings].
    destruct (baseUrl settings) as [|? ?]; [congruence|].
    destruct (apiKey settings) as [|? ?]; [congruence|].
    destruct (openai_model settings) as [|m0 m1] eqn:Emodel; [congruence|].
    unfold try_catch, bind, log_request, modify, ask, lift.
    cbn [fst snd ticks].
    match goal with
    | |- context [fetchCompletion host (ticks w) ?r] =>
        destruct (H (ticks w) r) as (message & tc & tcs & -> & Etc);
        exists (mkChatResponse (or_empty (content message)) [] None
                  (Some (map (completion_call host) (tc :: tcs)))), r
    end.
    cbn [decode_completion]. rewrite Etc. now repeat split.
Qed.

(** One pass through the body of the loop. *)
Lemma loop_body_calls startTime targetChatId instruction st (w : World host) :
  exists ai tool request response w',
    loop_body cl startTime targetChatId instruction st w
    = (Ok (mkLoopState (finished st) (S (loopCount st))
             (currentHistory st ++ [ai; tool])), w')
    /\ requests w' = requests w ++ [request]
    /\ req_history request = currentHistory st
    /\ replies w' = replies w ++ [response]
    /\ has_calls response = true
    /\ chats w' = map (with_round targetChatId ai tool) (chats w).
Proof.
  unfold loop_body.
  destruct (build_config_run w) as (config & w1 & Econfig & Hoff).
  destruct Hoff as (Hchats1 & Hreq1 & Hrep1 & _).
  erewrite bind_ok by exact Econfig.
  destruct (generateChatResponse_calls (selectedModel cl) (currentHistory st)
              (Some instruction) config w1)
    as (response & request & Egen & Hcalls & Hhist).
  erewrite bind_ok by exact Egen.
  unfold bind at 1. unfold log_reply at 1, modify at 1.
  set (w3 := mkWorld host _ _ _ _ _ _ _ _ _ _ _ _).
  unfold has_calls in Hcalls.
  destruct (functionCalls response) as [[|call calls]|] eqn:Efc;
    try discriminate.
  destruct (tool_round_run cl targetChatId response (call :: calls)
              (currentHistory st) w3)
    as (ai & tool & w4 & _ & _ & Eround & _ & _ & _ & _ & Hchats4 & Hreq4
        & Hrep4).
  erewrite bind_ok by exact Eround.
  exists ai, tool, request, response, w4.
  split; [reflexivity|].
  rewrite Hreq4, Hrep4, Hchats4. unfold w3. cbn [requests replies chats].
  change (replies (issued request w1)) with (replies w1).
  change (chats (issued request w1)) with (chats w1).
  rewrite requests_issued, Hreq1, Hrep1, Hchats1.
  unfold has_calls. rewrite Efc. now repeat split.
Qed.

(** The loop runs the rounds it is given, and no more. *)
Lemma tool_loop_calls remaining startTime targetChatId instruction :
  forall st (w : World host),
    finished st = false ->
    exists st' w' requested,
      tool_loop cl remaining startTime targetChatId instruction st w
      = (Ok st', w')
      /\ finished st' = false
      /\ loopCount st' = loopCount st + remaining
      /\ requests w' = requests w ++ requested
      /\ List.length requested = remaining
      /\ List.length (currentHistory st')
         = List.length (currentHistory st) + 2 * remaining.
Proof.
  induction remaining as [|remaining IH]; intros st w Hst; cbn [tool_loop].
  - exists st, w, []. rewrite app_nil_r, !Nat.add_0_r. now repeat split.
  - rewrite Hst.
    destruct (loop_body_calls startTime targetChatId instruction st w)
      as (ai & tool & request & response & w1 & Ebody & Hreq & _ & _ & _ & _).
    erewrite bind_ok by exact Ebody.
    destruct (IH (mkLoopState (finished st) (S (loopCount st))
                    (currentHistory st ++ [ai; tool])) w1 Hst)
      as (st' & w' & requested & Erun & Hfin & Hcount & Hreq' & Hlen & Hhist).
    exists st', w', (request :: requested).
    split; [exact Erun|]. split; [exact Hfin|].
    cbn [loopCount currentHistory] in Hcount, Hhist.
    rewrite length_app in Hhist. cbn [List.length] in Hhist |- *.
    rewrite Hreq', Hreq, <- app_assoc.
    repeat split; lia.
Qed.

End LoopProps.

(* ===================================================================== *)
(** ** A whole turn *)
(* ===================================================================== *)

Ltac total_step :=
  first
    [ apply total_ret
    | apply total_modify
    | apply total_ask
    | apply total_bind; [|intros ?]
    | apply total_try_catch; intros ? ].

Ltac total_auto :=
  repeat (total_step
          || match goal with
             | |- total (match ?x with _ => _ end) => destruct x
             | |- total (if ?x then _ else _) => destruct x
             end).

Section TurnProps.

Variable host : Host.
Variable cl : Closure.

Local Open Scope client_scope.

Ltac logs_frame := frame (@same_logs_refl host) (@same_logs_trans host).

Lemma attachment_parts_total atts : total (@attachment_parts host atts).
Proof.
  induction atts as [|att atts IH]; cbn [attachment_parts]; [apply total_ret|].
  apply total_bind; [total_auto|intros ?].
  apply total_bind; [exact IH|intros ?]. apply total_ret.
Qed.

Lemma attachment_parts_logs atts :
  keeps (@same_logs host) (@attachment_parts host atts).
Proof.
  induction atts as [|att atts IH]; cbn [attachment_parts]; [logs_frame|].
  apply keeps_bind; [apply same_logs_trans| |intros ?]; [logs_frame|].
  apply keeps_bind; [apply same_logs_trans|exact IH|intros ?]. logs_frame.
Qed.

Lemma target_chat_total : total (@target_chat host cl).
Proof.
  unfold target_chat, DateNow, setChats, setCurrentChatId. total_auto.
Qed.

Lemma target_chat_logs : keeps (@same_logs host) (@target_chat host cl).
Proof.
  unfold target_chat, DateNow, setChats, setCurrentChatId. logs_frame.
Qed.

Lemma send_user_message_total targetChatId userPrompt :
  total (@send_user_message host cl targetChatId userPrompt).
Proof.
  unfold send_user_message, DateNow, setChats.
  apply total_bind; [apply attachment_parts_total|intros ?]. total_auto.
Qed.

Lemma send_user_message_logs targetChatId userPrompt :
  keeps (@same_logs host) (@send_user_message host cl targetChatId userPrompt).
Proof.
  unfold send_user_message, DateNow, setChats.
  apply keeps_bind; [apply same_logs_trans|apply attachment_parts_logs|intros ?].
  logs_frame.
Qed.

(** What comes before the loop: the chat is settled, the flags are set,
    the user message is stored.  No request is made yet. *)
Lemma turn_prologue promptText isHiddenSubmission (w : World host) :
  exists targetChatId history w1,
    handleSendMessageInternal cl promptText isHiddenSubmission w
    = (try_catch
         (tool_loop cl MAX_LOOPS (Date_now host (ticks w)) targetChatId
            (finalSystemInstruction cl promptText)
            (mkLoopState false 0 history) ;;;
          ret tt)
         (report_error targetChatId) ;;;
       setIsTyping false) w1
    /\ same_logs w w1.
Proof.
  unfold handleSendMessageInternal.
  unfold bind at 1, DateNow at 1, ask at 1.
  destruct (total_run (tick w) target_chat_total) as (target & w1 & Etarget).
  pose proof (target_chat_logs (tick w)) as Hlogs1.
  rewrite Etarget in Hlogs1. cbn [snd] in Hlogs1.
  erewrite bind_ok by exact Etarget.
  set (flags := if isHiddenSubmission then ret tt
                else setInputValue [] ;;; setAttachments []).
  assert (Hflags : exists w2, flags w1 = (Ok tt, w2) /\ same_logs w1 w2).
  { unfold flags. destruct isHiddenSubmission.
    - exists w1. split; [reflexivity | apply same_logs_refl].
    - eexists. split; [reflexivity | now split]. }
  destruct Hflags as (w2 & Eflags & Hlogs2).
  erewrite bind_ok by exact Eflags.
  unfold bind at 1, setIsTyping at 1, modify at 1.
  set (w3 := mkWorld host _ _ _ _ _ _ _ _ _ _ _ _).
  assert (Hlogs3 : same_logs w w3).
  { destruct Hlogs1 as [A1 B1], Hlogs2 as [A2 B2]. unfold w3. split; cbn.
    - now rewrite A2, A1.
    - now rewrite B2, B1. }
  clearbody w3.
  destruct (total_run w3 (send_user_message_total target promptText))
    as (history & w4 & Esend).
  pose proof (send_user_message_logs target promptText w3) as Hlogs4.
  rewrite Esend in Hlogs4. cbn [snd] in Hlogs4.
  exists target, history, w4. split.
  - unfold bind at 1 3, try_catch. erewrite bind_ok by exact Esend.
    reflexivity.
  - eapply same_logs_trans; eassumption.
Qed.

End TurnProps.

(* ===================================================================== *)
(** ** Properties of the tool-call orchestrator *)
(* ===================================================================== *)

Module Orchestrator.

Import Scenario.

Local Open Scope client_scope.

(** C1.  Against a model that asks for a tool call in every response,
    the loop makes exactly five requests, receives five replies and
    returns without throwing, [finished] still false; the turn then
    ends with nothing further stored or sent.  And however the model
    behaves, a loop that returns has either run its five rounds on
    replies that all asked for tools, or stopped on the first reply that
    asked for none. *)
Theorem tool_loop_five_round_trips host cl startTime targetChatId instruction
        history promptText isHiddenSubmission (w : World host) :
  (always_calls host cl ->
   (exists st w' requested rs,
       tool_loop cl MAX_LOOPS startTime targetChatId instruction
         (mkLoopState false 0 history) w
       = (Ok st, w')
       /\ finished st = false /\ loopCount st = 5
       /\ requests w' = requests w ++ requested /\ List.length requested = 5
       /\ replies w' = replies w ++ rs /\ List.length rs = 5
       /\ forallb has_calls rs = true)
   /\ (exists w' requested,
          handleSendMessageInternal cl promptText isHiddenSubmission w
          = (Ok tt, w')
          /\ isTyping w' = false
          /\ requests w' = requests w ++ requested
          /\ List.length requested = 5))
  /\ (forall st w',
         tool_loop cl MAX_LOOPS startTime targetChatId instruction
           (mkLoopState false 0 history) w
         = (Ok st, w') ->
         exists rs,
           replies w' = replies w ++ rs
           /\ loopCount st = List.length rs
           /\ ((finished st = false /\ List.length rs = 5
                /\ forallb has_calls rs = true)
               \/ (finished st = true /\ List.length rs <= 5
                   /\ exists init final,
                        rs = init ++ [final]
                        /\ forallb has_calls init = true
                        /\ has_calls final = false))).
Proof.
  assert (Hends : forall st w',
             tool_loop cl MAX_LOOPS startTime targetChatId instruction
               (mkLoopState false 0 history) w
             = (Ok st, w') ->
             exists rs,
               replies w' = replies w ++ rs
               /\ loopCount st = List.length rs
               /\ ((finished st = false /\ List.length rs = 5
                    /\ forallb has_calls rs = true)
                   \/ (finished st = true /\ List.length rs <= 5
                       /\ exists init final,
                            rs = init ++ [final]
                            /\ forallb has_calls init = true
                            /\ has_calls final = false))).
  { intros st w' Hrun.
    destruct (tool_loop_ends _ _ _ _ _ _ _ Hrun eq_refl)
      as (rs & Hrs & Hcount & Hend).
    exists rs. split; [exact Hrs|]. split; [exact Hcount | exact Hend]. }
  split; [|exact Hends].
  intros Hcalls. split.
  - destruct (@tool_loop_calls host cl Hcalls MAX_LOOPS startTime targetChatId
                instruction (mkLoopState false 0 history) w eq_refl)
      as (st & w' & requested & Erun & Hfin & Hcount & Hreq & Hlen & _).
    destruct (Hends _ _ Erun) as (rs & Hrs & _ & Hend).
    exists st, w', requested, rs.
    destruct Hend as [(_ & L & A)|(F & _)]; [|congruence].
    repeat split; assumption.
  - destruct (turn_prologue cl promptText isHiddenSubmission w)
      as (target & history' & w1 & -> & Hreq1 & _).
    destruct (@tool_loop_calls host cl Hcalls MAX_LOOPS
                (Date_now host (ticks w)) target
                (finalSystemInstruction cl promptText)
                (mkLoopState false 0 history') w1 eq_refl)
      as (st & w2 & requested & Erun & _ & _ & Hreq & Hlen & _).
    unfold bind at 1, try_catch. erewrite bind_ok by exact Erun.
    eexists. exists requested. split; [reflexivity|].
    cbn [isTyping requests]. rewrite Hreq, Hreq1. now repeat split.
Qed.

(** A model that asks for [get_todos] in every response: five requests,
    and the loop returns. *)
Lemma tool_loop_five_round_trips_witness :
  let host := host_with always_asks no_fetch store_add in
  let cl := closure_with (Some (str "c1")) [] [] gemini_settings in
  let w := world_with host [mkChat (str "c1") (str "New Chat") [] 0 None] [] [] in
  exists st w' requested rs,
    tool_loop cl MAX_LOOPS 0 (str "c1") [] (mkLoopState false 0 []) w
    = (Ok st, w')
    /\ finished st = false /\ loopCount st = 5
    /\ requests w' = requests w ++ requested /\ List.length requested = 5
    /\ replies w' = replies w ++ rs /\ List.length rs = 5
    /\ forallb has_calls rs = true.
Proof.
  cbv zeta.
  refine (proj1 (proj1
    (@tool_loop_five_round_trips
       (host_with always_asks no_fetch store_add)
       (closure_with (Some (str "c1")) [] [] gemini_settings)
       0%Z (str "c1") [] [] (str "list my tasks") false
       (world_with (host_with always_asks no_fetch store_add)
          [mkChat (str "c1") (str "New Chat") [] 0 None] [] [])) _)).
  intros n request. eexists. split; reflexivity.
Defined.

(** C2.  For a response that carries the calls [calls], in that order,
    the round appends to the transcript, and to the stored chat,
    exactly two messages: a model message whose parts are the response
    text, if it is not empty, and then one function call per call in
    order; and after it a user message whose parts are the answers to
    the calls, one per call, each under its call's name and id, in the
    same order.  The handlers run one after the other, so there is no
    other order for the answers to arrive in. *)
Theorem tool_round_appends_calls_then_answers host cl targetChatId response
        call calls history (w : World host) :
  exists ai tool w',
    tool_round cl targetChatId response (call :: calls) history w
    = (Ok (history ++ [ai; tool]), w')
    /\ role ai = model
    /\ parts ai
       = match text response with
         | [] => map PFunctionCall (call :: calls)
         | t => PText t :: map PFunctionCall (call :: calls)
         end
    /\ role tool = user
    /\ answers (call :: calls) (parts tool)
    /\ List.length (parts tool) = List.length (call :: calls)
    /\ chats w'
       = map (fun c =>
                if JsString.eqb (chat_id c) targetChatId
                then mkChat (chat_id c) (title c) (messages c ++ [ai; tool])
                       (updatedAt c) (gemId c)
                else c) (chats w).
Proof.
  destruct (tool_round_run cl targetChatId response (call :: calls) history w)
    as (ai & tool & w' & wd & wd' & Erun & Hai & Hparts & Htool & Hd & Hchats
        & _).
  exists ai, tool, w'. split; [exact Erun|]. split; [exact Hai|].
  split; [rewrite Hparts; unfold lead_text; now destruct (text response)|].
  split; [exact Htool|].
  pose proof (dispatched_answers Hd) as Hans.
  split; [exact Hans|]. split; [apply (answers_names Hans)|].
  exact Hchats.
Qed.

End Orchestrator.

(* ===================================================================== *)
(** ** The [update_todo] tool *)
(* ===================================================================== *)

Module UpdateTodo.

Import Scenario.

Local Open Scope client_scope.






End UpdateTodo.

(* ===================================================================== *)
(** ** What is stored stays stored *)
(* ===================================================================== *)

Section Growth.

Variable host : Host.
Variable cl : Closure.

Local Open Scope client_scope.

Lemma grows_refl (w : World host) : grows w w.
Proof. intros id m H. exact H. Qed.

Lemma grows_trans (a b c : World host) :
  grows a b -> grows b c -> grows a c.
Proof. intros H1 H2 id m H. apply H2, H1, H. Qed.

Lemma grows_same (w w' : World host) :
  chats w' = chats w -> grows w w'.
Proof. intros E id m (c & Hin & Hid & Hm). exists c. now rewrite E. Qed.

Lemma grows_map (f : Chat -> Chat) (w w' : World host) :
  (forall c, chat_id (f c) = chat_id c
             /\ forall m, In m (messages c) -> In m (messages (f c))) ->
  chats w' = map f (chats w) -> grows w w'.
Proof.
  intros Hf E id m (c & Hin & Hid & Hm). exists (f c). rewrite E.
  destruct (Hf c) as [Hfid Hfm].
  split; [now apply in_map|]. split; [congruence | auto].
Qed.

Lemma append_message_grows targetChatId m :
  keeps (@grows host) (@append_message host targetChatId m).
Proof.
  intros w. eapply grows_map; [|reflexivity].
  intros c. cbv beta. destruct (JsString.eqb (chat_id c) targetChatId); cbn.
  - split; [reflexivity|]. intros m' H. apply in_or_app. now left.
  - split; [reflexivity | trivial].
Qed.

Ltac grows_frame :=
  repeat (first
            [ solve [apply keeps_ret; apply grows_refl]
            | solve [apply keeps_throw; apply grows_refl]
            | solve [apply keeps_lift; apply grows_refl]
            | solve [apply append_message_grows]
            | apply keeps_bind; [apply grows_trans| |intros ?]
            | apply keeps_try_catch; [apply grows_trans| |intros ?]
            | solve [apply keeps_ask; intros ?; now apply grows_same]
            | solve [apply keeps_modify; intros ?; now apply grows_same] ]
          || match goal with
             | |- keeps _ (match ?x with _ => _ end) => destruct x
             | |- keeps _ (if ?x then _ else _) => destruct x
             end).

Lemma chunk_uris_grows chunks : keeps (@grows host) (@chunk_uris host chunks).
Proof.
  induction chunks as [|chunk chunks IH]; cbn [chunk_uris].
  - grows_frame.
  - unfold chunk_uri, read.
    apply keeps_bind; [apply grows_trans| |intros ?]; [grows_frame|].
    apply keeps_bind; [apply grows_trans|exact IH|intros ?]. grows_frame.
Qed.

Lemma final_round_grows startTime targetChatId response history :
  keeps (@grows host) (final_round cl startTime targetChatId response history).
Proof.
  unfold final_round, DateNow, playAudio, auto_title, startTitleJob.
  do 3 (apply keeps_bind; [apply grows_trans| |intros ?]; [grows_frame|]).
  apply keeps_bind; [apply grows_trans|apply chunk_uris_grows|intros ?].
  grows_frame.
Qed.

Lemma tool_round_grows targetChatId response calls history :
  keeps (@grows host) (tool_round cl targetChatId response calls history).
Proof.
  intros w.
  destruct (tool_round_run cl targetChatId response calls history w)
    as (ai & tool & w' & _ & _ & -> & _ & _ & _ & _ & Hchats & _).
  eapply grows_map; [|exact Hchats].
  intros c. cbv beta. unfold with_round.
  destruct (JsString.eqb (chat_id c) targetChatId); cbn.
  - split; [reflexivity|]. intros m' H. apply in_or_app. now left.
  - split; [reflexivity | trivial].
Qed.

Lemma loop_body_grows startTime targetChatId instruction st :
  keeps (@grows host) (loop_body cl startTime targetChatId instruction st).
Proof.
  unfold loop_body.
  apply keeps_bind; [apply grows_trans| |intros config].
  { intros w. destruct (build_config_run cl w) as (c & w1 & -> & Hoff).
    apply grows_same. apply Hoff. }
  apply keeps_bind; [apply grows_trans| |intros response].
  { intros w. apply grows_same.
    apply (generateChatResponse_backstage (selectedModel cl)
             (currentHistory st) [] (Some instruction) config []
             (Some (apiSettings cl)) w). }
  apply keeps_bind; [apply grows_trans| |intros _].
  { intros w. now apply grows_same. }
  destruct (functionCalls response) as [[|call calls]|];
    (apply keeps_bind; [apply grows_trans| |intros ?];
     [first [apply tool_round_grows | apply final_round_grows]
     |apply keeps_ret; apply grows_refl]).
Qed.

Lemma tool_loop_grows remaining startTime targetChatId instruction :
  forall st,
    keeps (@grows host) (tool_loop cl remaining startTime targetChatId instruction st).
Proof.
  induction remaining as [|remaining IH]; intros st; cbn [tool_loop].
  - apply keeps_ret, grows_refl.
  - destruct (finished st); [apply keeps_ret, grows_refl|].
    apply keeps_bind; [apply grows_trans|apply loop_body_grows|intros ?].
    apply IH.
Qed.

Lemma report_error_grows targetChatId message :
  keeps (@grows host) (@report_error host targetChatId message).
Proof. unfold report_error, DateNow. grows_frame. Qed.

Lemma report_error_total targetChatId message :
  total (@report_error host targetChatId message).
Proof. unfold report_error, DateNow, append_message, setChats. total_auto. Qed.

Lemma attachment_parts_offstage atts :
  keeps (@offstage host) (@attachment_parts host atts).
Proof.
  induction atts as [|att atts IH]; cbn [attachment_parts].
  - apply keeps_ret, offstage_refl.
  - apply keeps_bind; [apply offstage_trans| |intros ?].
    + frame (@offstage_refl host) (@offstage_trans host).
    + apply keeps_bind; [apply offstage_trans|exact IH|intros ?].
      apply keeps_ret, offstage_refl.
Qed.

(** The chat the turn goes to exists, once [target_chat] has run. *)
Lemma target_chat_run (w : World host) :
  (forall id, cl_currentChatId cl = Some id -> id <> [] ->
              exists c, In c (chats w) /\ chat_id c = id) ->
  exists targetChatId w1,
    target_chat cl w = (Ok targetChatId, w1)
    /\ exists c, In c (chats w1) /\ chat_id c = targetChatId.
Proof.
  intros Hchat. unfold target_chat.
  destruct (cl_currentChatId cl) as [[|c0 t0]|] eqn:E.
  - do 2 eexists. split; [reflexivity|]. eexists. split; [now left | reflexivity].
  - exists (c0 :: t0), w. split; [reflexivity|].
    apply (Hchat (c0 :: t0) eq_refl). discriminate.
  - do 2 eexists. split; [reflexivity|]. eexists. split; [now left | reflexivity].
Qed.

(** The user message of the turn: what it holds and where it goes. *)
Lemma send_user_message_run targetChatId userPrompt (w : World host) :
  exists attached userMessage stored w1,
    send_user_message cl targetChatId userPrompt w
    = (Ok (stored ++ [userMessage]), w1)
    /\ role userMessage = user
    /\ parts userMessage
       = match trim userPrompt with
         | [] => attached
         | _ => attached ++ [PText userPrompt]
         end
    /\ ((exists c, In c (chats w) /\ chat_id c = targetChatId) ->
        in_chat targetChatId userMessage w1).
Proof.
  unfold send_user_message.
  destruct (total_run w (attachment_parts_total (cl_attachments cl)))
    as (attached & wa & Eatt).
  pose proof (attachment_parts_offstage (cl_attachments cl) w) as Hoff.
  rewrite Eatt in Hoff. cbn [snd] in Hoff. destruct Hoff as (Hchats & _).
  erewrite bind_ok by exact Eatt.
  unfold bind, DateNow, ask, setChats, modify, ret. cbn [fst snd].
  do 4 eexists. split; [reflexivity|].
  cbn [role parts]. split; [reflexivity|]. split; [reflexivity|].
  intros (c & Hin & Hid). unfold in_chat. cbn [chats tick snd].
  rewrite Hchats.
  eexists. split; [apply in_map, Hin|].
  apply Facts.eqb_eq in Hid. rewrite Hid. cbn [chat_id messages].
  split; [now apply Facts.eqb_eq|]. apply in_or_app. right. now left.
Qed.

(** A whole turn never throws: what goes wrong in it ends as a message. *)
Lemma handleSendMessageInternal_message promptText isHiddenSubmission
      (w : World host) :
  (forall id, cl_currentChatId cl = Some id -> id <> [] ->
              exists c, In c (chats w) /\ chat_id c = id) ->
  exists targetChatId attached userMessage w',
    handleSendMessageInternal cl promptText isHiddenSubmission w = (Ok tt, w')
    /\ in_chat targetChatId userMessage w'
    /\ role userMessage = user
    /\ parts userMessage
       = match trim promptText with
         | [] => attached
         | _ => attached ++ [PText promptText]
         end.
Proof.
  intros Hchat. unfold handleSendMessageInternal.
  unfold bind at 1, DateNow at 1, ask at 1.
  destruct (target_chat_run (tick w) Hchat) as (target & w1 & Etarget & Hex1).
  erewrite bind_ok by exact Etarget.
  set (flags := if isHiddenSubmission then ret tt
                else setInputValue [] ;;; setAttachments []).
  assert (Hflags : exists w2, flags w1 = (Ok tt, w2) /\ chats w2 = chats w1).
  { unfold flags. destruct isHiddenSubmission.
    - exists w1. now split.
    - eexists. split; reflexivity. }
  destruct Hflags as (w2 & Eflags & Hchats2).
  erewrite bind_ok by exact Eflags.
  unfold bind at 1, setIsTyping at 1, modify at 1.
  set (w3 := mkWorld host _ _ _ _ _ _ _ _ _ _ _ _).
  assert (Hex3 : exists c, In c (chats w3) /\ chat_id c = target).
  { unfold w3. cbn [chats]. now rewrite Hchats2. }
  clearbody w3.
  destruct (send_user_message_run target promptText w3)
    as (attached & userMessage & stored & w4 & Esend & Hrole & Hparts & Hin).
  specialize (Hin Hex3).
  set (rest := fun history =>
         tool_loop cl MAX_LOOPS (Date_now host (ticks w)) target
           (finalSystemInstruction cl promptText)
           (mkLoopState false 0 history) ;;; ret tt).
  assert (Hgrow : keeps (@grows host)
            (try_catch (rest (stored ++ [userMessage])) (report_error target)
               ;;; setIsTyping false)).
  { apply keeps_bind; [apply grows_trans| |intros ?].
    - apply keeps_try_catch; [apply grows_trans| |intros ?].
      + unfold rest. apply keeps_bind; [apply grows_trans| |intros ?].
        * apply tool_loop_grows.
        * apply keeps_ret, grows_refl.
      + apply report_error_grows.
    - apply keeps_modify. intros ?. now apply grows_same. }
  assert (Htotal : total
            (try_catch (rest (stored ++ [userMessage])) (report_error target)
               ;;; setIsTyping false)).
  { apply total_bind; [|intros ?; apply total_modify].
    apply total_try_catch. intros ?. apply report_error_total. }
  destruct (total_run w4 Htotal) as ([] & w' & Erest).
  specialize (Hgrow w4). rewrite Erest in Hgrow. cbn [snd] in Hgrow.
  exists target, attached, userMessage, w'. split.
  - rewrite <- Erest. unfold bind at 1, try_catch at 1.
    erewrite bind_ok by exact Esend. reflexivity.
  - split; [apply Hgrow, Hin|]. now split.
Qed.

End Growth.

(* ===================================================================== *)
(** ** The form submission *)
(* ===================================================================== *)

Module FormSubmit.

Import Scenario.

Local Open Scope client_scope.

Lemma trimStart_nil (l : jstring) :
  trimStart l = [] -> forallb is_space l = true.
Proof.
  induction l as [|c l IH]; cbn [trimStart forallb]; [reflexivity|].
  destruct (is_space c); [exact IH | discriminate].
Qed.

(** A text that starts with a character that is no white space does not
    trim to nothing. *)
Lemma trim_not_empty c (s : jstring) : is_space c = false -> trim (c :: s) <> [].
Proof.
  intros Hc. unfold trim, trimEnd. cbn [trimStart]. rewrite Hc.
  intros E. apply (f_equal (@rev ascii)) in E.
  rewrite rev_involutive in E. cbn [rev] in E.
  apply trimStart_nil in E. rewrite forallb_app in E.
  apply andb_prop in E. destruct E as [_ E]. cbn [forallb] in E.
  rewrite Hc in E. discriminate.
Qed.

Lemma attach_submission_run host cl messageId data (w : World host) :
  exists w1,
    attach_submission cl messageId data w = (Ok tt, w1)
    /\ forall id, (exists c, In c (chats w) /\ chat_id c = id) ->
                  exists c, In c (chats w1) /\ chat_id c = id.
Proof.
  unfold attach_submission, bind, DateNow, ask, setChats, modify.
  cbn [fst snd]. eexists. split; [reflexivity|].
  intros id (c & Hin & Hid). cbn [chats tick].
  eexists. split; [apply in_map, Hin|].
  destruct (cl_currentChatId cl) as [current|]; [|exact Hid].
  destruct (JsString.eqb (chat_id c) current); exact Hid.
Qed.

(** C9.  When the submitted values hold no parent task with a list of
    subtasks (or the todo integration is off), the submission is sent as
    a stored user message whose text part is the literal prefix, a line
    break, and [JSON.stringify(values, null, 2)].  That text parses;
    what it parses to, written again, is the same text; and it is the
    submitted values themselves when they hold no [undefined].  The
    parts before the text are those of the attachments that were
    pending. *)
Theorem form_submission_sends_annotated_values host cl messageId data
        (w : World host) :
  subtask_match cl data = false ->
  (forall id, cl_currentChatId cl = Some id -> id <> [] ->
              exists c, In c (chats w) /\ chat_id c = id) ->
  well_keyed (VObj data) = true ->
  exists targetChatId attached userMessage json w',
    handleFormSubmit cl messageId data w = (Ok tt, w')
    /\ in_chat targetChatId userMessage w'
    /\ role userMessage = user
    /\ parts userMessage
       = attached
         ++ [PText (str "[SYSTEM_ANNOTATION: Form Submission Data]"
                      ++ [newline] ++ json)]
    /\ json = JSON.stringify_pretty data
    /\ JSON.parse json = Some (VObj (reparsed_props data))
    /\ JSON.stringify_pretty (reparsed_props data) = json
    /\ (json_value (VObj data) = true -> JSON.parse json = Some (VObj data)).
Proof.
  intros Hmatch Hchat Hkeyed. unfold handleFormSubmit. rewrite Hmatch.
  destruct (attach_submission_run cl messageId data w) as (w1 & Eattach & Hkeep).
  erewrite bind_ok by exact Eattach.
  assert (Hchat1 : forall id, cl_currentChatId cl = Some id -> id <> [] ->
                              exists c, In c (chats w1) /\ chat_id c = id).
  { intros id Hid Hne. apply Hkeep. now apply Hchat. }
  destruct (handleSendMessageInternal_message cl (hiddenPrompt data) true
              w1 Hchat1)
    as (target & attached & userMessage & w' & Erun & Hin & Hrole & Hparts).
  destruct (Roundtrip.parse_stringify_pretty data Hkeyed)
    as (Hparse & Hagain & Hsame).
  exists target, attached, userMessage, (JSON.stringify_pretty data), w'.
  split; [exact Erun|]. split; [exact Hin|]. split; [exact Hrole|].
  split; [|split; [reflexivity|split; [exact Hparse|split; [exact Hagain|]]]].
  - rewrite Hparts.
    pose proof (@trim_not_empty "["%char
                  (str "SYSTEM_ANNOTATION: Form Submission Data]" ++ [newline]
                     ++ JSON.stringify_pretty data) eq_refl) as Hne.
    change ("["%char :: str "SYSTEM_ANNOTATION: Form Submission Data]"
              ++ [newline] ++ JSON.stringify_pretty data)
      with (hiddenPrompt data) in Hne.
    destruct (trim (hiddenPrompt data)); [congruence | reflexivity].
  - intros Hjson. rewrite Hparse. now rewrite (Hsame Hjson).
Qed.

(** A submission of three values in a chat that holds the form. *)
Lemma form_submission_sends_annotated_values_witness :
  let host := host_with no_generate no_fetch store_add in
  let form := mkMessage (str "m1") model [PText (str "(form)")] 0 None None
                None None in
  let chat := mkChat (str "c1") (str "Trip") [form] 0 None in
  let cl := closure_with (Some (str "c1")) [chat] [] gemini_settings in
  let data := [(str "name", VStr (str "Ada"));
               (str "tags", VArr [VStr (str "a"); VStr (str "{b}")]);
               (str "nights", VNum 3)] in
  exists targetChatId attached userMessage json w',
    handleFormSubmit cl (str "m1") data (world_with host [chat] [] [])
    = (Ok tt, w')
    /\ in_chat targetChatId userMessage w'
    /\ role userMessage = user
    /\ parts userMessage
       = attached
         ++ [PText (str "[SYSTEM_ANNOTATION: Form Submission Data]"
                      ++ [newline] ++ json)]
    /\ json = JSON.stringify_pretty data
    /\ JSON.parse json = Some (VObj (reparsed_props data))
    /\ JSON.stringify_pretty (reparsed_props data) = json
    /\ (json_value (VObj data) = true -> JSON.parse json = Some (VObj data)).
Proof.
  cbv zeta.
  apply (@form_submission_sends_annotated_values
           (host_with no_generate no_fetch store_add)).
  - reflexivity.
  - intros id [= <-] _. eexists. split; [now left | reflexivity].
  - reflexivity.
Defined.

End FormSubmit.

(* ===================================================================== *)
(** ** Properties of the rendering helpers *)
(* ===================================================================== *)

Module Rendering.

Lemma fold_group_prefix messages :
  forall groups seq,
    fold_left group_step messages (groups, seq)
    = (groups ++ fst (fold_left group_step messages ([], seq)),
       snd (fold_left group_step messages ([], seq))).
Proof.
  induction messages as [|m messages IH]; intros groups seq.
  - cbn [fold_left fst snd]. now rewrite app_nil_r.
  - cbn [fold_left group_step].
    destruct (isToolMsg m).
    + apply IH.
    + rewrite IH. rewrite (IH (flush [] seq ++ [Single m])).
      cbn [fst snd]. f_equal.
      unfold flush. destruct seq; cbn [app]; now rewrite <- ?app_assoc.
Qed.

Lemma flush_app groups more seq :
  flush (groups ++ more) seq = groups ++ flush more seq.
Proof. unfold flush. destruct seq; [reflexivity | now rewrite <- app_assoc]. Qed.

Lemma grouped_from_nil seq : grouped_from seq [] = flush [] seq.
Proof. reflexivity. Qed.

Lemma grouped_from_cons seq m messages :
  grouped_from seq (m :: messages)
  = if isToolMsg m then grouped_from (seq ++ [m]) messages
    else flush [] seq ++ Single m :: grouped_from [] messages.
Proof.
  unfold grouped_from. cbn [fold_left group_step].
  destruct (isToolMsg m); [reflexivity|].
  rewrite fold_group_prefix.
  destruct (fold_left group_step messages ([], [])) as [groups rest].
  cbn [fst snd]. rewrite flush_app, <- app_assoc. reflexivity.
Qed.

Lemma getGroupedMessages_eq messages :
  getGroupedMessages messages = grouped_from [] messages.
Proof. reflexivity. Qed.

Lemma members_grouped_from messages :
  forall seq, flat_map members (grouped_from seq messages) = seq ++ messages.
Proof.
  induction messages as [|m messages IH]; intros seq.
  - rewrite grouped_from_nil, app_nil_r. unfold flush.
    destruct seq; [reflexivity|]. cbn [app flat_map members].
    now rewrite app_nil_r.
  - rewrite grouped_from_cons. destruct (isToolMsg m).
    + rewrite IH, <- app_assoc. reflexivity.
    + rewrite flat_map_app. cbn [flat_map members]. rewrite IH.
      unfold flush. destruct seq; [reflexivity|].
      cbn [app flat_map members]. now rewrite app_nil_r.
Qed.

Lemma well_grouped_from messages :
  forall seq,
    forallb isToolMsg seq = true ->
    well_grouped false (grouped_from seq messages) = true.
Proof.
  induction messages as [|m messages IH]; intros seq Hseq.
  - rewrite grouped_from_nil. unfold flush.
    destruct seq as [|x seq]; [reflexivity|].
    cbn [app well_grouped negb andb]. now rewrite Hseq.
  - rewrite grouped_from_cons. destruct (isToolMsg m) eqn:Em.
    + apply IH. rewrite forallb_app, Hseq. cbn [forallb]. now rewrite Em.
    + unfold flush. destruct seq as [|x seq]; cbn [app well_grouped negb andb].
      * rewrite Em. now apply IH.
      * rewrite Hseq, Em. now apply IH.
Qed.

(** X1.  The grouping loses and moves nothing: the entries, opened up
    in order, are the messages of the chat in their order. *)
Theorem getGroupedMessages_keeps_the_transcript messages :
  flat_map members (getGroupedMessages messages) = messages.
Proof. rewrite getGroupedMessages_eq. apply members_grouped_from. Qed.

(** X2.  Every entry that stands alone is no tool message; every tool
    group is a run of tool messages, is not empty, and is not followed
    by another tool group: consecutive tool messages always share one
    group. *)
Theorem getGroupedMessages_groups_whole_runs messages :
  well_grouped false (getGroupedMessages messages) = true.
Proof. rewrite getGroupedMessages_eq. now apply well_grouped_from. Qed.

Lemma startsWith_app (lit rest : jstring) : startsWith lit (lit ++ rest) = true.
Proof.
  induction lit as [|c lit IH]; [reflexivity|].
  cbn [app startsWith]. now rewrite Ascii.eqb_refl.
Qed.

Lemma skipn_app_length (lit rest : jstring) :
  skipn (List.length lit) (lit ++ rest) = rest.
Proof. induction lit as [|c lit IH]; [reflexivity | exact IH]. Qed.

Lemma split_on_eq needle s :
  FormAgentCard.split_on needle s
  = if startsWith needle s then Some ([], skipn (List.length needle) s)
    else match s with
         | [] => None
         | c :: s' =>
             match FormAgentCard.split_on needle s' with
             | Some (before, after) => Some (c :: before, after)
             | None => None
             end
         end.
Proof. destruct s; reflexivity. Qed.

Lemma split_on_front needle rest :
  FormAgentCard.split_on needle (needle ++ rest) = Some ([], rest).
Proof.
  rewrite split_on_eq, startsWith_app. now rewrite skipn_app_length.
Qed.

Lemma stringify_pretty_head data :
  exists r, JSON.stringify_pretty data = lbrace :: r.
Proof.
  unfold JSON.stringify_pretty. rewrite Roundtrip.serialize_object_layout.
  unfold layout.
  destruct (flat_map (member_texts (str "  ") ([] ++ str "  ")) data);
    now eexists.
Qed.

(** X3.  The card that shows a sent form reads the submitted values
    back out of the annotation message: on the text that
    [handleFormSubmit] sends, the message counts as a system submission
    and [submittedData] is what [JSON.parse] makes of the values, that
    is the values themselves when they hold no [undefined]. *)
Theorem submission_card_shows_submitted_values (m : Message) data :
  role m = user ->
  well_keyed (VObj data) = true ->
  isSystemSubmission m (hiddenPrompt data) = true
  /\ submittedData JSON.parse (hiddenPrompt data)
     = VObj (reparsed_props data)
  /\ (json_value (VObj data) = true ->
      submittedData JSON.parse (hiddenPrompt data) = VObj data).
Proof.
  intros Hrole Hkeyed.
  destruct (Roundtrip.parse_stringify_pretty data Hkeyed)
    as (Hparse & _ & Hsame).
  assert (E : submittedData JSON.parse (hiddenPrompt data)
              = VObj (reparsed_props data)).
  { unfold submittedData, hiddenPrompt. rewrite split_on_front.
    destruct (stringify_pretty_head data) as (r & Er).
    cbn [app trimStart]. change (is_space newline) with true.
    cbv iota. rewrite Er. cbn [trimStart].
    change (is_space lbrace) with false. cbv iota.
    rewrite <- Er. now rewrite Hparse. }
  split; [|split].
  - unfold isSystemSubmission. rewrite Hrole. reflexivity.
  - exact E.
  - intros Hjson. rewrite E. now rewrite (Hsame Hjson).
Qed.

Lemma submission_card_shows_submitted_values_witness :
  let m := mkMessage (str "m2") user [] 0 None None None None in
  let data := [(str "name", VStr (str "Ada")); (str "nights", VNum 3)] in
  isSystemSubmission m (hiddenPrompt data) = true
  /\ submittedData JSON.parse (hiddenPrompt data)
     = VObj (reparsed_props data)
  /\ (json_value (VObj data) = true ->
      submittedData JSON.parse (hiddenPrompt data) = VObj data).
Proof.
  cbv zeta. apply submission_card_shows_submitted_values; reflexivity.
Defined.

End Rendering.

(* ===================================================================== *)
(** ** Properties of the upstream encodings *)
(* ===================================================================== *)

Module Encoding.

Lemma digits_are_digits d : forallb JSON.is_digit (digits d) = true.
Proof. unfold digits. induction d; cbn; auto. Qed.

Lemma number_has_no_underscore n : ~ In "_"%char (JSON.number_to_string n).
Proof.
  assert (H : forall d, ~ In "_"%char (digits d)).
  { intros d Hin. pose proof (digits_are_digits d) as Hd.
    rewrite forallb_forall in Hd. specialize (Hd _ Hin). discriminate Hd. }
  destruct n as [|p|p].
  - cbn. intuition discriminate.
  - rewrite Roundtrip.number_to_string_pos. apply H.
  - rewrite Roundtrip.number_to_string_neg. intros [E|Hin];
      [discriminate E | now apply (H _ Hin)].
Qed.

Lemma id_or_missing id fallback : no_id id -> id_or id fallback = fallback.
Proof. now intros [-> | ->]. Qed.

(** X4.  When a function call has no id, the id made up for the call
    ([call_<name>_<timestamp>_<index>]) and the [tool_call_id] made up
    for its answer ([call_<name>_<timestamp>]) are never the same text,
    whatever the two messages and the index: the answer does not name
    its call. *)
Theorem made_up_tool_call_ids_never_match callMsg answerMsg idx call result :
  no_id (fc_id call) ->
  otc_id (tool_call callMsg (idx, call))
  <> answer_call_id answerMsg
       (mkFunctionResponse (fc_name call) result (fc_id call)).
Proof.
  intros Hid. unfold tool_call, tool_call_id, answer_call_id.
  cbn [otc_id fst snd fr_id fr_name].
  rewrite !id_or_missing by exact Hid.
  intros E. repeat apply app_inv_head in E.
  apply (number_has_no_underscore (timestamp answerMsg)).
  rewrite <- E. apply in_or_app. right. now left.
Qed.

Lemma made_up_tool_call_ids_never_match_witness :
  let call := mkFunctionCall (str "get_todos") (VObj []) None in
  let ai := mkMessage (str "1") model [PFunctionCall call] 1700 None None
              None None in
  let tool := mkMessage (str "2") user [answer call (VObj [])] 1702 None None
                None None in
  otc_id (tool_call ai (0, call))
  <> answer_call_id tool
       (mkFunctionResponse (fc_name call) (VObj []) (fc_id call)).
Proof.
  cbv zeta. apply made_up_tool_call_ids_never_match. now left.
Defined.

Lemma tool_contents_app a b :
  tool_contents (a ++ b) = tool_contents a ++ tool_contents b.
Proof. apply flat_map_app. Qed.

Lemma chat_message_no_tool r ps : tool_contents (chat_message r ps) = [].
Proof. destruct ps as [|[t|u] [|q ps]]; reflexivity. Qed.

Lemma tool_messages_contents msg l :
  tool_contents (map (tool_message msg) l)
  = map (fun resp => JSON.serialize [] [] (fr_response resp)) l.
Proof.
  induction l as [|x l IH]; [reflexivity|].
  cbn [map tool_contents flat_map app tool_message]. f_equal. exact IH.
Qed.

Lemma history_message_tool_contents msg :
  tool_contents (history_message msg)
  = map (fun resp => JSON.serialize [] [] (fr_response resp))
      (functionResponses (parts msg)).
Proof.
  unfold history_message.
  destruct (functionResponses (parts msg)) as [|resp responses].
  - destruct (role msg); [apply chat_message_no_tool|].
    destruct (functionCallsOf (parts msg));
      [apply chat_message_no_tool | reflexivity].
  - apply (tool_messages_contents msg (resp :: responses)).
Qed.

(** X5.  No function response of the transcript is lost, doubled or
    moved on the way to an OpenAI-compatible endpoint: the [tool]
    messages of the body are the function responses of the history in
    their order, each with [JSON.stringify(response)] as its content. *)
Theorem every_function_response_is_sent_once r :
  tool_contents (openai_messages r)
  = map (fun resp => JSON.serialize [] [] (fr_response resp))
      (history_responses (req_history r)).
Proof.
  unfold openai_messages. rewrite !tool_contents_app.
  assert (Hsys : tool_contents
                   match req_systemInstruction r with
                   | Some (c :: t) => [MSystem (c :: t)]
                   | _ => []
                   end = []).
  { now destruct (req_systemInstruction r) as [[|c t]|]. }
  rewrite Hsys. unfold current_message. rewrite chat_message_no_tool.
  rewrite app_nil_r. cbn [app].
  unfold history_responses.
  induction (req_history r) as [|msg history IH]; [reflexivity|].
  cbn [flat_map]. rewrite tool_contents_app, map_app, IH.
  now rewrite history_message_tool_contents.
Qed.

Lemma combine_seq_snd (calls : list FunctionCall) :
  forall start,
    map snd (combine (seq start (List.length calls)) calls) = calls.
Proof.
  induction calls as [|fc calls IH]; intros start; [reflexivity|].
  cbn [List.length seq combine map snd]. now rewrite IH.
Qed.

(** One call, sent and handed back. *)
Lemma completion_call_echoed host msg (ifc : nat * FunctionCall) :
  reads_back host (snd ifc) ->
  completion_call host (echoed (tool_call msg ifc)) = returned msg ifc.
Proof.
  intros (_ & text & Etext & Eparse).
  unfold completion_call, echoed, tool_call, returned.
  cbn [otc_id otc_name otc_arguments tc_id tc_function_name
       tc_function_arguments].
  rewrite Etext. cbn [or_empty]. unfold safeParseJSON. now rewrite Eparse.
Qed.

(** X6.  The function calls of a model message survive the trip to an
    OpenAI-compatible endpoint and back.  When the [JSON.parse] of the
    host reads the arguments text of each call back to the arguments,
    the message is sent as one assistant message with one tool call per
    function call, and these tool calls, handed back by the endpoint,
    are decoded to the calls of the message, in their order, with their
    names and arguments, each under the id that was sent for it: they
    are the calls themselves when every call has an id. *)
Theorem tool_calls_come_back host msg :
  role msg = model ->
  functionResponses (parts msg) = [] ->
  functionCallsOf (parts msg) <> [] ->
  Forall (reads_back host) (functionCallsOf (parts msg)) ->
  exists tool_calls,
    history_message msg = [MToolCalls tool_calls]
    /\ map (fun c => completion_call host (echoed c)) tool_calls
       = map (returned msg)
           (combine (seq 0 (List.length (functionCallsOf (parts msg))))
              (functionCallsOf (parts msg)))
    /\ (Forall (fun fc => exists c t, fc_id fc = Some (c :: t))
          (functionCallsOf (parts msg)) ->
        map (fun c => completion_call host (echoed c)) tool_calls
        = functionCallsOf (parts msg)).
Proof.
  intros Hrole Hnone Hsome Hreads.
  set (calls := functionCallsOf (parts msg)) in *.
  exists (map (tool_call msg) (combine (seq 0 (List.length calls)) calls)).
  assert (Hback : map (fun c => completion_call host (echoed c))
                    (map (tool_call msg)
                       (combine (seq 0 (List.length calls)) calls))
                  = map (returned msg)
                      (combine (seq 0 (List.length calls)) calls)).
  { rewrite map_map. apply map_ext_in. intros ifc Hin.
    apply completion_call_echoed.
    rewrite Forall_forall in Hreads. apply Hreads.
    destruct ifc as [i fc]. eapply in_combine_r, Hin. }
  split; [|split; [exact Hback|]].
  - unfold history_message. rewrite Hnone, Hrole. fold calls.
    destruct calls; [contradiction | reflexivity].
  - intros Hids. rewrite Hback.
    rewrite <- (combine_seq_snd calls 0) at 3.
    apply map_ext_in. intros [i fc] Hin.
    rewrite Forall_forall in Hids.
    destruct (Hids fc (in_combine_r _ _ _ _ Hin)) as (c & t & Hid).
    destruct fc as [name args id]. cbn [fc_id] in Hid. subst id.
    reflexivity.
Qed.

(** Two calls with their ids, and a host that reads their arguments. *)
Lemma tool_calls_come_back_witness :
  let host := Scenario.host_with Scenario.no_generate Scenario.no_fetch
                Scenario.store_add in
  let create := mkFunctionCall (str "create_todo")
                  (VObj [(str "text", VStr (str "Buy {milk}"))])
                  (Some (str "call_1")) in
  let list := mkFunctionCall (str "get_todos") (VObj [])
                (Some (str "call_2")) in
  let msg := mkMessage (str "1") model
               [PText (str "On it."); PFunctionCall create;
                PFunctionCall list] 1700 None None None None in
  exists tool_calls,
    history_message msg = [MToolCalls tool_calls]
    /\ map (fun c => completion_call host (echoed c)) tool_calls
       = [create; list].
Proof.
  cbv zeta.
  destruct (@tool_calls_come_back
              (Scenario.host_with Scenario.no_generate Scenario.no_fetch
                 Scenario.store_add)
              (mkMessage (str "1") model
                 [PText (str "On it.");
                  PFunctionCall
                    (mkFunctionCall (str "create_todo")
                       (VObj [(str "text", VStr (str "Buy {milk}"))])
                       (Some (str "call_1")));
                  PFunctionCall
                    (mkFunctionCall (str "get_todos") (VObj [])
                       (Some (str "call_2")))] 1700 None None None None))
    as (tool_calls & Esent & _ & Hback).
  - reflexivity.
  - reflexivity.
  - discriminate.
  - constructor; [|constructor; [|constructor]];
      (split; [vm_compute; reflexivity|]);
      (eexists; split; [vm_compute; reflexivity|]);
      vm_compute; reflexivity.
  - exists tool_calls. split; [exact Esent|]. apply Hback.
    repeat constructor; do 2 eexists; reflexivity.
Defined.

Lemma startsWith_inv lit : forall s,
  startsWith lit s = true -> exists rest, s = lit ++ rest.
Proof.
  induction lit as [|c lit IH]; intros s H; [now exists s|].
  destruct s as [|x s]; [discriminate H|].
  cbn [startsWith] in H. apply andb_prop in H. destruct H as [Hc H].
  apply Ascii.eqb_eq in Hc. subst x.
  destruct (IH s H) as (rest & ->). now exists rest.
Qed.

Lemma endsWith_inv lit s :
  endsWith lit s = true -> exists front, s = front ++ lit.
Proof.
  unfold endsWith. intros H. apply startsWith_inv in H.
  destruct H as (rest & E). exists (rev rest).
  rewrite <- (rev_involutive s), E, rev_app_distr, rev_involutive.
  reflexivity.
Qed.

Lemma endsWith_app front lit : endsWith lit (front ++ lit) = true.
Proof.
  unfold endsWith. rewrite rev_app_distr. apply Rendering.startsWith_app.
Qed.

Lemma dropSuffix_app front lit : dropSuffix lit (front ++ lit) = front.
Proof.
  unfold dropSuffix, dropPrefix. rewrite rev_app_distr.
  rewrite Rendering.startsWith_app, length_rev.
  rewrite <- (length_rev lit), Rendering.skipn_app_length.
  apply rev_involutive.
Qed.

Lemma dropSuffix_absent lit s : endsWith lit s = false -> dropSuffix lit s = s.
Proof.
  unfold dropSuffix, dropPrefix, endsWith. intros ->. apply rev_involutive.
Qed.

(** X7.  The address of the chat completion always ends in
    [/v1/chat/completions]: a base URL that already ends in [/v1] does
    not get a second one; and one trailing slash on the base URL makes
    no difference. *)
Theorem openai_url_ends_in_the_endpoint baseUrl :
  endsWith (str "/v1/chat/completions") (openai_url baseUrl) = true
  /\ (endsWith (str "/") baseUrl = false ->
      openai_url (baseUrl ++ str "/") = openai_url baseUrl).
Proof.
  split.
  - unfold openai_url. cbv zeta.
    destruct (endsWith (str "/v1") (dropSuffix (str "/") baseUrl)) eqn:E.
    + apply endsWith_inv in E. destruct E as (front & ->).
      rewrite <- app_assoc.
      change (str "/v1" ++ str "/chat/completions")
        with (str "/v1/chat/completions").
      apply endsWith_app.
    + apply endsWith_app.
  - intros H. unfold openai_url. cbv zeta.
    now rewrite dropSuffix_app, (dropSuffix_absent _ _ H).
Qed.

End Encoding.

(* ===================================================================== *)
(** ** The requests of a turn *)
(* ===================================================================== *)

Module Requests.

Import Scenario.

Local Open Scope client_scope.

Section Shape.

Variable host : Host.
Variable cl : Closure.

Ltac shape_frame :=
  repeat (first
            [ solve [apply keeps_ret; apply carries_refl]
            | solve [apply keeps_throw; apply carries_refl]
            | solve [apply keeps_lift; apply carries_refl]
            | apply keeps_bind; [apply carries_trans| |intros ?]
            | apply keeps_try_catch; [apply carries_trans| |intros ?]
            | solve [apply keeps_ask; intros ?; now apply carries_same]
            | solve [apply keeps_modify; intros ?; now apply carries_same] ]
          || match goal with
             | |- keeps _ (match ?x with _ => _ end) => destruct x
             | |- keeps _ (if ?x then _ else _) => destruct x
             end).

Lemma carries_weaken (P Q : Request -> Prop) (w w' : World host) :
  (forall r, P r -> Q r) -> carries P w w' -> carries Q w w'.
Proof.
  intros H (news & E & F). exists news. split; [exact E|].
  eapply Forall_impl; [exact H | exact F].
Qed.

(** The requests of a call are built from the arguments of the call,
    for the model that was named or for the fallback model; under the
    OpenAI provider the model of the settings stands in for a model
    name that is empty. *)
Lemma gemini_request_named (P : Request -> Prop) retries :
  forall modelName history userInput systemInstruction configOptions
         attachments apiSettings,
    (forall m, m = modelName \/ m = fallback_model ->
               P (mkRequest gemini m history userInput systemInstruction
                    configOptions attachments apiSettings)) ->
    keeps (carries (host := host) P)
      (gemini_request retries modelName history userInput systemInstruction
         configOptions attachments apiSettings).
Proof.
  induction retries as [|retries IH]; intros * HP; rewrite gemini_request_eq;
    cbv zeta.
  - apply keeps_try_catch; [apply carries_trans| |intros ?].
    + apply keeps_bind; [apply carries_trans| |intros ?];
        [apply log_request_carries, HP; now left | shape_frame].
    + shape_frame; apply rethrow_normalized_carries.
  - apply keeps_try_catch; [apply carries_trans| |intros ?].
    + apply keeps_bind; [apply carries_trans| |intros ?];
        [apply log_request_carries, HP; now left | shape_frame].
    + shape_frame; try apply rethrow_normalized_carries.
      apply IH. intros m [-> | ->]; apply HP; now right.
Qed.

Lemma generateChatResponse_named (P : Request -> Prop) modelName history
      userInput systemInstruction configOptions attachments apiSettings :
  (forall prov m,
      m = modelName \/ m = fallback_model
      \/ (exists settings,
             apiSettings = Some settings /\ provider settings = openai
             /\ m = openai_model (openai_settings settings)) ->
      P (mkRequest prov m history userInput systemInstruction
           configOptions attachments apiSettings)) ->
  keeps (carries (host := host) P)
    (generateChatResponse modelName history userInput systemInstruction
       configOptions attachments apiSettings).
Proof.
  intros HP. unfold generateChatResponse.
  destruct apiSettings as [[[|] settings]|];
    try (apply gemini_request_named; intros m [-> | ->]; apply HP; auto).
  unfold openai_request. cbv zeta. cbn [openai_settings].
  destruct (baseUrl settings), (apiKey settings),
           (openai_model settings) eqn:Emodel;
    try (apply keeps_throw; apply carries_refl).
  apply keeps_try_catch; [apply carries_trans| |intros ?; shape_frame].
  apply keeps_bind; [apply carries_trans| |intros ?];
    [apply log_request_carries | shape_frame].
  apply HP. destruct modelName; [|now left].
  right. right. eexists. split; [reflexivity|]. split; [reflexivity|].
  cbn [openai_settings openai_model]. now rewrite Emodel.
Qed.

Lemma generateChatResponse_built (P : Request -> Prop) modelName history
      userInput systemInstruction configOptions attachments apiSettings :
  (forall prov m, P (mkRequest prov m history userInput systemInstruction
                       configOptions attachments apiSettings)) ->
  keeps (carries (host := host) P)
    (generateChatResponse modelName history userInput systemInstruction
       configOptions attachments apiSettings).
Proof. intros HP. apply generateChatResponse_named. intros; apply HP. Qed.

(** The options of a request, as [build_config] leaves them. *)
Lemma build_config_options (w : World host) :
  exists config w1,
    build_config cl w = (Ok config, w1) /\ requests w1 = requests w
    /\ tools config = (if isTodoAiEnabled cl then Some TODO_TOOLS else None)
    /\ useSearch config = feature_is cl "search".
Proof.
  unfold build_config.
  destruct (feature_is cl "maps");
    [destruct (match activeFeature cl with
               | Some f => match feature_config f with
                           | Some c => location c
                           | None => None
                           end
               | None => None
               end)|];
    do 2 eexists; (split; [reflexivity|]); repeat split.
Qed.

Lemma loop_body_requests promptText startTime targetChatId st :
  keeps (carries (host := host) (turn_request cl promptText))
    (loop_body cl startTime targetChatId
       (finalSystemInstruction cl promptText) st).
Proof.
  intros w. unfold loop_body.
  destruct (build_config_options w) as (config & w1 & E & Hreq & Ht & Hs).
  erewrite bind_ok by exact E.
  eapply carries_trans; [apply carries_same; exact Hreq|].
  clear E Hreq.
  match goal with
  | |- carries ?P w1 (snd (?m w1)) =>
      revert w1; change (keeps (carries (host := host) P) m)
  end.
  apply keeps_bind; [apply carries_trans| |intros response].
  { apply generateChatResponse_built. intros prov m.
    now repeat split. }
  apply keeps_bind; [apply carries_trans| |intros _].
  { intros w'. now apply carries_same. }
  destruct (functionCalls response) as [[|call calls]|];
    (apply keeps_bind; [apply carries_trans| |intros ?];
     [first [apply tool_round_carries | apply final_round_carries]
     |apply keeps_ret; apply carries_refl]).
Qed.

Lemma tool_loop_requests promptText remaining startTime targetChatId :
  forall st,
    keeps (carries (host := host) (turn_request cl promptText))
      (tool_loop cl remaining startTime targetChatId
         (finalSystemInstruction cl promptText) st).
Proof.
  induction remaining as [|remaining IH]; intros st; cbn [tool_loop].
  - apply keeps_ret; apply carries_refl.
  - destruct (finished st); [apply keeps_ret; apply carries_refl|].
    apply keeps_bind; [apply carries_trans| |intros st'];
      [apply loop_body_requests | apply IH].
Qed.

Lemma report_error_requests P targetChatId message :
  keeps (carries (host := host) P) (@report_error host targetChatId message).
Proof.
  unfold report_error, DateNow, append_message, setChats. shape_frame.
Qed.

(** The requests of a whole turn. *)
Lemma turn_requests promptText isHiddenSubmission (w : World host) :
  carries (turn_request cl promptText) w
    (snd (handleSendMessageInternal cl promptText isHiddenSubmission w)).
Proof.
  destruct (turn_prologue cl promptText isHiddenSubmission w)
    as (target & history & w1 & -> & Hlogs).
  eapply carries_trans; [apply carries_same; apply (proj1 Hlogs)|].
  clear Hlogs.
  match goal with
  | |- carries ?P w1 (snd (?m w1)) =>
      revert w1; change (keeps (carries (host := host) P) m)
  end.
  apply keeps_bind; [apply carries_trans| |intros ?].
  - apply keeps_try_catch; [apply carries_trans| |intros ?].
    + apply keeps_bind; [apply carries_trans| |intros ?].
      * apply tool_loop_requests.
      * apply keeps_ret; apply carries_refl.
    + apply report_error_requests.
  - unfold setIsTyping. shape_frame.
Qed.

Lemma finalSystemInstruction_head promptText :
  exists c t, finalSystemInstruction cl promptText = c :: t.
Proof.
  unfold finalSystemInstruction.
  destruct (activeGem cl) as [g|].
  - destruct (instructions g) as [|c t];
      [unfold default_instruction; cbn [str String.list_ascii_of_string app]
      |cbn [app]]; eauto.
  - unfold default_instruction. cbn [str String.list_ascii_of_string app].
    eauto.
Qed.

End Shape.

(** X8.  While the todo integration is on, every request of a turn
    declares the todo tools and nothing else: a Gemini request is
    configured with their function declarations, also when the search or
    the maps feature is selected, and an OpenAI body lists them under
    [tools]. *)
Theorem todo_tools_replace_grounding host cl promptText isHiddenSubmission
        (w : World host) :
  isTodoAiEnabled cl = true ->
  carries (fun r => gemini_tools (req_config r) = FunctionDeclarations TODO_TOOLS
                    /\ body_tools (openai_body r) = Some TODO_TOOLS)
    w (snd (handleSendMessageInternal cl promptText isHiddenSubmission w)).
Proof.
  intros Hon. eapply carries_weaken; [|apply turn_requests].
  intros r (_ & _ & _ & _ & Ht & _). rewrite Hon in Ht.
  unfold gemini_tools, openai_body. cbn [body_tools]. now rewrite Ht.
Qed.

(** The search feature is selected and the todo integration is on. *)
Lemma todo_tools_replace_grounding_witness :
  let host := host_with always_asks no_fetch store_add in
  let cl := mkClosure (Some (str "c1")) [] [] [] None false true
              (Some (mkActiveFeature (str "search") None))
              (str "gemini-3-pro-preview") gemini_settings []
              (fun _ => []) in
  let w := world_with host [mkChat (str "c1") (str "New Chat") [] 0 None] [] [] in
  carries (fun r => gemini_tools (req_config r) = FunctionDeclarations TODO_TOOLS
                    /\ body_tools (openai_body r) = Some TODO_TOOLS)
    w (snd (handleSendMessageInternal cl (str "find my tasks") false w)).
Proof.
  cbv zeta. apply todo_tools_replace_grounding. reflexivity.
Defined.

(** X9.  Every request of a turn sends the transcript and nothing beside
    it: the Gemini contents are one entry per message of the history the
    request carries, and the OpenAI messages are the system instruction
    of the turn followed by what the history gives; there is no entry
    for a current input or for attachments. *)
Theorem turn_requests_send_the_transcript host cl promptText
        isHiddenSubmission (w : World host) :
  carries (fun r =>
             gemini_contents r = map content_of (req_history r)
             /\ openai_messages r
                = MSystem (finalSystemInstruction cl promptText)
                    :: flat_map history_message (req_history r))
    w (snd (handleSendMessageInternal cl promptText isHiddenSubmission w)).
Proof.
  eapply carries_weaken; [|apply turn_requests].
  intros r (Hin & Hatt & Hsys & _). split.
  - unfold gemini_contents. rewrite Hin, Hatt. cbn. apply app_nil_r.
  - unfold openai_messages. rewrite Hin, Hatt, Hsys.
    destruct (finalSystemInstruction_head cl promptText) as (c & t & ->).
    cbn. now rewrite app_nil_r.
Qed.

End Requests.

(* ===================================================================== *)
(** ** A turn whose request fails *)
(* ===================================================================== *)

Module Failure.

Import Scenario.

Local Open Scope client_scope.

Section Reported.

Variable host : Host.
Variable cl : Closure.

(** The prologue of a turn, with the chat it settles on. *)
Lemma turn_prologue_chat promptText isHiddenSubmission (w : World host) :
  (forall id, cl_currentChatId cl = Some id -> id <> [] ->
              exists c, In c (chats w) /\ chat_id c = id) ->
  exists targetChatId history w1,
    handleSendMessageInternal cl promptText isHiddenSubmission w
    = (try_catch
         (tool_loop cl MAX_LOOPS (Date_now host (ticks w)) targetChatId
            (finalSystemInstruction cl promptText)
            (mkLoopState false 0 history) ;;;
          ret tt)
         (report_error targetChatId) ;;;
       setIsTyping false) w1
    /\ requests w1 = requests w
    /\ exists c, In c (chats w1) /\ chat_id c = targetChatId.
Proof.
  intros Hchat. unfold handleSendMessageInternal.
  unfold bind at 1, DateNow at 1, ask at 1.
  destruct (target_chat_run cl (tick w) Hchat) as (target & w1 & Etarget & Hex1).
  pose proof (target_chat_logs cl (tick w)) as Hlogs1.
  rewrite Etarget in Hlogs1. cbn [snd] in Hlogs1.
  erewrite bind_ok by exact Etarget.
  set (flags := if isHiddenSubmission then ret tt
                else setInputValue [] ;;; setAttachments []).
  assert (Hflags : exists w2, flags w1 = (Ok tt, w2) /\ chats w2 = chats w1
                              /\ requests w2 = requests w1).
  { unfold flags. destruct isHiddenSubmission.
    - exists w1. now repeat split.
    - eexists. repeat split. }
  destruct Hflags as (w2 & Eflags & Hchats2 & Hreq2).
  erewrite bind_ok by exact Eflags.
  unfold bind at 1, setIsTyping at 1, modify at 1.
  set (w3 := mkWorld host _ _ _ _ _ _ _ _ _ _ _ _).
  assert (Hex3 : exists c, In c (chats w3) /\ chat_id c = target).
  { unfold w3. cbn [chats]. now rewrite Hchats2. }
  assert (Hreq3 : requests w3 = requests w).
  { unfold w3. cbn [requests]. rewrite Hreq2. apply Hlogs1. }
  clearbody w3.
  destruct (send_user_message_run cl target promptText w3)
    as (attached & userMessage & stored & w4 & Esend & _ & _ & Hin).
  pose proof (send_user_message_logs cl target promptText w3) as Hlogs4.
  rewrite Esend in Hlogs4. cbn [snd] in Hlogs4.
  destruct (Hin Hex3) as (c & Hc & Hid & _).
  exists target, (stored ++ [userMessage]), w4. split.
  - unfold bind at 1 3, try_catch. erewrite bind_ok by exact Esend.
    reflexivity.
  - split; [rewrite <- Hreq3; apply Hlogs4|]. now exists c.
Qed.

(** When the request of the first round throws [e], the turn ends with
    the message of the failure in the chat. *)
Lemma turn_reports e n promptText isHiddenSubmission (w : World host) :
  (forall id, cl_currentChatId cl = Some id -> id <> [] ->
              exists c, In c (chats w) /\ chat_id c = id) ->
  (forall history config (w1 : World host),
      exists w2 news,
        generateChatResponse (selectedModel cl) history []
          (Some (finalSystemInstruction cl promptText)) config []
          (Some (apiSettings cl)) w1
        = (Throw e, w2)
        /\ chats w2 = chats w1
        /\ requests w2 = requests w1 ++ news /\ List.length news = n) ->
  exists targetChatId m w' news,
    handleSendMessageInternal cl promptText isHiddenSubmission w = (Ok tt, w')
    /\ in_chat targetChatId m w'
    /\ role m = model
    /\ parts m = [PText (str "Error: " ++ e)]
    /\ isTyping w' = false
    /\ requests w' = requests w ++ news /\ List.length news = n.
Proof.
  intros Hchat Hfails.
  destruct (turn_prologue_chat promptText isHiddenSubmission w Hchat)
    as (target & history & w1 & -> & Hreq1 & c & Hc & Hid).
  destruct (build_config_run cl w1) as (config & w2 & Econfig & Hoff).
  destruct Hoff as (Hchats2 & Hreq2 & _).
  destruct (Hfails history config w2) as (w3 & news & Egen & Hchats3 & Hreq3 & Hn).
  assert (Eloop : tool_loop cl MAX_LOOPS (Date_now host (ticks w)) target
                    (finalSystemInstruction cl promptText)
                    (mkLoopState false 0 history) w1
                  = (Throw e, w3)).
  { cbn [MAX_LOOPS tool_loop finished]. unfold loop_body. cbn [currentHistory].
    unfold bind at 1. erewrite bind_ok by exact Econfig.
    unfold bind at 1. rewrite Egen. reflexivity. }
  unfold bind at 1, try_catch. unfold bind at 1. rewrite Eloop.
  unfold report_error, DateNow, append_message, setChats, setIsTyping, bind,
    ask, modify. cbn [fst snd].
  eexists target, _, _, news. split; [reflexivity|].
  split.
  { unfold in_chat. cbn [chats tick].
    eexists. split; [apply in_map; rewrite Hchats3, Hchats2; exact Hc|].
    apply Facts.eqb_eq in Hid. rewrite Hid. cbn [chat_id messages].
    split; [now apply Facts.eqb_eq|]. apply in_or_app. right. now left. }
  cbn [role parts isTyping requests tick].
  rewrite Hreq3, Hreq2, Hreq1. now repeat split.
Qed.

End Reported.

(** X10.  Under the Gemini provider, when the request fails with a
    message that is not JSON and holds neither of the two defect
    signatures, a turn makes that one request, does not throw, leaves
    [isTyping] false, and stores in the chat a model message that reads
    [Error: ] followed by the message, or by [Region not supported. Try
    VPN.] when the message mentions an unsupported region. *)
Theorem gemini_failure_is_shown_in_the_chat host cl e promptText
        isHiddenSubmission (w : World host) :
  provider (apiSettings cl) = gemini ->
  (forall n r, generateContent host n r = Throw e) ->
  startsWith (str "{") e = false ->
  includes thought_signature_defect e = false ->
  includes dependency_defect e = false ->
  (forall id, cl_currentChatId cl = Some id -> id <> [] ->
              exists c, In c (chats w) /\ chat_id c = id) ->
  exists targetChatId m w' request,
    handleSendMessageInternal cl promptText isHiddenSubmission w = (Ok tt, w')
    /\ in_chat targetChatId m w'
    /\ role m = model
    /\ parts m
       = [PText (str "Error: "
                   ++ (if includes (str "Region not supported") e
                       then str "Region not supported. Try VPN."
                       else e))]
    /\ isTyping w' = false
    /\ requests w' = requests w ++ [request].
Proof.
  intros Hprov Hthrows Hjson Hsig Hdep Hchat.
  destruct (@turn_reports host cl
              (if includes (str "Region not supported") e
               then str "Region not supported. Try VPN." else e)
              1 promptText isHiddenSubmission w Hchat)
    as (target & m & w' & news & Erun & Hin & Hrole & Hparts & Htyping
        & Hreq & Hlen).
  - intros history config w1. unfold generateChatResponse.
    destruct (apiSettings cl) as [[|] settings] eqn:Eset;
      cbn [provider] in Hprov; [|discriminate].
    rewrite gemini_request_eq. cbv zeta. unfold try_catch.
    rewrite gemini_attempt, Hthrows.
    unfold parsedMessage. rewrite Hjson.
    unfold is_known_defect, message_includes. rewrite Hsig, Hdep.
    cbn [andb]. unfold rethrow_normalized, message_includes.
    destruct (includes (str "Region not supported") e);
      (eexists; eexists [_]; split; [reflexivity|]; now repeat split).
  - destruct news as [|request [|? ?]]; try discriminate.
    now exists target, m, w', request.
Qed.

(** The service is not available where the user is. *)
Lemma gemini_failure_is_shown_in_the_chat_witness :
  let host := host_with (fun _ _ => Throw (str "Region not supported here"))
                no_fetch store_add in
  let cl := closure_with (Some (str "c1")) [] [] gemini_settings in
  let w := world_with host [mkChat (str "c1") (str "New Chat") [] 0 None] [] [] in
  exists targetChatId m w' request,
    handleSendMessageInternal cl (str "hello") false w = (Ok tt, w')
    /\ in_chat targetChatId m w'
    /\ role m = model
    /\ parts m = [PText (str "Error: Region not supported. Try VPN.")]
    /\ isTyping w' = false
    /\ requests w' = requests w ++ [request].
Proof.
  cbv zeta.
  apply (@gemini_failure_is_shown_in_the_chat
           (host_with (fun _ _ => Throw (str "Region not supported here"))
              no_fetch store_add)
           (closure_with (Some (str "c1")) [] [] gemini_settings)
           (str "Region not supported here") (str "hello") false).
  - reflexivity.
  - reflexivity.
  - reflexivity.
  - reflexivity.
  - reflexivity.
  - intros id [= <-] _. eexists. split; [now left | reflexivity].
Defined.

(** X11.  Under the OpenAI provider with an empty base URL, key or model
    name, a turn makes no request at all: it stores in the chat a model
    message that reads [Error: Missing OpenAI Configuration. Please
    check settings.], does not throw and leaves [isTyping] false. *)
Theorem missing_openai_configuration_sends_nothing host cl promptText
        isHiddenSubmission (w : World host) :
  provider (apiSettings cl) = openai ->
  baseUrl (openai_settings (apiSettings cl)) = []
  \/ apiKey (openai_settings (apiSettings cl)) = []
  \/ openai_model (openai_settings (apiSettings cl)) = [] ->
  (forall id, cl_currentChatId cl = Some id -> id <> [] ->
              exists c, In c (chats w) /\ chat_id c = id) ->
  exists targetChatId m w',
    handleSendMessageInternal cl promptText isHiddenSubmission w = (Ok tt, w')
    /\ in_chat targetChatId m w'
    /\ role m = model
    /\ parts m
       = [PText (str "Error: Missing OpenAI Configuration. Please check settings.")]
    /\ isTyping w' = false
    /\ requests w' = requests w.
Proof.
  intros Hprov Hmissing Hchat.
  destruct (@turn_reports host cl
              (str "Missing OpenAI Configuration. Please check settings.")
              0 promptText isHiddenSubmission w Hchat)
    as (target & m & w' & news & Erun & Hin & Hrole & Hparts & Htyping
        & Hreq & Hlen).
  - intros history config w1. unfold generateChatResponse.
    destruct (apiSettings cl) as [[|] settings] eqn:Eset;
      cbn [provider] in Hprov; [discriminate|].
    cbn [openai_settings] in Hmissing.
    unfold openai_request. cbv zeta. cbn [openai_settings].
    exists w1, []. rewrite app_nil_r.
    destruct (baseUrl settings) as [|? ?], (apiKey settings) as [|? ?],
             (openai_model settings) as [|? ?];
      try (now repeat split).
    destruct Hmissing as [H|[H|H]]; discriminate.
  - destruct news; [|discriminate]. rewrite app_nil_r in Hreq.
    now exists target, m, w'.
Qed.

(** The settings name the OpenAI provider and no model. *)
Lemma missing_openai_configuration_sends_nothing_witness :
  let host := host_with no_generate no_fetch store_add in
  let settings :=
    mkApiSettings openai
      (mkOpenAISettings (str "http://localhost:1234") (str "key") []) in
  let cl := closure_with (Some (str "c1")) [] [] settings in
  let w := world_with host [mkChat (str "c1") (str "New Chat") [] 0 None] [] [] in
  exists targetChatId m w',
    handleSendMessageInternal cl (str "hello") false w = (Ok tt, w')
    /\ in_chat targetChatId m w'
    /\ role m = model
    /\ parts m
       = [PText (str "Error: Missing OpenAI Configuration. Please check settings.")]
    /\ isTyping w' = false
    /\ requests w' = requests w.
Proof.
  cbv zeta.
  apply (@missing_openai_configuration_sends_nothing
           (host_with no_generate no_fetch store_add)
           (closure_with (Some (str "c1")) [] []
              (mkApiSettings openai
                 (mkOpenAISettings (str "http://localhost:1234") (str "key")
                    [])))
           (str "hello") false).
  - reflexivity.
  - right. right. reflexivity.
  - intros id [= <-] _. eexists. split; [now left | reflexivity].
Defined.

End Failure.

(* ===================================================================== *)
(** ** Properties of the handlers of the form card *)
(* ===================================================================== *)

Module CardProps.

Import FormAgentCard CardHandlers.

Lemma current_options_set key items (prev : list (jstring * value)) :
  current_options key (Value.set key (VArr items) prev) = items.
Proof. unfold current_options. now rewrite Facts.lookup_set_same. Qed.

Lemma existsb_filter_out (p : value -> bool) l :
  existsb p (filter (fun v => negb (p v)) l) = false.
Proof.
  induction l as [|x l IH]; [reflexivity|]. cbn [filter].
  destruct (p x) eqn:E; cbn [negb existsb]; [exact IH|]. now rewrite E.
Qed.

Lemma filter_absent (p : value -> bool) l :
  existsb p l = false -> filter (fun v => negb (p v)) l = l.
Proof.
  induction l as [|x l IH]; [reflexivity|]. cbn [existsb filter].
  intros H. apply orb_false_iff in H. destruct H as [Hx Hl].
  rewrite Hx. cbn [negb]. now rewrite IH.
Qed.

Lemma is_string_apart (a b : jstring) v :
  a <> b -> Value.is_string a v = true -> Value.is_string b v = false.
Proof.
  destruct v; cbn [Value.is_string]; try discriminate.
  intros Hne Ha. apply Facts.eqb_eq in Ha. subst s.
  now apply Facts.eqb_neq.
Qed.

Lemma filter_filter_out (other optionValue : jstring) l :
  other <> optionValue ->
  filter (Value.is_string other)
    (filter (fun v => negb (Value.is_string optionValue v)) l)
  = filter (Value.is_string other) l.
Proof.
  intros Hne. induction l as [|x l IH]; [reflexivity|]. cbn [filter].
  destruct (Value.is_string optionValue x) eqn:E; cbn [negb filter].
  - rewrite (is_string_apart x (not_eq_sym Hne) E). exact IH.
  - destruct (Value.is_string other x); now rewrite IH.
Qed.

Lemma lookup_assign_other k k' v (props : list (jstring * value)) :
  k' <> k -> Value.lookup k (assign k' v props) = Value.lookup k props.
Proof.
  intros Hne. unfold assign.
  destruct (JsString.eqb k' (str "__proto__")); [reflexivity|].
  now apply Facts.lookup_set_other.
Qed.

Lemma custom_fields_keep k (customFields : list CustomField) :
  forall acc : list (jstring * value),
    (forall cf, In cf customFields -> cf_key cf <> k) ->
    Value.lookup k
      (fold_left
         (fun acc cf =>
            match trim (cf_key cf) with
            | [] => acc
            | _ => assign (cf_key cf) (VStr (cf_value cf)) acc
            end)
         customFields acc)
    = Value.lookup k acc.
Proof.
  induction customFields as [|cf rest IH]; intros acc Hk; [reflexivity|].
  cbn [fold_left]. rewrite IH by (intros cf' H; apply Hk; now right).
  destruct (trim (cf_key cf)); [reflexivity|].
  apply lookup_assign_other. apply Hk. now left.
Qed.

Lemma prefill_merge_keeps fields k (generated : list (jstring * value)) :
  forall prev : list (jstring * value),
    (forall f, In f fields -> Value.prop (str "key") f <> VStr k)
    \/ ~ In k (map fst generated) ->
    Value.lookup k (prefill_merge fields generated prev) = Value.lookup k prev.
Proof.
  unfold prefill_merge.
  induction generated as [|[k' v] rest IH]; intros prev H; [reflexivity|].
  cbn [fold_left fst snd].
  rewrite IH.
  - destruct (existsb _ fields) eqn:E; [|reflexivity].
    apply lookup_assign_other. intros ->.
    destruct H as [H|H]; [|apply H; now left].
    apply existsb_exists in E. destruct E as (f & Hf & Hkey).
    apply (H f Hf). destruct (Value.prop (str "key") f); try discriminate.
    cbn [Value.is_string] in Hkey. apply Facts.eqb_eq in Hkey. now subst.
  - destruct H as [H|H]; [now left|]. right. intros Hin. apply H. now right.
Qed.

(** X12.  Ticking an option of a checkbox group flips whether the
    option is among the values of the group, and nothing else: the
    other options of the group are there as often as before, the other
    entries of the form keep their values, and an option that was absent
    and is ticked twice leaves the values of the group as they were. *)
Theorem handleCheckboxChange_flips_one_option key optionValue
        (prev : list (jstring * value)) :
  existsb (Value.is_string optionValue)
    (current_options key (handleCheckboxChange key optionValue prev))
  = negb (existsb (Value.is_string optionValue) (current_options key prev))
  /\ (forall other,
         other <> optionValue ->
         filter (Value.is_string other)
           (current_options key (handleCheckboxChange key optionValue prev))
         = filter (Value.is_string other) (current_options key prev))
  /\ (forall k,
         k <> key ->
         Value.lookup k (handleCheckboxChange key optionValue prev)
         = Value.lookup k prev)
  /\ (existsb (Value.is_string optionValue) (current_options key prev) = false ->
      current_options key
        (handleCheckboxChange key optionValue
           (handleCheckboxChange key optionValue prev))
      = current_options key prev).
Proof.
  assert (Hon : existsb (Value.is_string optionValue)
                  (current_options key prev ++ [VStr optionValue]) = true).
  { rewrite existsb_app. cbn [existsb Value.is_string].
    rewrite Facts.eqb_refl. now rewrite orb_true_r. }
  split; [|split; [|split]].
  - unfold handleCheckboxChange.
    destruct (existsb _ (current_options key prev)) eqn:E;
      rewrite current_options_set; cbn [negb];
      [apply existsb_filter_out | exact Hon].
  - intros other Hne. unfold handleCheckboxChange.
    destruct (existsb _ (current_options key prev)) eqn:E;
      rewrite current_options_set.
    + now apply filter_filter_out.
    + rewrite filter_app. cbn [filter Value.is_string].
      apply Facts.eqb_neq in Hne. rewrite Facts.eqb_sym, Hne.
      apply app_nil_r.
  - intros k Hne. unfold handleCheckboxChange.
    destruct (existsb _ (current_options key prev));
      apply Facts.lookup_set_other; congruence.
  - intros Habsent. unfold handleCheckboxChange at 2. rewrite Habsent.
    unfold handleCheckboxChange. rewrite current_options_set, Hon.
    rewrite current_options_set, filter_app. cbn [filter Value.is_string].
    rewrite Facts.eqb_refl. cbn [negb]. rewrite app_nil_r.
    now apply filter_absent.
Qed.

(** X13.  With a note that is not blank the form is always submitted,
    whatever the required fields hold.  What is submitted keeps every
    value of the form under a name that no custom field has, and holds
    the trimmed note under [_user_note] unless a custom field is named
    so. *)
Theorem a_note_submits_the_form p messageId (formData : list (jstring * value))
        submissionNote customFields :
  trim submissionNote <> [] ->
  handleSubmit (Some p) messageId formData submissionNote customFields
  = Submitted messageId (finalData formData submissionNote customFields)
  /\ (forall k,
         k <> str "_user_note" ->
         (forall cf, In cf customFields -> cf_key cf <> k) ->
         Value.lookup k (finalData formData submissionNote customFields)
         = Value.lookup k formData)
  /\ ((forall cf, In cf customFields -> cf_key cf <> str "_user_note") ->
      Value.lookup (str "_user_note")
        (finalData formData submissionNote customFields)
      = Some (VStr (trim submissionNote))).
Proof.
  intros Hnote. split; [|split].
  - unfold handleSubmit.
    destruct (missing (fields p) formData); [reflexivity|].
    destruct (trim submissionNote); [contradiction | reflexivity].
  - intros k Hk Hcustom. unfold finalData.
    rewrite custom_fields_keep by exact Hcustom.
    destruct (trim submissionNote); [reflexivity|].
    apply lookup_assign_other. congruence.
  - intros Hcustom. unfold finalData.
    rewrite custom_fields_keep by exact Hcustom.
    destruct (trim submissionNote) as [|c t]; [contradiction|].
    unfold assign.
    change (JsString.eqb (str "_user_note") (str "__proto__")) with false.
    apply Facts.lookup_set_same.
Qed.

(** A required field is empty, a custom field is added, and the note
    says why. *)
Lemma a_note_submits_the_form_witness :
  let p := mkPayload (VObj [])
             [VObj [(str "key", VStr (str "email"));
                    (str "required", VBool true)]] in
  let formData := [(str "email", VStr [])] in
  let customs := [mkCustomField (str "1") (str "phone") (str "555")] in
  handleSubmit (Some p) (str "m1") formData (str " no email ") customs
  = Submitted (str "m1")
      [(str "email", VStr []); (str "_user_note", VStr (str "no email"));
       (str "phone", VStr (str "555"))].
Proof.
  cbv zeta.
  assert (Hnote : trim (str " no email ") <> []) by (vm_compute; discriminate).
  rewrite (proj1 (@a_note_submits_the_form
                    (mkPayload (VObj [])
                       [VObj [(str "key", VStr (str "email"));
                              (str "required", VBool true)]])
                    (str "m1") [(str "email", VStr [])] (str " no email ")
                    [mkCustomField (str "1") (str "phone") (str "555")]
                    Hnote)).
  reflexivity.
Defined.

(** X14.  The prefill writes nothing but fields of the form: an entry
    of the form state whose name is not the key of a field, or is not
    among the generated names, is left as it was; and a generated value
    under the key of a field is taken, when the generated names are
    distinct. *)
Theorem prefill_writes_only_fields fields (generated prev : list (jstring * value)) :
  (forall k,
      (forall f, In f fields -> Value.prop (str "key") f <> VStr k)
      \/ ~ In k (map fst generated) ->
      Value.lookup k (prefill_merge fields generated prev)
      = Value.lookup k prev)
  /\ (NoDup (map fst generated) ->
      forall k v f,
        In (k, v) generated -> In f fields ->
        Value.prop (str "key") f = VStr k -> k <> str "__proto__" ->
        Value.lookup k (prefill_merge fields generated prev) = Some v).
Proof.
  split; [intros k H; now apply prefill_merge_keeps|].
  intros Hdistinct k v f Hin Hf Hkey Hproto.
  revert prev. induction generated as [|[k' v'] rest IH]; intros prev;
    [contradiction|].
  cbn [map fst] in Hdistinct. apply NoDup_cons_iff in Hdistinct.
  destruct Hdistinct as [Hfresh Hrest].
  destruct Hin as [[= -> ->]|Hin].
  - change (prefill_merge fields ((k, v) :: rest) prev)
      with (prefill_merge fields rest
              (if existsb (fun f => Value.is_string k
                                      (Value.prop (str "key") f)) fields
               then assign k v prev else prev)).
    rewrite prefill_merge_keeps by now right.
    assert (E : existsb (fun f => Value.is_string k (Value.prop (str "key") f))
                  fields = true).
    { apply existsb_exists. exists f. split; [exact Hf|].
      rewrite Hkey. cbn [Value.is_string]. apply Facts.eqb_refl. }
    rewrite E. unfold assign. apply Facts.eqb_neq in Hproto. rewrite Hproto.
    apply Facts.lookup_set_same.
  - change (prefill_merge fields ((k', v') :: rest) prev)
      with (prefill_merge fields rest
              (if existsb (fun f => Value.is_string k'
                                      (Value.prop (str "key") f)) fields
               then assign k' v' prev else prev)).
    now apply IH.
Qed.

End CardProps.

(* ===================================================================== *)
(** ** Gems and mentions *)
(* ===================================================================== *)

Module Gems.

Lemma replace_twice (gem : Gem) (prev : list Gem) :
  map (fun g => if JsString.eqb (gem_id g) (gem_id gem) then gem else g)
    (map (fun g => if JsString.eqb (gem_id g) (gem_id gem) then gem else g)
       prev)
  = map (fun g => if JsString.eqb (gem_id g) (gem_id gem) then gem else g) prev.
Proof.
  rewrite map_map. apply map_ext. intros g.
  destruct (JsString.eqb (gem_id g) (gem_id gem)) eqn:E;
    [now rewrite Facts.eqb_refl | now rewrite E].
Qed.

Lemma replace_keeps_ids (gem : Gem) (prev : list Gem) :
  existsb (fun g => JsString.eqb (gem_id g) (gem_id gem))
    (map (fun g => if JsString.eqb (gem_id g) (gem_id gem) then gem else g)
       prev)
  = existsb (fun g => JsString.eqb (gem_id g) (gem_id gem)) prev.
Proof.
  induction prev as [|g prev IH]; [reflexivity|]. cbn [map existsb].
  rewrite IH. destruct (JsString.eqb (gem_id g) (gem_id gem)) eqn:E;
    [now rewrite Facts.eqb_refl | now rewrite E].
Qed.

(** X15.  Saving a gem is an upsert by id.  Afterwards the list holds
    the gem, every entry of that id is the gem, looking the id up gives
    the gem, the gems of other ids are those that were there, in their
    order, and saving the same gem again changes nothing. *)
Theorem saveGem_upserts_by_id (gem : Gem) (prev : list Gem) :
  In gem (saveGem gem prev)
  /\ (forall g, In g (saveGem gem prev) -> gem_id g = gem_id gem -> g = gem)
  /\ find (fun g => JsString.eqb (gem_id g) (gem_id gem)) (saveGem gem prev)
     = Some gem
  /\ filter (fun g => negb (JsString.eqb (gem_id g) (gem_id gem)))
       (saveGem gem prev)
     = filter (fun g => negb (JsString.eqb (gem_id g) (gem_id gem))) prev
  /\ saveGem gem (saveGem gem prev) = saveGem gem prev.
Proof.
  destruct (existsb (fun g => JsString.eqb (gem_id g) (gem_id gem)) prev)
    eqn:E.
  - assert (Es : saveGem gem prev
                 = map (fun g => if JsString.eqb (gem_id g) (gem_id gem)
                                 then gem else g) prev)
      by (unfold saveGem; now rewrite E).
    rewrite !Es.
    split; [|split; [|split; [|split]]].
    + apply existsb_exists in E. destruct E as (g & Hin & Hid).
      apply in_map_iff. exists g. rewrite Hid. now split.
    + intros g Hin Hid. apply in_map_iff in Hin.
      destruct Hin as (g0 & Hg & _).
      destruct (JsString.eqb (gem_id g0) (gem_id gem)) eqn:E0;
        [congruence|].
      subst g0. apply Facts.eqb_neq in E0. contradiction.
    + clear Es. revert E. induction prev as [|g prev IH]; [discriminate|].
      intros E. cbn [map find].
      destruct (JsString.eqb (gem_id g) (gem_id gem)) eqn:E0.
      * now rewrite Facts.eqb_refl.
      * rewrite E0. cbn [existsb] in E. rewrite E0 in E. now apply IH.
    + clear E Es. induction prev as [|g prev IH]; [reflexivity|].
      cbn [map filter].
      destruct (JsString.eqb (gem_id g) (gem_id gem)) eqn:E0.
      * rewrite Facts.eqb_refl. cbn [negb]. exact IH.
      * rewrite E0. cbn [negb]. now rewrite IH.
    + unfold saveGem. rewrite replace_keeps_ids, E. apply replace_twice.
  - assert (Es : saveGem gem prev = gem :: prev)
      by (unfold saveGem; now rewrite E).
    rewrite !Es.
    split; [|split; [|split; [|split]]].
    + now left.
    + intros g [<-|Hin] Hid; [reflexivity|].
      assert (existsb (fun g => JsString.eqb (gem_id g) (gem_id gem)) prev
              = true) as H; [|congruence].
      apply existsb_exists. exists g. split; [exact Hin|].
      now apply Facts.eqb_eq.
    + cbn [find]. now rewrite Facts.eqb_refl.
    + cbn [filter]. now rewrite Facts.eqb_refl.
    + unfold saveGem. cbn [existsb map]. rewrite Facts.eqb_refl.
      cbn [orb]. f_equal.
      rewrite <- (map_id prev) at 2. apply map_ext_in. intros g Hin.
      destruct (JsString.eqb (gem_id g) (gem_id gem)) eqn:E0; [|reflexivity].
      assert (existsb (fun g => JsString.eqb (gem_id g) (gem_id gem)) prev
              = true) as H; [|congruence].
      apply existsb_exists. now exists g.
Qed.

End Gems.

Module Mentions.

Lemma in_firstn (n : nat) (l : jstring) c : In c (firstn n l) -> In c l.
Proof.
  intros H. rewrite <- (firstn_skipn n l). apply in_or_app. now left.
Qed.

Lemma in_removelast (l : jstring) c : In c (removelast l) -> In c l.
Proof.
  induction l as [|x l IH]; [trivial|]. cbn [removelast].
  destruct l as [|y l]; [contradiction|].
  intros [<-|H]; [now left | right; now apply IH].
Qed.

(** The pattern does not match where no parenthesis opens. *)
Lemma idMatch_skip (pre s : jstring) :
  ~ In lparen pre -> idMatch (pre ++ s) = idMatch s.
Proof.
  induction pre as [|c pre IH]; intros Hpre; [reflexivity|].
  cbn [app]. 
  assert (Hc : Ascii.eqb lparen c = false).
  { apply Ascii.eqb_neq. intros <-. apply Hpre. now left. }
  assert (Hat : id_at (c :: pre ++ s) = None).
  { unfold id_at.
    change (startsWith (str "(ID: ") (c :: pre ++ s))
      with (Ascii.eqb lparen c && startsWith (str "ID: ") (pre ++ s)).
    now rewrite Hc. }
  change (idMatch (c :: pre ++ s))
    with (match id_at (c :: pre ++ s) with
          | Some referencedId => Some referencedId
          | None => idMatch (pre ++ s)
          end).
  rewrite Hat. apply IH. intros H. apply Hpre. now right.
Qed.

Lemma take_alnum_run (id rest : jstring) :
  forallb is_alnum id = true ->
  take_alnum (id ++ rparen :: rest) = (id, rparen :: rest).
Proof.
  induction id as [|c id IH]; intros H; [reflexivity|].
  cbn [forallb] in H. apply andb_prop in H. destruct H as [Hc Hid].
  cbn [app take_alnum]. now rewrite Hc, IH.
Qed.

Lemma id_at_hit (id rest : jstring) :
  id <> [] -> forallb is_alnum id = true ->
  id_at (str "(ID: " ++ id ++ rparen :: rest) = Some id.
Proof.
  intros Hne Hid. unfold id_at.
  change (startsWith (str "(ID: ") (str "(ID: " ++ id ++ rparen :: rest))
    with true.
  change (skipn 5 (str "(ID: " ++ id ++ rparen :: rest))
    with (id ++ rparen :: rest).
  rewrite take_alnum_run by exact Hid.
  destruct id; [contradiction | reflexivity].
Qed.

(** X16.  A mention that was selected is found again when the message
    is sent.  When the id of the task is a run of letters and digits,
    and neither the text typed before nor the text of the task holds an
    opening parenthesis, the pattern that [handleSendMessageInternal]
    applies to the prompt matches the id of the task, whatever is typed
    after the mention; so the task referenced is the first task of
    that id. *)
Theorem selected_mention_is_referenced inputValue todo (more : jstring)
        (todos : list Todo) :
  todo_id todo <> [] ->
  forallb is_alnum (todo_id todo) = true ->
  ~ In lparen inputValue ->
  ~ In lparen (FormAgentCard.to_string (todo_text todo)) ->
  idMatch (handleMentionSelect inputValue todo ++ more) = Some (todo_id todo)
  /\ referencedTask todos (handleMentionSelect inputValue todo ++ more)
     = find (fun t => JsString.eqb (todo_id t) (todo_id todo)) todos.
Proof.
  intros Hne Halnum Hinput Htext.
  assert (E : idMatch (handleMentionSelect inputValue todo ++ more)
              = Some (todo_id todo)).
  { unfold handleMentionSelect.
    set (prefix := match lastIndexOf at_sign inputValue with
                   | Some lastAt => firstn lastAt inputValue
                   | None => removelast inputValue
                   end).
    assert (Hprefix : ~ In lparen prefix).
    { unfold prefix. intros H. apply Hinput.
      destruct (lastIndexOf at_sign inputValue);
        [eapply in_firstn | apply in_removelast]; exact H. }
    replace ((prefix ++ (js "task '" ++ FormAgentCard.to_string (todo_text todo)
                           ++ js "' (ID: " ++ todo_id todo ++ str ")")
                ++ str " ") ++ more)
      with ((prefix ++ js "task '" ++ FormAgentCard.to_string (todo_text todo)
               ++ [dquote; " "%char])
              ++ str "(ID: " ++ todo_id todo ++ rparen :: str " " ++ more).
    - rewrite idMatch_skip.
      + change (idMatch (str "(ID: " ++ todo_id todo
                           ++ rparen :: str " " ++ more))
          with (match id_at (str "(ID: " ++ todo_id todo
                               ++ rparen :: str " " ++ more) with
                | Some referencedId => Some referencedId
                | None => idMatch (str "ID: " ++ todo_id todo
                                     ++ rparen :: str " " ++ more)
                end).
        now rewrite id_at_hit.
      + intros H. apply in_app_or in H. destruct H as [H|H]; [auto|].
        apply in_app_or in H. destruct H as [H|H].
        { vm_compute in H. intuition discriminate. }
        apply in_app_or in H. destruct H as [H|H]; [auto|].
        vm_compute in H. intuition discriminate.
    - change (js "' (ID: ") with ([dquote; " "%char] ++ str "(ID: ").
      change (str ")") with [rparen].
      repeat (rewrite <- app_assoc || rewrite <- app_comm_cons).
      reflexivity. }
  split; [exact E|]. unfold referencedTask. now rewrite E.
Qed.

(** A task picked after typing [@mi], and more text typed after it. *)
Lemma selected_mention_is_referenced_witness :
  let todo := mkTodo (str "1700000000000k3x9q") (VStr (str "Buy milk")) false
                1700000000000 VUndefined (Some 0%Z) in
  idMatch (handleMentionSelect (str "split @mi") todo ++ str "into steps")
  = Some (str "1700000000000k3x9q")
  /\ referencedTask [todo]
       (handleMentionSelect (str "split @mi") todo ++ str "into steps")
     = Some todo.
Proof.
  cbv zeta.
  apply (@selected_mention_is_referenced (str "split @mi")
           (mkTodo (str "1700000000000k3x9q") (VStr (str "Buy milk")) false
              1700000000000 VUndefined (Some 0%Z))
           (str "into steps")
           [mkTodo (str "1700000000000k3x9q") (VStr (str "Buy milk")) false
              1700000000000 VUndefined (Some 0%Z)]).
  - vm_compute. discriminate.
  - vm_compute. reflexivity.
  - vm_compute. intuition discriminate.
  - vm_compute. intuition discriminate.
Defined.

End Mentions.

(* ===================================================================== *)
(** ** Loading a saved form *)
(* ===================================================================== *)

Module Library.

Import Scenario FormAgentCard.

Local Open Scope client_scope.

(** A text that starts like [lit], with something after it: it starts
    with [lit] already, or it is used up inside [lit]. *)
Lemma startsWith_split (lit : jstring) :
  forall t rest : jstring,
    startsWith lit (t ++ rest) = true ->
    startsWith lit t = true \/ forall x, In x t -> In x lit.
Proof.
  induction lit as [|x lit IH]; intros t rest H; [now left|].
  destruct t as [|y t]; [right; intros ? []|].
  cbn [app startsWith] in H |- *. apply andb_prop in H.
  destruct H as [Hxy H]. rewrite Hxy. cbn [andb].
  apply Ascii.eqb_eq in Hxy. subst y.
  destruct (IH t rest H) as [Hs|Hin]; [now left|].
  right. intros z [<-|Hz]; [now left | right; now apply Hin].
Qed.

(** The closing tag is found right behind a text that does not hold it
    and ends in a character foreign to it. *)
Lemma split_on_closing needle (body : jstring) d :
  ~ In d needle ->
  includes needle (body ++ [d]) = false ->
  split_on needle ((body ++ [d]) ++ needle) = Some (body ++ [d], []).
Proof.
  intros Hd. induction body as [|c body IH]; intros Hinc.
  - rewrite Rendering.split_on_eq.
    destruct (startsWith needle (([] ++ [d]) ++ needle)) eqn:E.
    + destruct (startsWith_split needle ([] ++ [d]) needle E) as [Hs|Hin].
      * cbn [app includes] in Hinc. cbn [app] in Hs. now rewrite Hs in Hinc.
      * exfalso. apply Hd, Hin. now left.
    + cbn [app].
      change needle with ([] ++ needle) at 1.
      rewrite <- (app_nil_r needle) at 2.
      rewrite Rendering.split_on_front. reflexivity.
  - rewrite Rendering.split_on_eq.
    change (includes needle ((c :: body) ++ [d]))
      with (startsWith needle ((c :: body) ++ [d])
            || includes needle (body ++ [d])) in Hinc.
    apply orb_false_iff in Hinc. destruct Hinc as [Hhead Htail].
    destruct (startsWith needle (((c :: body) ++ [d]) ++ needle)) eqn:E.
    + destruct (startsWith_split needle ((c :: body) ++ [d]) needle E)
        as [Hs|Hin]; [congruence|].
      exfalso. apply Hd, Hin. apply in_or_app. right. now left.
    + cbn [app]. cbn [app] in IH. now rewrite IH.
Qed.

Lemma trim_framed c d (body : jstring) :
  is_space c = false -> is_space d = false ->
  trim (c :: body ++ [d]) = c :: body ++ [d].
Proof.
  intros Hc Hd. unfold trim, trimEnd. cbn [trimStart]. rewrite Hc.
  change (c :: body ++ [d]) with ((c :: body) ++ [d]).
  rewrite rev_app_distr. cbn [rev app trimStart]. rewrite Hd.
  change (d :: rev body ++ [c]) with ([d] ++ rev (c :: body)).
  rewrite rev_app_distr, rev_involutive. reflexivity.
Qed.

(** The text of a serialized object as the effect of the card takes it:
    nothing to trim, no fence to strip. *)
Lemma strip_fences_stringify schema :
  strip_fences (JSON.stringify schema) = JSON.stringify schema.
Proof.
  destruct (Walk.stringify_shape schema) as (body & E & _).
  unfold strip_fences. rewrite E.
  rewrite trim_framed by reflexivity. reflexivity.
Qed.

Lemma payloadMatch_tagged schema :
  includes (str "</form_payload>") (JSON.stringify schema) = false ->
  payloadMatch (str "<form_payload>" ++ JSON.stringify schema
                  ++ str "</form_payload>")
  = Some (JSON.stringify schema).
Proof.
  intros Hinc. unfold payloadMatch. rewrite Rendering.split_on_front.
  destruct (Walk.stringify_shape schema) as (body & E & _).
  rewrite E in Hinc |- *.
  change (lbrace :: body ++ [rbrace]) with ((lbrace :: body) ++ [rbrace])
    in Hinc |- *.
  rewrite split_on_closing; [reflexivity| |exact Hinc].
  vm_compute. intuition discriminate.
Qed.

(** X17.  A form loaded from the library with no chat open lands in a
    new chat that is first in the list, holds the injected message alone
    and becomes the current chat.  When the text of the saved schema
    does not hold the closing tag, the card that renders the message
    reads the schema back: its payload is what the effect makes of the
    parsed schema, whenever the effect accepts that. *)
Theorem saved_form_opens_in_a_new_chat host cl schema st (w : World host) :
  no_id (cl_currentChatId cl) ->
  well_keyed (VObj schema) = true ->
  includes (str "</form_payload>") (JSON.stringify schema) = false ->
  exists newChat newMessage rest w',
    handleLoadSavedForm cl (VObj schema) w = (Ok tt, w')
    /\ chats w' = newChat :: rest
    /\ List.length rest = List.length (chats w)
    /\ title newChat = str "New Chat"
    /\ messages newChat = [newMessage]
    /\ currentChatId w' = Some (chat_id newChat)
    /\ role newMessage = model
    /\ forall fs fs',
         fields_of (VObj (reparsed_props schema)) = Some fs ->
         unique_fields [] 0 fs = Some fs' ->
         on_message JSON.parse newMessage st
         = mkCardState
             (Some (mkPayload
                      (store_fields (VObj (reparsed_props schema)) fs') fs'))
             (seed fs' (formData st)).
Proof.
  intros Hnone Hkeyed Hinc.
  assert (Erun : exists newChat newMessage rest w',
             handleLoadSavedForm cl (VObj schema) w = (Ok tt, w')
             /\ chats w' = newChat :: rest
             /\ List.length rest = List.length (chats w)
             /\ title newChat = str "New Chat"
             /\ messages newChat = [newMessage]
             /\ currentChatId w' = Some (chat_id newChat)
             /\ role newMessage = model
             /\ parts newMessage = [PText (formMessageContent (VObj schema))]).
  { unfold handleLoadSavedForm.
    assert (E : match cl_currentChatId cl with
                | Some (c :: t) => false
                | _ => true
                end = true) by (destruct Hnone as [-> | ->]; reflexivity).
    destruct (cl_currentChatId cl) as [[|c t]|]; try discriminate;
      unfold handleNewChat, bind, DateNow, ask, setChats, setCurrentChatId,
        setAttachments, setInputValue, modify; cbn [fst snd chats tick];
      cbn [map chat_id]; rewrite Facts.eqb_refl;
      (do 4 eexists; split; [reflexivity|]);
      cbn [chats currentChatId title messages chat_id role parts app];
      rewrite length_map; repeat split. }
  destruct Erun as (newChat & newMessage & rest & w' & Erun & Hchats & Hlen
                    & Htitle & Hmsgs & Hcur & Hrole & Hparts).
  exists newChat, newMessage, rest, w'.
  repeat (split; [assumption|]).
  intros fs fs' Hfields Hunique.
  unfold on_message. rewrite Hparts. cbn [map part_text List.concat].
  rewrite app_nil_r. unfold formMessageContent.
  change (JSON.serialize [] [] (VObj schema))
    with (Some (JSON.stringify schema)).
  cbv beta iota.
  rewrite payloadMatch_tagged by exact Hinc.
  unfold parse_payload. rewrite strip_fences_stringify.
  rewrite (proj1 (Roundtrip.parse_stringify schema Hkeyed)).
  now rewrite Hfields, Hunique.
Qed.

(** A saved form with one field, loaded on the start page. *)
Lemma saved_form_opens_in_a_new_chat_witness :
  let host := host_with no_generate no_fetch store_add in
  let cl := closure_with None [] [] gemini_settings in
  let schema :=
    [(str "title", VStr (str "Trip"));
     (str "fields",
       VArr [VObj [(str "key", VStr (str "city"));
                   (str "type", VStr (str "text"))]])] in
  exists newChat newMessage rest w',
    handleLoadSavedForm cl (VObj schema) (world_with host [] [] [])
    = (Ok tt, w')
    /\ chats w' = newChat :: rest
    /\ messages newChat = [newMessage]
    /\ payload (on_message JSON.parse newMessage (mkCardState None []))
       = Some (mkPayload (VObj schema)
                 [VObj [(str "key", VStr (str "city"));
                        (str "type", VStr (str "text"))]]).
Proof.
  cbv zeta.
  destruct (@saved_form_opens_in_a_new_chat
              (host_with no_generate no_fetch store_add)
              (closure_with None [] [] gemini_settings)
              [(str "title", VStr (str "Trip"));
               (str "fields",
                 VArr [VObj [(str "key", VStr (str "city"));
                             (str "type", VStr (str "text"))]])]
              (mkCardState None [])
              (world_with (host_with no_generate no_fetch store_add) [] [] []))
    as (newChat & newMessage & rest & w' & Erun & Hchats & _ & _ & Hmsgs & _
        & _ & Hcard).
  - left. reflexivity.
  - reflexivity.
  - vm_compute. reflexivity.
  - exists newChat, newMessage, rest, w'.
    repeat (split; [assumption|]).
    erewrite Hcard; [reflexivity| |]; vm_compute; reflexivity.
Defined.

End Library.

(* ===================================================================== *)
(** ** How many requests a turn can make *)
(* ===================================================================== *)

Module Bounds.

Local Open Scope client_scope.

Section Count.

Variable host : Host.
Variable cl : Closure.

Lemma makes_weaken A n n' (m : M host A) : n <= n' -> makes n m -> makes n' m.
Proof.
  intros Hle H w. destruct (H w) as (news & E & L).
  exists news. split; [exact E | lia].
Qed.

Lemma makes_none A (m : M host A) :
  (forall w, requests (snd (m w)) = requests w) -> makes 0 m.
Proof.
  intros H w. exists []. rewrite app_nil_r. split; [apply H | reflexivity].
Qed.

Lemma makes_bind A B a b (m : M host A) (k : A -> M host B) :
  makes a m -> (forall x, makes b (k x)) -> makes (a + b) (bind m k).
Proof.
  intros Hm Hk w. unfold bind. destruct (Hm w) as (n1 & E1 & L1).
  destruct (m w) as [[x|e] w1]; cbn [snd] in *.
  - destruct (Hk x w1) as (n2 & E2 & L2). exists (n1 ++ n2).
    rewrite E2, E1, <- app_assoc, length_app. split; [reflexivity | lia].
  - exists n1. split; [exact E1 | lia].
Qed.

Lemma makes_try_catch A a b (m : M host A) (h : jstring -> M host A) :
  makes a m -> (forall e, makes b (h e)) -> makes (a + b) (try_catch m h).
Proof.
  intros Hm Hh w. unfold try_catch. destruct (Hm w) as (n1 & E1 & L1).
  destruct (m w) as [[x|e] w1]; cbn [snd] in *.
  - exists n1. split; [exact E1 | lia].
  - destruct (Hh e w1) as (n2 & E2 & L2). exists (n1 ++ n2).
    rewrite E2, E1, <- app_assoc, length_app. split; [reflexivity | lia].
Qed.

Lemma makes_keeps A (m : M host A) :
  keeps (@same_logs host) m -> makes 0 m.
Proof. intros H. apply makes_none. intros w. apply (H w). Qed.

Lemma attempt_makes_one request :
  makes (host := host) 1
    (log_request request ;;;
     r <- ask (fun n => generateContent host n request) ;;
     response <- lift r ;;
     ret (decode_gemini response)).
Proof.
  intros w. rewrite gemini_attempt. cbn [snd]. exists [request].
  split; [apply requests_issued | reflexivity].
Qed.

Lemma rethrow_normalized_makes pm : makes 0 (@rethrow_normalized host pm).
Proof.
  apply makes_none. intros w. unfold rethrow_normalized.
  destruct (message_includes (str "Region not supported") pm) as [[|]|];
    reflexivity.
Qed.

Lemma gemini_request_makes retries :
  forall modelName history userInput systemInstruction configOptions
         attachments apiSettings,
    makes (S retries)
      (@gemini_request host retries modelName history userInput
         systemInstruction configOptions attachments apiSettings).
Proof.
  induction retries as [|retries IH]; intros; rewrite gemini_request_eq;
    cbv zeta.
  - change 1 with (1 + 0).
    apply makes_try_catch; [apply attempt_makes_one|intros message].
    destruct (is_known_defect _ modelName) as [[|]|];
      try apply rethrow_normalized_makes.
    apply makes_none. reflexivity.
  - change (S (S retries)) with (1 + S retries).
    apply makes_try_catch; [apply attempt_makes_one|intros message].
    destruct (is_known_defect _ modelName) as [[|]|].
    + apply IH.
    + apply (@makes_weaken _ 0); [lia | apply rethrow_normalized_makes].
    + apply (@makes_weaken _ 0); [lia|]. apply makes_none. reflexivity.
Qed.

Lemma openai_request_makes settings modelName history userInput
      systemInstruction configOptions attachments :
  makes 1
    (@openai_request host settings modelName history userInput
       systemInstruction configOptions attachments).
Proof.
  unfold openai_request. cbv zeta.
  destruct (baseUrl (openai_settings settings)),
           (apiKey (openai_settings settings)),
           (openai_model (openai_settings settings));
    try (apply (@makes_weaken _ 0); [lia|]; apply makes_none; reflexivity).
  intros w. unfold try_catch, bind, log_request, modify, ask, lift.
  cbn [fst snd ticks].
  match goal with
  | |- context [decode_completion ?c] => destruct (decode_completion c)
  end; cbn [snd requests tick]; eexists [_]; split; reflexivity.
Qed.

Lemma generateChatResponse_makes modelName history userInput
      systemInstruction configOptions attachments settings :
  makes (per_call (provider settings))
    (@generateChatResponse host modelName history userInput systemInstruction
       configOptions attachments (Some settings)).
Proof.
  unfold generateChatResponse. destruct settings as [[|] o]; cbn [provider per_call].
  - apply gemini_request_makes.
  - apply openai_request_makes.
Qed.

Lemma loop_body_makes startTime targetChatId instruction st :
  makes (host := host) (per_call (provider (apiSettings cl)))
    (loop_body cl startTime targetChatId instruction st).
Proof.
  unfold loop_body.
  change (per_call (provider (apiSettings cl)))
    with (0 + per_call (provider (apiSettings cl))).
  apply makes_bind.
  { apply makes_none. intros w.
    destruct (build_config_run cl w) as (c & w1 & -> & Hoff). apply Hoff. }
  intros config.
  rewrite <- (Nat.add_0_r (per_call (provider (apiSettings cl)))).
  apply makes_bind; [apply generateChatResponse_makes|intros response].
  change 0 with (0 + 0). apply makes_bind.
  { apply makes_none. reflexivity. }
  intros _.
  destruct (functionCalls response) as [[|call calls]|];
    (change 0 with (0 + 0); apply makes_bind;
     [|intros ?; apply makes_none; reflexivity]).
  - apply makes_keeps, final_round_logs.
  - apply makes_none. intros w.
    destruct (tool_round_run cl targetChatId response (call :: calls)
                (currentHistory st) w)
      as (ai & tool & w' & _ & _ & -> & _ & _ & _ & _ & _ & Hreq & _).
    exact Hreq.
  - apply makes_keeps, final_round_logs.
Qed.

Lemma tool_loop_makes remaining startTime targetChatId instruction :
  forall st,
    makes (host := host) (per_call (provider (apiSettings cl)) * remaining)
      (tool_loop cl remaining startTime targetChatId instruction st).
Proof.
  induction remaining as [|remaining IH]; intros st; cbn [tool_loop].
  - rewrite Nat.mul_0_r. apply makes_none. reflexivity.
  - destruct (finished st).
    + apply (@makes_weaken _ 0); [lia|]. apply makes_none. reflexivity.
    + rewrite Nat.mul_succ_r, Nat.add_comm.
      apply makes_bind; [apply loop_body_makes|intros st']. apply IH.
Qed.

Lemma turn_makes promptText isHiddenSubmission :
  makes (host := host) (per_call (provider (apiSettings cl)) * MAX_LOOPS)
    (handleSendMessageInternal cl promptText isHiddenSubmission).
Proof.
  intros w.
  destruct (turn_prologue cl promptText isHiddenSubmission w)
    as (target & history & w1 & -> & Hlogs).
  assert (H : makes (host := host)
            (per_call (provider (apiSettings cl)) * MAX_LOOPS)
            (try_catch
               (tool_loop cl MAX_LOOPS (Date_now host (ticks w)) target
                  (finalSystemInstruction cl promptText)
                  (mkLoopState false 0 history) ;;;
                ret tt)
               (@report_error host target) ;;;
             setIsTyping false)).
  { rewrite <- (Nat.add_0_r (_ * _)). apply makes_bind.
    - rewrite <- (Nat.add_0_r (_ * _)). apply makes_try_catch.
      + rewrite <- (Nat.add_0_r (_ * _)). apply makes_bind.
        * apply tool_loop_makes.
        * intros ?. apply makes_none. reflexivity.
      + intros e. apply makes_none. reflexivity.
    - intros ?. apply makes_none. reflexivity. }
  destruct (H w1) as (news & E & L). exists news.
  split; [|exact L]. rewrite E. f_equal. apply Hlogs.
Qed.

End Count.

(** X18.  A call of the chat service makes at most two requests, and
    one under the OpenAI provider; a turn, with its five rounds, makes
    at most ten requests, and five under the OpenAI provider. *)
Theorem a_turn_makes_at_most_ten_requests host cl :
  (forall modelName history userInput systemInstruction configOptions
          attachments (w : World host),
      exists news,
        requests (snd (generateChatResponse modelName history userInput
                         systemInstruction configOptions attachments
                         (Some (apiSettings cl)) w))
        = requests w ++ news
        /\ List.length news <= 2
        /\ (provider (apiSettings cl) = openai -> List.length news <= 1))
  /\ (forall promptText isHiddenSubmission (w : World host),
         exists news,
           requests (snd (handleSendMessageInternal cl promptText
                            isHiddenSubmission w))
           = requests w ++ news
           /\ List.length news <= 10
           /\ (provider (apiSettings cl) = openai -> List.length news <= 5)).
Proof.
  split.
  - intros modelName history userInput systemInstruction configOptions
      attachments w.
    destruct (@generateChatResponse_makes host modelName history userInput
                systemInstruction configOptions attachments (apiSettings cl) w)
      as (news & E & L).
    exists news. split; [exact E|].
    destruct (provider (apiSettings cl)); cbn [per_call] in L;
      split; try lia; intros; try discriminate; lia.
  - intros promptText isHiddenSubmission w.
    destruct (@turn_makes host cl promptText isHiddenSubmission w)
      as (news & E & L).
    exists news. split; [exact E|].
    unfold MAX_LOOPS in L.
    destruct (provider (apiSettings cl)); cbn [per_call] in L;
      split; try lia; intros; try discriminate; lia.
Qed.

End Bounds.

(* ===================================================================== *)
(** ** Titles *)
(* ===================================================================== *)

Module Titles.

Import Scenario.

Local Open Scope client_scope.

Section Job.

Variable host : Host.
Variable cl : Closure.

Lemma retitled_refl id (l : list Chat) : Forall2 (retitled id) l l.
Proof.
  induction l as [|c l IH]; constructor; [|exact IH]. now repeat split.
Qed.

Lemma retitled_map id newTitle (l : list Chat) :
  Forall2 (retitled id) l
    (map (fun c =>
            if JsString.eqb (chat_id c) id
            then mkChat (chat_id c) newTitle (messages c) (updatedAt c)
                   (gemId c)
            else c) l).
Proof.
  induction l as [|c l IH]; cbn [map]; constructor; [|exact IH].
  destruct (JsString.eqb (chat_id c) id) eqn:E.
  - apply Facts.eqb_eq in E. repeat split. intros H. contradiction.
  - now repeat split.
Qed.

(** [generateTitle] returns, and what it asks is a title. *)
Lemma generateTitle_run (j : TitleJob) (w : World host) :
  exists newTitle w1 news,
    generateTitle (job_model j) (job_user j) (job_reply j)
      (Some (apiSettings cl)) w
    = (Ok newTitle, w1)
    /\ chats w1 = chats w /\ todos w1 = todos w
    /\ requests w1 = requests w ++ news
    /\ List.length news <= 2
    /\ Forall (title_request cl j) news.
Proof.
  unfold generateTitle. cbv zeta.
  unfold bind at 1, DateNow at 1, ask at 1.
  set (history := [mkMessage (str "title-gen") user _ _ None None None None]).
  pose proof (@Requests.generateChatResponse_named host (title_request cl j)
                (titleModel (Some (apiSettings cl))) history []
                (Some title_instruction) title_config []
                (Some (apiSettings cl))) as Hshape.
  pose proof (@Bounds.generateChatResponse_makes host
                (titleModel (Some (apiSettings cl))) history []
                (Some title_instruction) title_config [] (apiSettings cl)
                (tick w)) as (n2 & E2 & L2).
  pose proof (generateChatResponse_backstage
                (titleModel (Some (apiSettings cl))) history []
                (Some title_instruction) title_config []
                (Some (apiSettings cl)) (tick w)) as (Hchats & Htodos & _).
  destruct (Hshape) with (w := tick w) as (n1 & E1 & F1).
  { intros prov m Hm. unfold title_request. cbn.
    split; [now eexists|]. repeat (split; [reflexivity|]).
    destruct Hm as [->|[->|(s & [= <-] & Hprov & ->)]]; [now left|now right|].
    left. unfold titleModel. destruct (apiSettings cl) as [[|] o];
      cbn in Hprov |- *; [discriminate | reflexivity]. }
  assert (n1 = n2) as -> by (eapply app_inv_head; rewrite <- E1; exact E2).
  assert (L : List.length n2 <= 2)
    by (destruct (provider (apiSettings cl)); cbn [per_call] in L2; lia).
  unfold try_catch, bind.
  destruct (generateChatResponse _ history [] _ _ [] _ (tick w))
    as [[res|e] w1]; cbn [snd] in *;
    (do 3 eexists; split; [reflexivity|]);
    (split; [exact Hchats|]); (split; [exact Htodos|]);
    (split; [exact E2|]); now split.
Qed.

End Job.

(** X19.  A title generation that runs to its end never throws.  It
    makes at most two requests; each asks for a title only, with no
    tools declared, of the model for titles or the fallback model,
    whatever model is selected.  It leaves the tasks alone, and of the
    chats it changes nothing but the title of the chat of the job. *)
Theorem title_job_changes_titles_only host cl j (w : World host) :
  exists w' news,
    run_title_job cl j w = (Ok tt, w')
    /\ requests w' = requests w ++ news
    /\ List.length news <= 2
    /\ Forall (title_request cl j) news
    /\ todos w' = todos w
    /\ Forall2 (retitled (job_chat j)) (chats w) (chats w').
Proof.
  destruct (generateTitle_run cl j w)
    as (newTitle & w1 & news & Erun & Hchats & Htodos & Hreq & Hlen & Hshape).
  unfold run_title_job, try_catch. erewrite bind_ok by exact Erun.
  destruct newTitle as [[|c t]|];
    (do 2 eexists; split; [reflexivity|]);
    cbn [snd requests todos chats];
    (split; [exact Hreq|]); (split; [exact Hlen|]); (split; [exact Hshape|]);
    (split; [exact Htodos|]); rewrite Hchats;
    first [apply retitled_refl | apply retitled_map].
Qed.

End Titles.

Module TitleJobs.

Local Open Scope client_scope.

Section Started.

Variable host : Host.
Variable cl : Closure.

Lemma same_jobs_refl (w : World host) : same_jobs w w.
Proof. reflexivity. Qed.

Lemma same_jobs_trans (a b c : World host) :
  same_jobs a b -> same_jobs b c -> same_jobs a c.
Proof. unfold same_jobs. congruence. Qed.

Ltac jobs_frame := frame same_jobs_refl same_jobs_trans.

Lemma starts_none P (w w' : World host) : same_jobs w w' -> starts P w w'.
Proof.
  intros E. exists []. rewrite app_nil_r. split; [exact E|].
  split; [apply Nat.le_0_l | constructor].
Qed.

Lemma starts_after P A B (m : M host A) (k : A -> M host B) :
  keeps (@same_jobs host) m -> (forall a, keeps (starts (host := host) P) (k a)) ->
  keeps (starts (host := host) P) (bind m k).
Proof.
  intros Hm Hk w. unfold bind. specialize (Hm w).
  destruct (m w) as [[a|e] w1]; cbn [snd] in *.
  - destruct (Hk a w1) as (jobs & E & L). exists jobs.
    split; [|exact L]. rewrite E. f_equal. exact Hm.
  - now apply starts_none.
Qed.

Lemma starts_before P A B (m : M host A) (k : A -> M host B) :
  keeps (starts (host := host) P) m -> (forall a, keeps (@same_jobs host) (k a)) ->
  keeps (starts (host := host) P) (bind m k).
Proof.
  intros Hm Hk w. unfold bind. specialize (Hm w).
  destruct (m w) as [[a|e] w1]; cbn [snd] in *; [|exact Hm].
  destruct Hm as (jobs & E & L). exists jobs.
  split; [|exact L]. rewrite (Hk a w1). exact E.
Qed.

Lemma chunk_uris_jobs chunks :
  keeps (@same_jobs host) (@chunk_uris host chunks).
Proof.
  induction chunks as [|chunk chunks IH]; cbn [chunk_uris].
  - jobs_frame.
  - unfold chunk_uri, read.
    apply keeps_bind; [apply same_jobs_trans| |intros ?]; [jobs_frame|].
    apply keeps_bind; [apply same_jobs_trans|exact IH|intros ?]. jobs_frame.
Qed.

(** When a title generation is started, and for what. *)
Lemma auto_title_starts targetChatId history reply :
  keeps (starts (host := host) (fun j => job_chat j = targetChatId
                          /\ job_model j = selectedModel cl
                          /\ job_user j <> [] /\ job_reply j <> []
                          /\ untitled cl targetChatId = true
                          /\ List.length history <= 4))
    (@auto_title host cl targetChatId history reply).
Proof.
  intros w. unfold auto_title.
  change (match option_map title
                  (find (fun c => JsString.eqb (chat_id c) targetChatId)
                     (cl_chats cl)) with
          | Some t => JsString.eqb t (str "New Chat") || JsString.eqb t []
          | None => true
          end) with (untitled cl targetChatId).
  destruct targetChatId as [|c0 t0] eqn:Etarget;
    [now apply starts_none|]. rewrite <- Etarget.
  destruct ((List.length history <=? 4) && untitled cl targetChatId) eqn:E;
    [|now apply starts_none].
  apply andb_prop in E. destruct E as [Hlen Hun]. apply Nat.leb_le in Hlen.
  destruct (find _ history) as [m|]; [|now apply starts_none].
  destruct (parts m) as [|p ps]; [now apply starts_none|].
  destruct (part_text p) as [[|c t]|]; try now apply starts_none.
  destruct reply as [|r0 r]; [now apply starts_none|].
  eexists [_]. split; [reflexivity|]. split; [reflexivity|].
  constructor; [|constructor]. cbn.
  repeat split; try assumption; discriminate.
Qed.

Lemma final_round_starts startTime targetChatId response history :
  keeps (starts (host := host) (fun j => job_chat j = targetChatId
                          /\ job_model j = selectedModel cl
                          /\ job_user j <> [] /\ job_reply j <> []
                          /\ untitled cl targetChatId = true
                          /\ List.length history <= 3))
    (final_round cl startTime targetChatId response history).
Proof.
  unfold final_round, DateNow.
  do 3 (apply starts_after; [jobs_frame|intros ?]).
  apply starts_after; [apply chunk_uris_jobs|intros uris].
  apply starts_after; [unfold append_message, setChats; jobs_frame|intros ?].
  apply starts_after; [unfold playAudio; jobs_frame|intros ?].
  apply starts_before; [|intros ?; jobs_frame].
  intros w.
  destruct (auto_title_starts targetChatId
              (history ++ [mkMessage (number_text (a0 + 1)) model
                             [PText (text response)] a1 (Some (reply_model cl))
                             (Some (filter Value.truthy uris))
                             (Some (a - startTime)%Z) None])
              (text response) w) as (jobs & E & L & F).
  exists jobs. split; [exact E|]. split; [exact L|].
  eapply Forall_impl; [|exact F]. cbv beta.
  intros j (? & ? & ? & ? & ? & Hlen). rewrite length_app in Hlen.
  cbn [List.length] in Hlen. repeat split; try assumption. lia.
Qed.

Lemma tool_round_jobs targetChatId response calls history :
  keeps (@same_jobs host) (tool_round cl targetChatId response calls history).
Proof.
  unfold tool_round, DateNow, append_message, setChats.
  do 3 (apply keeps_bind; [apply same_jobs_trans| |intros ?]; [jobs_frame|]).
  apply keeps_bind; [apply same_jobs_trans| |intros ?].
  { intros w. apply (dispatch_all_offstage cl calls w). }
  jobs_frame.
Qed.

Lemma starts_weaken (P Q : TitleJob -> Prop) (w w' : World host) :
  (forall j, P j -> Q j) -> starts P w w' -> starts Q w w'.
Proof.
  intros H (jobs & E & L & F). exists jobs. split; [exact E|].
  split; [exact L|]. eapply Forall_impl; [exact H | exact F].
Qed.

(** One pass of the loop starts at most one title generation. *)
Lemma loop_body_starts startTime targetChatId instruction st :
  keeps (starts (host := host)
           (fun j => job_chat j = targetChatId
                     /\ job_model j = selectedModel cl
                     /\ job_user j <> [] /\ job_reply j <> []
                     /\ untitled cl targetChatId = true
                     /\ List.length (currentHistory st) <= 3))
    (loop_body cl startTime targetChatId instruction st).
Proof.
  unfold loop_body.
  apply starts_after.
  { intros w. destruct (build_config_run cl w) as (c & w1 & -> & Hoff).
    apply Hoff. }
  intros config. apply starts_after.
  { intros w.
    apply (generateChatResponse_backstage (selectedModel cl)
             (currentHistory st) [] (Some instruction) config []
             (Some (apiSettings cl)) w). }
  intros response. apply starts_after; [unfold log_reply; jobs_frame|].
  intros _.
  destruct (functionCalls response) as [[|call calls]|].
  - apply starts_before; [apply final_round_starts|intros ?; jobs_frame].
  - apply starts_after; [apply tool_round_jobs|intros history].
    intros w. now apply starts_none.
  - apply starts_before; [apply final_round_starts|intros ?; jobs_frame].
Qed.

(** A pass after which the loop goes on has started none, and has made
    the transcript longer. *)
Lemma loop_body_goes_on startTime targetChatId instruction st
      (w : World host) st' w' :
  loop_body cl startTime targetChatId instruction st w = (Ok st', w') ->
  finished st' = false ->
  same_jobs w w'
  /\ List.length (currentHistory st) <= List.length (currentHistory st').
Proof.
  unfold loop_body. unfold bind at 1.
  destruct (build_config_run cl w) as (config & w1 & -> & Hoff).
  assert (H1 : titleJobs w1 = titleJobs w) by apply Hoff. clear Hoff.
  unfold bind at 1.
  match goal with
  | |- context [generateChatResponse ?a ?b ?c ?d ?e ?f ?g w1] =>
      pose proof (generateChatResponse_backstage a b c d e f g w1) as Hback;
      destruct (generateChatResponse a b c d e f g w1) as [[response|e0] w2]
  end; [|discriminate].
  assert (H2 : titleJobs w2 = titleJobs w).
  { destruct Hback as (_ & _ & _ & _ & Hj). cbn [snd] in Hj. congruence. }
  clear Hback H1.
  unfold bind at 1. unfold log_reply at 1, modify at 1.
  set (w3 := mkWorld host _ _ _ _ _ _ _ _ _ _ _ _).
  assert (H3 : titleJobs w3 = titleJobs w) by exact H2.
  clearbody w3. clear H2.
  destruct (functionCalls response) as [[|call calls]|] eqn:Efc.
  - unfold bind.
    destruct (final_round cl startTime targetChatId response
                (currentHistory st) w3) as [[history|e1] w4];
      [|discriminate].
    intros [= <- <-]. discriminate.
  - unfold bind.
    pose proof (tool_round_jobs targetChatId response (call :: calls)
                  (currentHistory st) w3) as H4.
    destruct (tool_round_run cl targetChatId response (call :: calls)
                (currentHistory st) w3)
      as (ai & tool & w4 & _ & _ & Eround & _).
    rewrite Eround in H4 |- *. cbn [snd] in H4. unfold same_jobs in H4.
    intros [= <- <-] _. cbn [currentHistory]. split.
    + unfold same_jobs. congruence.
    + rewrite length_app. lia.
  - unfold bind.
    destruct (final_round cl startTime targetChatId response
                (currentHistory st) w3) as [[history|e1] w4];
      [|discriminate].
    intros [= <- <-]. discriminate.
Qed.

Lemma tool_loop_starts n remaining startTime targetChatId instruction :
  forall st (w : World host),
    n <= List.length (currentHistory st) ->
    starts (host := host)
      (fun j => job_chat j = targetChatId
                /\ job_model j = selectedModel cl
                /\ job_user j <> [] /\ job_reply j <> []
                /\ untitled cl targetChatId = true /\ n <= 3)
      w (snd (tool_loop cl remaining startTime targetChatId instruction st w)).
Proof.
  induction remaining as [|remaining IH]; intros st w Hn; cbn [tool_loop].
  - now apply starts_none.
  - destruct (finished st) eqn:Hfin; [now apply starts_none|].
    assert (Hstarts := loop_body_starts startTime targetChatId instruction st w).
    apply (@starts_weaken _
             (fun j => job_chat j = targetChatId
                       /\ job_model j = selectedModel cl
                       /\ job_user j <> [] /\ job_reply j <> []
                       /\ untitled cl targetChatId = true /\ n <= 3))
      in Hstarts;
      [|intros j (? & ? & ? & ? & ? & ?); repeat split; try assumption; lia].
    pose proof (@loop_body_goes_on startTime targetChatId instruction st w)
      as Hon.
    unfold bind.
    destruct (loop_body cl startTime targetChatId instruction st w)
      as [[st'|e] w1]; cbn [snd] in *; [|exact Hstarts].
    destruct (finished st') eqn:Hfin'.
    + destruct remaining; cbn [tool_loop]; [|rewrite Hfin']; exact Hstarts.
    + destruct (Hon st' w1 eq_refl Hfin') as (Hsame & Hn').
      destruct (IH st' w1 (Nat.le_trans _ _ _ Hn Hn')) as (jobs & E & L).
      exists jobs. split; [|exact L]. rewrite E. f_equal. exact Hsame.
Qed.

(** The user message of the turn goes behind the messages of the
    render. *)
Lemma send_user_message_history targetChatId userPrompt (w : World host) :
  exists userMessage w1,
    send_user_message cl targetChatId userPrompt w
    = (Ok (stored_messages cl targetChatId ++ [userMessage]), w1)
    /\ same_jobs w w1.
Proof.
  unfold send_user_message.
  destruct (total_run w (attachment_parts_total (cl_attachments cl)))
    as (attached & wa & Eatt).
  pose proof (attachment_parts_offstage (cl_attachments cl) w) as Hoff.
  rewrite Eatt in Hoff. cbn [snd] in Hoff.
  destruct Hoff as (_ & _ & _ & Hjobs & _).
  erewrite bind_ok by exact Eatt.
  unfold bind, DateNow, ask, setChats, modify, ret. cbn [fst snd].
  do 2 eexists. split; [reflexivity|].
  unfold same_jobs. cbn [titleJobs tick]. exact Hjobs.
Qed.

Lemma turn_starts promptText isHiddenSubmission (w : World host) :
  starts (turn_title cl) w
    (snd (handleSendMessageInternal cl promptText isHiddenSubmission w)).
Proof.
  unfold handleSendMessageInternal.
  unfold bind at 1, DateNow at 1, ask at 1.
  destruct (total_run (tick w) (target_chat_total cl)) as (target & w1 & Etarget).
  assert (H1 : same_jobs w w1).
  { assert (K : keeps (@same_jobs host) (@target_chat host cl))
      by (unfold target_chat, DateNow, setChats, setCurrentChatId; jobs_frame).
    specialize (K (tick w)). rewrite Etarget in K. exact K. }
  erewrite bind_ok by exact Etarget.
  set (flags := if isHiddenSubmission then ret tt
                else setInputValue [] ;;; setAttachments []).
  assert (Hflags : exists w2, flags w1 = (Ok tt, w2) /\ same_jobs w1 w2).
  { unfold flags. destruct isHiddenSubmission; eexists; split; reflexivity. }
  destruct Hflags as (w2 & Eflags & H2).
  erewrite bind_ok by exact Eflags.
  unfold bind at 1, setIsTyping at 1, modify at 1.
  set (w3 := mkWorld host _ _ _ _ _ _ _ _ _ _ _ _).
  assert (H3 : same_jobs w w3).
  { unfold same_jobs in *. unfold w3. cbn [titleJobs]. congruence. }
  clearbody w3.
  destruct (send_user_message_history target promptText w3)
    as (userMessage & w4 & Esend & H4).
  assert (H : keeps (starts (host := host) (turn_title cl))
            (try_catch
               (tool_loop cl MAX_LOOPS (Date_now host (ticks w)) target
                  (finalSystemInstruction cl promptText)
                  (mkLoopState false 0
                     (stored_messages cl target ++ [userMessage])) ;;;
                ret tt)
               (@report_error host target) ;;;
             setIsTyping false)).
  { apply starts_before; [|intros ?; unfold setIsTyping; jobs_frame].
    intros w5. unfold try_catch, bind.
    pose proof (@tool_loop_starts
                  (List.length (stored_messages cl target ++ [userMessage]))
                  MAX_LOOPS (Date_now host (ticks w)) target
                  (finalSystemInstruction cl promptText)
                  (mkLoopState false 0
                     (stored_messages cl target ++ [userMessage]))
                  w5 (le_n _)) as (jobs & E & L & F).
    assert (F' : Forall (turn_title cl) jobs).
    { eapply Forall_impl; [|exact F]. cbv beta.
      intros j (Hc & Hm & Hu & Hr & Hun & Hlen). subst target.
      rewrite length_app in Hlen. cbn [List.length] in Hlen.
      repeat split; try assumption. lia. }
    destruct (tool_loop cl MAX_LOOPS _ target _ _ w5) as [[st|e] w6];
      cbn [snd] in *.
    - exists jobs. now repeat split.
    - exists jobs. split; [|now split].
      unfold report_error, DateNow, append_message, setChats, bind, ask,
        modify. cbn [snd titleJobs tick]. exact E. }
  specialize (H w4).
  assert (Erest : forall k : list Message -> M host unit,
             (history <- send_user_message cl target promptText ;; k history) w3
             = k (stored_messages cl target ++ [userMessage]) w4).
  { intros k. unfold bind. now rewrite Esend. }
  unfold bind at 1, try_catch at 1.
  unfold bind at 1 in H. unfold try_catch at 1 in H.
  unfold bind at 1. rewrite Esend.
  destruct H as (jobs & E & L). exists jobs. split; [|exact L].
  unfold bind at 1 in E. unfold bind at 1.
  rewrite E. f_equal. unfold same_jobs in *. congruence.
Qed.

End Started.

(** X20.  A turn starts at most one title generation.  The one it
    starts is for a chat that the render shows without a title of its
    own and with at most two messages, names the selected model, and
    has a user text and a reply that are not empty. *)
Theorem a_turn_starts_at_most_one_title host cl promptText isHiddenSubmission
        (w : World host) :
  exists jobs,
    titleJobs (snd (handleSendMessageInternal cl promptText
                      isHiddenSubmission w))
    = titleJobs w ++ jobs
    /\ List.length jobs <= 1
    /\ Forall (fun j =>
                 job_model j = selectedModel cl
                 /\ job_user j <> [] /\ job_reply j <> []
                 /\ untitled cl (job_chat j) = true
                 /\ List.length (stored_messages cl (job_chat j)) <= 2)
         jobs.
Proof. exact (turn_starts cl promptText isHiddenSubmission w). Qed.

End TitleJobs.

(* ===================================================================== *)
(** ** A submission that lists subtasks *)
(* ===================================================================== *)

Module Subtasks.

Import Scenario.

Local Open Scope client_scope.

Section Added.

Variable host : Host.
Variable cl : Closure.

Lemma add_subtasks_run parent :
  (forall t d, exists d', db_addTodo host t d = Ok d') ->
  forall texts (w : World host),
    exists news w1,
      add_subtasks texts parent w = (Ok tt, w1)
      /\ todos w1 = todos w ++ news
      /\ map todo_text news = texts
      /\ Forall (fun t => parentId t = parent /\ completed t = false
                          /\ timeSpent t = Some 0%Z) news
      /\ requests w1 = requests w /\ chats w1 = chats w.
Proof.
  intros Hstore. induction texts as [|text texts IH]; intros w.
  - exists [], w. rewrite app_nil_r. now repeat split.
  - cbn [add_subtasks].
    cbv beta zeta iota delta [handleAddTodo bind DateNow ask setTodos modify
                                on_db fst snd].
    cbn [db tick].
    match goal with
    | |- context [db_addTodo host ?t ?d] =>
        destruct (Hstore t d) as (d' & ->); set (newTodo := t)
    end.
    cbv beta iota delta [ret].
    match goal with
    | |- context [add_subtasks texts parent ?w0] =>
        destruct (IH w0) as (news & w1 & -> & Htodos & Htexts & Hall & Hreq
                             & Hchats)
    end.
    exists (newTodo :: news), w1. split; [reflexivity|].
    cbn [todos requests chats set_db tick] in Htodos, Hreq, Hchats.
    rewrite Htodos, Hreq, Hchats, <- app_assoc. cbn [map app].
    rewrite Htexts. repeat split. constructor; [now repeat split | exact Hall].
Qed.

End Added.

(** X21.  A submission that names a parent task and lists subtasks adds
    the subtasks instead of sending the values.  When the task store
    accepts them, one task per listed text is appended to the tasks, in
    the order listed, each open, under the parent, with no time spent;
    no request is made for that; and the turn that follows is sent the
    count of the texts listed and the parent. *)
Theorem listed_subtasks_are_added_in_order host cl messageId data texts
        (w : World host) :
  subtask_match cl data = true ->
  subtasks data = VArr texts ->
  (forall t d, exists d', db_addTodo host t d = Ok d') ->
  exists news w1,
    handleFormSubmit cl messageId data w
    = handleSendMessageInternal cl
        (str "[SYSTEM: Successfully created "
           ++ JSON.number_to_string (Z.of_nat (List.length texts))
           ++ str " subtasks for parent ID "
           ++ FormAgentCard.to_string (finalParentId cl data) ++ str "]")
        true w1
    /\ todos w1 = todos w ++ news
    /\ map todo_text news = texts
    /\ Forall (fun t => parentId t = finalParentId cl data
                        /\ completed t = false /\ timeSpent t = Some 0%Z) news
    /\ requests w1 = requests w.
Proof.
  intros Hmatch Hsub Hstore. unfold handleFormSubmit.
  rewrite Hmatch, Hsub.
  cbv beta zeta iota delta [attach_submission bind DateNow ask setChats modify
                              fst snd].
  match goal with
  | |- context [add_subtasks texts (finalParentId cl data) ?w0] =>
      destruct (@add_subtasks_run host (finalParentId cl data) Hstore texts w0)
        as (news & w1 & Eadd & Htodos & Htexts & Hall & Hreq & _)
  end.
  exists news, w1. rewrite Eadd.
  split; [reflexivity|]. now repeat split.
Qed.

(** Two subtasks for the task [t1]. *)
Lemma listed_subtasks_are_added_in_order_witness :
  let host := host_with no_generate no_fetch store_add in
  let cl := closure_with (Some (str "c1")) [] [a_todo "t1" "Trip" false]
              gemini_settings in
  let data := [(str "parent_id", VStr (str "t1"));
               (str "subtasks", VArr [VStr (str "Book"); VStr (str "Pack")])] in
  let w := world_with host [mkChat (str "c1") (str "New Chat") [] 0 None]
             [a_todo "t1" "Trip" false] [a_todo "t1" "Trip" false] in
  exists news w1,
    handleFormSubmit cl (str "m1") data w
    = handleSendMessageInternal cl
        (str "[SYSTEM: Successfully created 2 subtasks for parent ID t1]")
        true w1
    /\ todos w1 = todos w ++ news
    /\ map todo_text news = [VStr (str "Book"); VStr (str "Pack")]
    /\ Forall (fun t => parentId t = VStr (str "t1")
                        /\ completed t = false /\ timeSpent t = Some 0%Z) news
    /\ requests w1 = requests w.
Proof.
  cbv zeta.
  apply (@listed_subtasks_are_added_in_order
           (host_with no_generate no_fetch store_add)
           (closure_with (Some (str "c1")) [] [a_todo "t1" "Trip" false]
              gemini_settings)
           (str "m1")
           [(str "parent_id", VStr (str "t1"));
            (str "subtasks", VArr [VStr (str "Book"); VStr (str "Pack")])]
           [VStr (str "Book"); VStr (str "Pack")]).
  - reflexivity.
  - reflexivity.
  - intros t d. eexists. reflexivity.
Defined.

(** X22.  When the task store rejects the first subtask, the submission
    throws the error of the store: no request is made and no message is
    sent, and the subtasks after it are not added.  The rejected task
    is in the list of tasks all the same, since the list is updated
    before the store is asked. *)
Theorem rejected_subtask_stops_the_submission host cl messageId data text
        texts e (w : World host) :
  subtask_match cl data = true ->
  subtasks data = VArr (text :: texts) ->
  (forall t d, db_addTodo host t d = Throw e) ->
  exists t w',
    handleFormSubmit cl messageId data w = (Throw e, w')
    /\ todos w' = todos w ++ [t]
    /\ todo_text t = text
    /\ db w' = db w
    /\ requests w' = requests w
    /\ Forall2 (fun c c' => List.length (messages c') = List.length (messages c))
         (chats w) (chats w').
Proof.
  intros Hmatch Hsub Hstore. unfold handleFormSubmit.
  rewrite Hmatch, Hsub. cbn [add_subtasks].
  unfold attach_submission, handleAddTodo, bind, DateNow, ask, setChats,
    setTodos, modify, on_db. cbn [fst snd db tick].
  rewrite Hstore. do 2 eexists. split; [reflexivity|].
  cbn [todos db requests chats tick]. repeat split.
  induction (chats w) as [|c l IH]; cbn [map]; constructor; [|exact IH].
  destruct (cl_currentChatId cl) as [id|]; [|reflexivity].
  destruct (JsString.eqb (chat_id c) id); [|reflexivity].
  cbn [messages]. apply length_map.
Qed.

(** The store is full. *)
Lemma rejected_subtask_stops_the_submission_witness :
  let host := host_with no_generate no_fetch
                (fun _ _ => Throw (str "QuotaExceededError")) in
  let cl := closure_with (Some (str "c1")) [] [a_todo "t1" "Trip" false]
              gemini_settings in
  let data := [(str "parent_id", VStr (str "t1"));
               (str "subtasks", VArr [VStr (str "Book"); VStr (str "Pack")])] in
  let w := world_with host [mkChat (str "c1") (str "New Chat") [] 0 None]
             [a_todo "t1" "Trip" false] [a_todo "t1" "Trip" false] in
  exists t w',
    handleFormSubmit cl (str "m1") data w
    = (Throw (str "QuotaExceededError"), w')
    /\ todos w' = todos w ++ [t]
    /\ todo_text t = VStr (str "Book")
    /\ db w' = db w
    /\ requests w' = requests w
    /\ Forall2 (fun c c' => List.length (messages c') = List.length (messages c))
         (chats w) (chats w').
Proof.
  cbv zeta.
  apply (@rejected_subtask_stops_the_submission
           (host_with no_generate no_fetch
              (fun _ _ => Throw (str "QuotaExceededError")))
           (closure_with (Some (str "c1")) [] [a_todo "t1" "Trip" false]
              gemini_settings)
           (str "m1")
           [(str "parent_id", VStr (str "t1"));
            (str "subtasks", VArr [VStr (str "Book"); VStr (str "Pack")])]
           (VStr (str "Book")) [VStr (str "Pack")]
           (str "QuotaExceededError")).
  - reflexivity.
  - reflexivity.
  - reflexivity.
Defined.

End Subtasks.

(* ===================================================================== *)
(** ** Attachments and field keys *)
(* ===================================================================== *)

Module Attachments.

Local Open Scope client_scope.

(** X23.  The attachments of a turn never make it fail.  Each pending
    attachment gives one part of the user message, in order: an image
    is put inline and no upload is asked for it; another file is
    referred to by what the upload returned, and when the upload is
    refused, by a text that names the file.  Nothing is requested from
    the model and nothing is stored meanwhile. *)
Theorem refused_upload_becomes_a_text_part host atts (w : World host) :
  exists parts w',
    attachment_parts atts w = (Ok parts, w')
    /\ Forall2 (attached host) atts parts
    /\ requests w' = requests w
    /\ chats w' = chats w.
Proof.
  revert w. induction atts as [|att atts IH]; intros w; cbn [attachment_parts].
  - exists [], w. split; [reflexivity|]. split; [constructor | now split].
  - destruct (startsWith (str "image/") (pa_mimeType att)) eqn:Eimage.
    + unfold bind at 1. unfold ret at 1.
      destruct (IH w) as (parts & w' & Erest & Hparts & Hreq & Hchats).
      unfold bind. rewrite Erest. do 2 eexists.
      split; [reflexivity|]. split; [|now split].
      constructor; [|exact Hparts]. unfold attached. now rewrite Eimage.
    + unfold bind at 1, try_catch, bind at 1, ask, lift.
      destruct (uploadFile host (ticks w) (file_name att) (pa_mimeType att))
        as [uploaded|e] eqn:Eupload; unfold bind at 1, ret at 1 2;
        destruct (IH (tick w)) as (parts & w' & Erest & Hparts & Hreq & Hchats);
        unfold bind; rewrite Erest; do 2 eexists;
        (split; [reflexivity|]); (split; [|now split]);
        (constructor; [|exact Hparts]); unfold attached; rewrite Eimage;
        exists (ticks w); now rewrite Eupload.
Qed.

End Attachments.

Module FieldKeys.

Import FormAgentCard.

Lemma unique_field_run seenKeys f index :
  f <> VNull -> f <> VUndefined ->
  exists uniqueKey,
    unique_field seenKeys f index
    = Some (VObj (Value.set (str "key") uniqueKey (spread f)),
            seenKeys ++ [uniqueKey])
    /\ Value.truthy uniqueKey = true.
Proof.
  intros Hnull Hundef. unfold unique_field.
  set (key := Value.prop (str "key") f).
  destruct (negb (Value.truthy key) || set_has seenKeys key) eqn:E.
  - exists (VStr (to_string (Value.or_else key (VStr (str "field")))
                    ++ str "_" ++ JSON.number_to_string (Z.of_nat index))).
    split; [destruct f; try reflexivity; contradiction|].
    cbn [Value.truthy].
    destruct (to_string (Value.or_else key (VStr (str "field"))));
      reflexivity.
  - exists key. split; [destruct f; try reflexivity; contradiction|].
    apply orb_false_iff in E. destruct E as [E _].
    now apply negb_false_iff in E.
Qed.

(** X24.  The fields of a payload never have an empty key.  The effect
    of the card gives up only when an entry of [fields] is [null] or no
    value at all; otherwise it keeps as many fields as it was given, and
    each is an object whose key is truthy. *)
Theorem unique_fields_keys_are_never_empty seenKeys index fields :
  (unique_fields seenKeys index fields = None
   <-> Exists (fun f => f = VNull \/ f = VUndefined) fields)
  /\ (forall out,
         unique_fields seenKeys index fields = Some out ->
         List.length out = List.length fields
         /\ Forall (fun f' => exists props,
                        f' = VObj props
                        /\ Value.truthy (Value.prop (str "key") f') = true)
              out).
Proof.
  revert seenKeys index.
  induction fields as [|f fields IH]; intros seenKeys index;
    cbn [unique_fields].
  - split.
    + split; [discriminate | intros H; inversion H].
    + intros out [= <-]. split; [reflexivity | constructor].
  - assert (Hcases : (f = VNull \/ f = VUndefined)
                     \/ (f <> VNull /\ f <> VUndefined)).
    { destruct f; try (right; split; discriminate); left; auto. }
    destruct Hcases as [Hbad|[Hnull Hundef]].
    + assert (E : unique_field seenKeys f index = None)
        by (destruct Hbad as [-> | ->]; reflexivity).
      rewrite E. split.
      * split; [intros _; now constructor | reflexivity].
      * discriminate.
    + destruct (unique_field_run seenKeys index Hnull Hundef)
        as (uniqueKey & -> & Hkey).
      destruct (IH (seenKeys ++ [uniqueKey]) (S index)) as (Hnone & Hsome).
      destruct (unique_fields (seenKeys ++ [uniqueKey]) (S index) fields)
        as [rest|].
      * split.
        -- split; [discriminate|]. intros H. inversion H as [? ? Hf|? ? Hin].
           ++ destruct Hf; contradiction.
           ++ apply Hnone in Hin. discriminate.
        -- intros out [= <-]. destruct (Hsome rest eq_refl) as (Hlen & Hall).
           cbn [List.length]. split; [now rewrite Hlen|].
           constructor; [|exact Hall]. eexists. split; [reflexivity|].
           now rewrite Facts.prop_set_same.
      * split; [|discriminate].
        split; [intros _; apply Exists_cons_tl; now apply Hnone | reflexivity].
Qed.

End FieldKeys.

(* ===================================================================== *)
(** ** A handler that fails *)
(* ===================================================================== *)

Module Recovery.

Import Scenario.

Local Open Scope client_scope.

Section Next.

Variable host : Host.
Variable cl : Closure.







End Next.




End Recovery.
